(** * NotoshaVault: the client-side crypto core and the security analyzer

    A shallow embedding of the TypeScript sources

      - the crypto utilities [./utils] of lib/crypto
        (src/unnamed/part_002)                      module [Codec]
      - lib/crypto/keys.ts                          module [Keys]
      - the encryption functions [./encryption] of lib/crypto
        (src/unnamed/part_002)                      module [Encryption]
      - the hook [useCrypto] (src/unnamed/part_004) module [UseCrypto]
      - contexts/VaultContext.tsx, [refreshSecrets] module [VaultContext]
      - lib/password-generator.ts,
        [calculatePasswordStrength]                 module [PasswordGenerator]
      - lib/security-analyzer.ts                    module [SecurityAnalyzer]
      - lib/storage.ts                              modules [Storage],
                                                    [LastUnlock]
      - contexts/VaultContext.tsx, [VaultProvider]  module [VaultProvider]
      - the hook [useAutoLock]
        (src/unnamed/part_004)                      module [UseAutoLock]
      - lib/password-generator.ts,
        [generatePassword]                          module [Generator]

    together with the parts of the JavaScript platform these files call:
    [btoa]/[atob], [TextEncoder]/[TextDecoder], [JSON.stringify]/[JSON.parse]
    on the objects the vault stores, [Math.floor]/[Math.round] on doubles.

    Conventions.
      - A JavaScript string is the list of its UTF-16 code units ([jsstring]).
      - A [Uint8Array]/[ArrayBuffer] is a list of bytes.
      - A JavaScript number that the code computes with [/] and [*] is an
        IEEE-754 binary64 value ([PrimFloat.float]); counters and array
        lengths are natural numbers, time values are integers (milliseconds).
      - A function that may throw returns a [result]; [async] functions are
        run to completion, one at a time.
      - The Web Crypto primitives (PBKDF2, AES-GCM) are the operations of the
        class [WebCrypto]; the CSPRNG is a sequence of bytes that
        [getRandomValues] consumes.
      - [localStorage] is the list of its items; the vault service, whose
        functions catch their errors, is what it answers during a call;
        timers are the list of those pending, with the time each is due. *)

From Stdlib Require Import List String Ascii Bool Arith NArith ZArith Lia.
From Stdlib Require Import Strings.Byte Floats.PrimFloat Uint63 DecimalString.
From Stdlib Require Import Sorted Permutation DecimalPos DecimalN.
Import ListNotations.

Ltac Zify.zify_post_hook ::= Z.to_euclidean_division_equations.

#[local] Open Scope N_scope.

(* ================================================================== *)
(** * Part I: the embedding                                            *)
(* ================================================================== *)

(** ** JavaScript values *)

Module JS.

(** A string: its UTF-16 code units, each below 65536. *)
Definition jsstring := list N.

Definition bytes := list byte.

(** A string literal of the source (ASCII). *)
Definition lit (s : string) : jsstring :=
  map N_of_ascii (list_ascii_of_string s).

Definition code_unit (c : N) : Prop := c < 65536.

Definition wf_string (s : jsstring) : Prop := Forall code_unit s.

Fixpoint str_eqb (a b : jsstring) : bool :=
  match a, b with
  | [], [] => true
  | x :: a', y :: b' => (x =? y) && str_eqb a' b'
  | _, _ => false
  end.

(** What a [throw] carries. *)
Inductive JsError : Type :=
| InvalidCharacterError          (* DOMException of btoa / atob *)
| OperationError                 (* crypto.subtle.decrypt: tag mismatch *)
| SyntaxError                    (* JSON.parse *)
| Error (message : jsstring).    (* new Error(message) *)

Inductive result (A : Type) : Type :=
| Ok (a : A)
| Throw (e : JsError).

Arguments Ok {A} a.
Arguments Throw {A} e.

Definition bind {A B} (r : result A) (k : A -> result B) : result B :=
  match r with
  | Ok a => k a
  | Throw e => Throw e
  end.

(** [try { body } catch (error) { handler }] *)
Definition try_catch {A} (body : result A) (handler : JsError -> result A)
  : result A :=
  match body with
  | Ok a => Ok a
  | Throw e => handler e
  end.


(** [Promise.all(xs.map(f))]: every call runs; the promise rejects with the
    first rejection in array order when all calls settle synchronously, and
    resolves to all the values otherwise. *)
Fixpoint Promise_all_map {A B} (f : A -> result B) (xs : list A)
  : result (list B) :=
  match xs with
  | [] => Ok []
  | x :: rest =>
      match f x, Promise_all_map f rest with
      | Ok y, Ok ys => Ok (y :: ys)
      | Throw e, _ => Throw e
      | Ok _, Throw e => Throw e
      end
  end.

Definition byte_of_N (n : N) : byte :=
  match Byte.of_N n with
  | Some b => b
  | None => x00
  end.

(** [Number.prototype.toString()] of a non-negative integer. *)
Definition Number_toString (n : N) : jsstring :=
  lit (NilZero.string_of_uint (N.to_uint n)).

End JS.

Export JS.

Declare Scope js_scope.
Delimit Scope js_scope with js.
Notation "x <- r ;; k" := (bind r (fun x => k))
  (at level 61, r at next level, right associativity) : js_scope.
#[local] Open Scope js_scope.

(** ** [btoa] and [atob] (WHATWG forgiving-base64) *)

Module Base64.

(** The base64 alphabet: index to code unit. *)
Definition b64_char (i : N) : N :=
  if i <? 26 then 65 + i           (* A-Z *)
  else if i <? 52 then 71 + i      (* a-z *)
  else if i <? 62 then i - 4       (* 0-9 *)
  else if i =? 62 then 43          (* + *)
  else 47.                         (* / *)

Definition b64_index (c : N) : option N :=
  if (65 <=? c) && (c <=? 90) then Some (c - 65)
  else if (97 <=? c) && (c <=? 122) then Some (c - 71)
  else if (48 <=? c) && (c <=? 57) then Some (c + 4)
  else if c =? 43 then Some 62
  else if c =? 47 then Some 63
  else None.

Definition pad : N := 61.          (* = *)

(** Three octets give four sextets; a last group of one or two octets is
    padded with [=]. *)
Fixpoint encode_groups (s : list N) : jsstring :=
  match s with
  | [] => []
  | [a] => [b64_char (a / 4); b64_char ((a mod 4) * 16); pad; pad]
  | [a; b] =>
      [b64_char (a / 4); b64_char ((a mod 4) * 16 + b / 16);
       b64_char ((b mod 16) * 4); pad]
  | a :: b :: c :: rest =>
      b64_char (a / 4) :: b64_char ((a mod 4) * 16 + b / 16)
      :: b64_char ((b mod 16) * 4 + c / 64) :: b64_char (c mod 64)
      :: encode_groups rest
  end.

(** [btoa(binary)]: throws when a code unit is above 0xFF. *)
Definition btoa (binary : jsstring) : result jsstring :=
  if forallb (fun c => c <=? 255) binary
  then Ok (encode_groups binary)
  else Throw InvalidCharacterError.

Definition ascii_whitespace (c : N) : bool :=
  (c =? 9) || (c =? 10) || (c =? 12) || (c =? 13) || (c =? 32).

(** Remove one or two [=] that end the data. *)
Fixpoint strip_padding (s : jsstring) : jsstring :=
  match s with
  | [] => []
  | c :: rest =>
      match rest with
      | [] => if c =? pad then [] else [c]
      | [d] => if (c =? pad) && (d =? pad) then [] else c :: strip_padding rest
      | _ => c :: strip_padding rest
      end
  end.

Fixpoint indices (s : jsstring) : option (list N) :=
  match s with
  | [] => Some []
  | c :: rest =>
      match b64_index c, indices rest with
      | Some i, Some l => Some (i :: l)
      | _, _ => None
      end
  end.

(** Four sextets give three octets; of a last group of two or three sextets
    the low 4 or 2 bits are discarded. *)
Fixpoint decode_sextets (l : list N) : list N :=
  match l with
  | a :: b :: c :: d :: rest =>
      (a * 4 + b / 16) :: ((b mod 16) * 16 + c / 4) :: ((c mod 4) * 64 + d)
      :: decode_sextets rest
  | [a; b; c] => [a * 4 + b / 16; (b mod 16) * 16 + c / 4]
  | [a; b] => [a * 4 + b / 16]
  | _ => []
  end.

(** [atob(data)]: strip ASCII whitespace; when the length is a multiple of
    four drop the padding; fail on a length of 1 modulo 4 and on any code unit
    outside the alphabet. *)
Definition atob (data : jsstring) : result jsstring :=
  let data := filter (fun c => negb (ascii_whitespace c)) data in
  let data :=
    if (N.of_nat (List.length data)) mod 4 =? 0 then strip_padding data else data in
  if (N.of_nat (List.length data)) mod 4 =? 1 then Throw InvalidCharacterError
  else
    match indices data with
    | Some l => Ok (decode_sextets l)
    | None => Throw InvalidCharacterError
    end.

End Base64.

(** ** [TextEncoder] and [TextDecoder] (WHATWG UTF-8) *)

Module Utf8.

Definition is_high_surrogate (c : N) : bool := (55296 <=? c) && (c <=? 56319).
Definition is_low_surrogate (c : N) : bool := (56320 <=? c) && (c <=? 57343).
Definition is_surrogate (c : N) : bool := (55296 <=? c) && (c <=? 57343).

Definition replacement : N := 65533.      (* U+FFFD *)

(** Well-formed UTF-16: code units below 65536, every surrogate in a pair. *)
Inductive well_formed : jsstring -> Prop :=
| wf_nil : well_formed []
| wf_unit c s :
    c < 65536 -> is_surrogate c = false -> well_formed s ->
    well_formed (c :: s)
| wf_pair h l s :
    is_high_surrogate h = true -> is_low_surrogate l = true ->
    well_formed s -> well_formed (h :: l :: s).

(** A string's scalar values: a surrogate pair is one code point, a surrogate
    on its own becomes U+FFFD. *)
Fixpoint to_scalars (s : jsstring) : list N :=
  match s with
  | [] => []
  | c :: rest =>
      if is_high_surrogate c then
        match rest with
        | l :: rest' =>
            if is_low_surrogate l
            then (65536 + (c - 55296) * 1024 + (l - 56320)) :: to_scalars rest'
            else replacement :: to_scalars rest
        | [] => [replacement]
        end
      else if is_low_surrogate c then replacement :: to_scalars rest
      else c :: to_scalars rest
  end.

Definition encode_scalar (c : N) : bytes :=
  if c <? 128 then [byte_of_N c]
  else if c <? 2048 then
    [byte_of_N (192 + c / 64); byte_of_N (128 + c mod 64)]
  else if c <? 65536 then
    [byte_of_N (224 + c / 4096); byte_of_N (128 + (c / 64) mod 64);
     byte_of_N (128 + c mod 64)]
  else
    [byte_of_N (240 + c / 262144); byte_of_N (128 + (c / 4096) mod 64);
     byte_of_N (128 + (c / 64) mod 64); byte_of_N (128 + c mod 64)].

(** [new TextEncoder().encode(str)] *)
Definition TextEncoder_encode (str : jsstring) : bytes :=
  flat_map encode_scalar (to_scalars str).

(** A code point as UTF-16. *)
Definition from_scalar (c : N) : jsstring :=
  if c <? 65536 then [c]
  else [55296 + (c - 65536) / 1024; 56320 + (c - 65536) mod 1024].

(** The decoder between two code points ([None]), or inside one: the bits
    read so far, the continuation bytes still needed, and the bounds the next
    byte must lie in. *)
Definition decoder_state := option (N * nat * N * N).

(** A byte read between two code points. *)
Definition decode_lead (b : N) : jsstring * decoder_state :=
  if b <=? 127 then ([b], None)
  else if (194 <=? b) && (b <=? 223) then ([], Some (b - 192, 1%nat, 128, 191))
  else if (224 <=? b) && (b <=? 239) then
    ([], Some (b - 224, 2%nat,
               (if b =? 224 then 160 else 128), (if b =? 237 then 159 else 191)))
  else if (240 <=? b) && (b <=? 244) then
    ([], Some (b - 240, 3%nat,
               (if b =? 240 then 144 else 128), (if b =? 244 then 143 else 191)))
  else ([replacement], None).

Fixpoint decode_loop (st : decoder_state) (input : bytes) : jsstring :=
  match input with
  | [] => match st with None => [] | Some _ => [replacement] end
  | x :: rest =>
      let b := Byte.to_N x in
      match st with
      | None =>
          let '(out, st') := decode_lead b in out ++ decode_loop st' rest
      | Some (cp, needed, lower, upper) =>
          if (lower <=? b) && (b <=? upper) then
            let cp := cp * 64 + (b - 128) in
            match needed with
            | 1%nat => from_scalar cp ++ decode_loop None rest
            | _ => decode_loop (Some (cp, Nat.pred needed, 128, 191)) rest
            end
          else
            (* the byte is read again, between two code points *)
            let '(out, st') := decode_lead b in
            replacement :: out ++ decode_loop st' rest
      end
  end.

(** [new TextDecoder().decode(buffer)]: a leading byte order mark is
    dropped, malformed input is replaced by U+FFFD. *)
Definition TextDecoder_decode (buffer : bytes) : jsstring :=
  match buffer with
  | xef :: xbb :: xbf :: rest => decode_loop None rest
  | _ => decode_loop None buffer
  end.

End Utf8.

(** ** [JSON.stringify] and [JSON.parse] on the objects the vault stores

    The vault serialises one kind of value: an object whose own properties
    are strings or [undefined].  [JSON_stringify] is ECMAScript's
    SerializeJSONObject with QuoteJSONString (the well-formed version: a
    surrogate on its own is escaped); [JSON_parse] reads the JSON texts that
    are objects with string members, insignificant whitespace included, and
    reports a [SyntaxError] on every other text. *)

Module Json.

Import Utf8.

(** An object with string-valued properties, in property order. *)
Definition js_object := list (jsstring * jsstring).

Fixpoint obj_get (o : js_object) (key : jsstring) : option jsstring :=
  match o with
  | [] => None
  | (k, v) :: rest => if str_eqb k key then Some v else obj_get rest key
  end.

(** CreateDataProperty: an existing key keeps its place and takes the new
    value, a new key goes last. *)
Fixpoint obj_set (o : js_object) (key value : jsstring) : js_object :=
  match o with
  | [] => [(key, value)]
  | (k, v) :: rest =>
      if str_eqb k key then (k, value) :: rest
      else (k, v) :: obj_set rest key value
  end.

Definition hex_digit (d : N) : N := if d <? 10 then 48 + d else 87 + d.

Definition hex_value (c : N) : option N :=
  if (48 <=? c) && (c <=? 57) then Some (c - 48)
  else if (97 <=? c) && (c <=? 102) then Some (c - 87)
  else if (65 <=? c) && (c <=? 70) then Some (c - 55)
  else None.

(** UnicodeEscape: [\uXXXX], lower-case hexadecimal. *)
Definition unicode_escape (c : N) : jsstring :=
  [92; 117; hex_digit (c / 4096); hex_digit ((c / 256) mod 16);
   hex_digit ((c / 16) mod 16); hex_digit (c mod 16)].

(** A code unit that is no surrogate, quoted. *)
Definition quote_unit (c : N) : jsstring :=
  if c =? 8 then [92; 98]            (* \b *)
  else if c =? 9 then [92; 116]      (* \t *)
  else if c =? 10 then [92; 110]     (* \n *)
  else if c =? 12 then [92; 102]     (* \f *)
  else if c =? 13 then [92; 114]     (* \r *)
  else if c =? 34 then [92; 34]      (* escaped quote *)
  else if c =? 92 then [92; 92]      (* escaped backslash *)
  else if c <? 32 then unicode_escape c
  else [c].

Fixpoint quote_chars (s : jsstring) : jsstring :=
  match s with
  | [] => []
  | c :: rest =>
      if is_high_surrogate c then
        match rest with
        | l :: rest' =>
            if is_low_surrogate l then c :: l :: quote_chars rest'
            else unicode_escape c ++ quote_chars rest
        | [] => unicode_escape c
        end
      else if is_low_surrogate c then unicode_escape c ++ quote_chars rest
      else quote_unit c ++ quote_chars rest
  end.

(** QuoteJSONString *)
Definition quote (s : jsstring) : jsstring := 34 :: quote_chars s ++ [34].

Definition member (kv : jsstring * jsstring) : jsstring :=
  quote (fst kv) ++ 58 :: quote (snd kv).

Fixpoint members (l : js_object) : jsstring :=
  match l with
  | [] => []
  | [kv] => member kv
  | kv :: rest => member kv ++ 44 :: members rest
  end.

(** The properties that are not [undefined]. *)
Fixpoint defined (props : list (jsstring * option jsstring)) : js_object :=
  match props with
  | [] => []
  | (k, Some v) :: rest => (k, v) :: defined rest
  | (_, None) :: rest => defined rest
  end.

(** [JSON.stringify(value)] of an object with the own properties [props]. *)
Definition JSON_stringify (props : list (jsstring * option jsstring))
  : jsstring :=
  123 :: members (defined props) ++ [125].

Definition json_whitespace (c : N) : bool :=
  (c =? 9) || (c =? 10) || (c =? 13) || (c =? 32).

Fixpoint skip_ws (s : jsstring) : jsstring :=
  match s with
  | c :: rest => if json_whitespace c then skip_ws rest else s
  | [] => []
  end.

Definition unescape (e : N) : option N :=
  if e =? 34 then Some 34
  else if e =? 92 then Some 92
  else if e =? 47 then Some 47
  else if e =? 98 then Some 8
  else if e =? 102 then Some 12
  else if e =? 110 then Some 10
  else if e =? 114 then Some 13
  else if e =? 116 then Some 9
  else None.

Definition hex4 (h1 h2 h3 h4 : N) : option N :=
  match hex_value h1, hex_value h2, hex_value h3, hex_value h4 with
  | Some a, Some b, Some c, Some d => Some (a * 4096 + b * 256 + c * 16 + d)
  | _, _, _, _ => None
  end.

(** The characters of a JSON string after its opening quote: the string's
    value and the text after the closing quote. *)
Fixpoint parse_string_body (s : jsstring) : option (jsstring * jsstring) :=
  match s with
  | [] => None
  | c :: rest =>
      if c =? 34 then Some ([], rest)
      else if c =? 92 then
        match rest with
        | [] => None
        | e :: rest1 =>
            if e =? 117 then
              match rest1 with
              | h1 :: h2 :: h3 :: h4 :: rest2 =>
                  match hex4 h1 h2 h3 h4, parse_string_body rest2 with
                  | Some u, Some (v, r) => Some (u :: v, r)
                  | _, _ => None
                  end
              | _ => None
              end
            else
              match unescape e, parse_string_body rest1 with
              | Some u, Some (v, r) => Some (u :: v, r)
              | _, _ => None
              end
        end
      else if c <? 32 then None
      else
        match parse_string_body rest with
        | Some (v, r) => Some (c :: v, r)
        | None => None
        end
  end.

Definition parse_string (s : jsstring) : option (jsstring * jsstring) :=
  match s with
  | 34 :: body => parse_string_body body
  | _ => None
  end.

(** The members of an object, from the first key to the closing brace; each
    member consumes input, so the text's length is fuel enough. *)
Fixpoint parse_members (fuel : nat) (s : jsstring) (acc : js_object)
  : option (js_object * jsstring) :=
  match fuel with
  | O => None
  | S fuel' =>
      match parse_string s with
      | None => None
      | Some (k, s1) =>
          match skip_ws s1 with
          | 58 :: s2 =>
              match parse_string (skip_ws s2) with
              | None => None
              | Some (v, s3) =>
                  match skip_ws s3 with
                  | 44 :: s4 =>
                      parse_members fuel' (skip_ws s4) (obj_set acc k v)
                  | 125 :: s4 => Some (obj_set acc k v, s4)
                  | _ => None
                  end
              end
          | _ => None
          end
      end
  end.

Definition parse_object (text : jsstring) : option js_object :=
  match skip_ws text with
  | 123 :: s1 =>
      match skip_ws s1 with
      | 125 :: s2 =>
          match skip_ws s2 with [] => Some [] | _ => None end
      | s1' =>
          match parse_members (List.length text) s1' [] with
          | Some (o, s2) =>
              match skip_ws s2 with [] => Some o | _ => None end
          | None => None
          end
      end
  | _ => None
  end.

(** [JSON.parse(text)] *)
Definition JSON_parse (text : jsstring) : result js_object :=
  match parse_object text with
  | Some o => Ok o
  | None => Throw SyntaxError
  end.

(** What [quote_chars] writes for a code unit it reads on its own. *)
Definition quote_single (c : N) : jsstring :=
  if is_surrogate c then unicode_escape c else quote_unit c.

(** A property whose key and value are strings. *)
Definition wf_member (kv : jsstring * jsstring) : Prop :=
  wf_string (fst kv) /\ wf_string (snd kv).

Definition assign (o : js_object) (kv : jsstring * jsstring) : js_object :=
  obj_set o (fst kv) (snd kv).

End Json.

(** ** The Web Crypto provider and the CSPRNG *)

Module Platform.

(** [crypto.subtle] as far as the vault uses it.  [deriveKey] with PBKDF2 is
    [deriveBits] followed by the import of the bits as a key, so one PBKDF2
    function serves both [deriveMasterKey] and [hashPassword]. *)
Class WebCrypto : Type := {
  (** a non-extractable AES-GCM key handle *)
  CryptoKey : Type;
  (** PBKDF2 with HMAC-SHA-256: password, salt, iterations, output bits *)
  pbkdf2 : bytes -> bytes -> N -> N -> bytes;
  (** the derived bits as an AES-GCM key for encrypt and decrypt *)
  aes_key : bytes -> CryptoKey;
  (** [encrypt({name: 'AES-GCM', iv}, key, data)]: ciphertext and tag *)
  aes_gcm_encrypt : CryptoKey -> bytes -> bytes -> bytes;
  (** [decrypt({name: 'AES-GCM', iv}, key, data)]: [None] is the rejection
      with an OperationError (tag mismatch) *)
  aes_gcm_decrypt : CryptoKey -> bytes -> bytes -> option bytes
}.

(** The CSPRNG: the bytes it gives out, one after the other, and how many
    it has given out so far. *)
Record Rng : Type := {
  entropy : nat -> byte;
  used : nat
}.

(** [crypto.getRandomValues(new Uint8Array(n))] *)
Definition getRandomValues (n : nat) (g : Rng) : bytes * Rng :=
  (map (entropy g) (seq (used g) n),
   {| entropy := entropy g; used := (used g + n)%nat |}).

(** A provider to run the code on: PBKDF2 and AES-GCM replaced by
    transparent stand-ins (the derived bits are password and salt, the
    ciphertext is nonce, key and data), so that concrete runs can be
    evaluated.  It keeps what the vault relies on: decryption undoes
    encryption under the same key and nonce and fails under any other. *)
Fixpoint strip_prefix (p l : bytes) : option bytes :=
  match p, l with
  | [], _ => Some l
  | x :: p', y :: l' => if Byte.eqb x y then strip_prefix p' l' else None
  | _ :: _, [] => None
  end.

Definition model_provider : WebCrypto := {|
  CryptoKey := bytes;
  pbkdf2 := fun password salt _ _ => password ++ salt;
  aes_key := fun bits => bits;
  aes_gcm_encrypt := fun key iv data => iv ++ key ++ data;
  aes_gcm_decrypt := fun key iv data =>
    match strip_prefix iv data with
    | Some rest => strip_prefix key rest
    | None => None
    end
|}.

End Platform.

Export Platform.

(** ** lib/crypto: [./utils] (src/unnamed/part_002) *)

Module Codec.

Import Base64 Utf8.

Definition arrayBufferToBase64 (buffer : bytes) : result jsstring :=
  let binary := map Byte.to_N buffer in     (* String.fromCharCode(bytes[i]) *)
  btoa binary.

Definition base64ToArrayBuffer (base64 : jsstring) : result bytes :=
  binary <- atob base64 ;;
  Ok (map (fun c => byte_of_N (c mod 256)) binary).  (* bytes[i] = charCodeAt(i) *)

Definition stringToArrayBuffer (str : jsstring) : bytes :=
  TextEncoder_encode str.

Definition arrayBufferToString (buffer : bytes) : jsstring :=
  TextDecoder_decode buffer.

Definition generateSalt (g : Rng) : bytes * Rng := getRandomValues 16 g.

Definition generateIV (g : Rng) : bytes * Rng := getRandomValues 12 g.

Definition uint8ArrayToBase64 (array : bytes) : result jsstring :=
  arrayBufferToBase64 array.

Definition base64ToUint8Array (base64 : jsstring) : result bytes :=
  base64ToArrayBuffer base64.

End Codec.

(** ** lib/crypto/keys.ts *)

Module Keys.

Import Codec.

Definition PBKDF2_ITERATIONS : N := 100000.
Definition KEY_LENGTH : N := 256.

Section WithProvider.
Context {provider : WebCrypto}.

Definition deriveMasterKey (masterPassword : jsstring) (salt : bytes)
  : CryptoKey :=
  let passwordBuffer := stringToArrayBuffer masterPassword in
  aes_key (pbkdf2 passwordBuffer salt PBKDF2_ITERATIONS KEY_LENGTH).

Definition hashPassword (password : jsstring) (salt : bytes)
  : result jsstring :=
  let passwordBuffer := stringToArrayBuffer password in
  let hashBuffer := pbkdf2 passwordBuffer salt PBKDF2_ITERATIONS 256 in
  arrayBufferToBase64 hashBuffer.

Record MasterPasswordInit : Type := {
  init_encryptionKey : CryptoKey;
  init_authHash : jsstring;
  init_salt : jsstring
}.

Definition initializeMasterPassword (masterPassword : jsstring) (g : Rng)
  : result MasterPasswordInit * Rng :=
  let '(salt, g') := generateSalt g in
  (let encryptionKey := deriveMasterKey masterPassword salt in
   authHash <- hashPassword masterPassword salt ;;
   salt64 <- uint8ArrayToBase64 salt ;;
   Ok {| init_encryptionKey := encryptionKey;
         init_authHash := authHash;
         init_salt := salt64 |},
   g').

Definition unlockVault (masterPassword storedSalt : jsstring)
  : result CryptoKey :=
  salt <- base64ToUint8Array storedSalt ;;
  Ok (deriveMasterKey masterPassword salt).

Definition verifyMasterPassword (masterPassword storedSalt storedHash : jsstring)
  : result bool :=
  salt <- base64ToUint8Array storedSalt ;;
  hash <- hashPassword masterPassword salt ;;
  Ok (str_eqb hash storedHash).

End WithProvider.

End Keys.

(** ** lib/crypto: [./encryption] (src/unnamed/part_002) *)

Module Encryption.

Import Codec Json.

(** The argument of [encryptSecret]. *)
Record PlainSecret : Type := {
  name : jsstring;
  username : option jsstring;
  password : jsstring;
  url : option jsstring;
  notes : option jsstring
}.

(** The own properties of the object, in the order the callers create
    them. *)
Definition properties (secret : PlainSecret)
  : list (jsstring * option jsstring) :=
  [ (lit "name", Some (name secret));
    (lit "username", username secret);
    (lit "password", Some (password secret));
    (lit "url", url secret);
    (lit "notes", notes secret) ].

Record Encrypted : Type := {
  encryptedData : jsstring;
  iv : jsstring
}.

(** The strings of a secret are strings: code units below 65536. *)
Definition wf_optional (s : option jsstring) : Prop :=
  match s with Some v => wf_string v | None => True end.

Definition wf_secret (secret : PlainSecret) : Prop :=
  wf_string (name secret) /\ wf_optional (username secret) /\
  wf_string (password secret) /\ wf_optional (url secret) /\
  wf_optional (notes secret).

(** Field-for-field equality of a decrypted object and a secret; a field
    that is [undefined] in the one is [undefined] in the other. *)
Definition same_fields (o : js_object) (secret : PlainSecret) : Prop :=
  obj_get o (lit "name") = Some (name secret) /\
  obj_get o (lit "username") = username secret /\
  obj_get o (lit "password") = Some (password secret) /\
  obj_get o (lit "url") = url secret /\
  obj_get o (lit "notes") = notes secret.

(** The 12-byte blocks that [n] successive draws take from the CSPRNG. *)
Definition nonces (n : nat) (g : Rng) : list bytes :=
  map (fun j => map (entropy g) (seq (used g + 12 * j) 12)) (seq 0 n).

Section WithProvider.
Context {provider : WebCrypto}.

Definition encryptData (data : jsstring) (encryptionKey : CryptoKey) (g : Rng)
  : result Encrypted * Rng :=
  let '(iv, g') := generateIV g in
  let dataBuffer := stringToArrayBuffer data in
  let encryptedBuffer := aes_gcm_encrypt encryptionKey iv dataBuffer in
  (e64 <- arrayBufferToBase64 encryptedBuffer ;;
   iv64 <- uint8ArrayToBase64 iv ;;
   Ok {| encryptedData := e64; iv := iv64 |},
   g').

Definition decryption_failed : JsError :=
  Error (lit "Decryption failed. Invalid key or corrupted data.").

Definition decryptData (encryptedData iv : jsstring) (encryptionKey : CryptoKey)
  : result jsstring :=
  try_catch
    (encryptedBuffer <- base64ToArrayBuffer encryptedData ;;
     ivArray <- base64ToUint8Array iv ;;
     match aes_gcm_decrypt encryptionKey ivArray encryptedBuffer with
     | Some decryptedBuffer => Ok (arrayBufferToString decryptedBuffer)
     | None => Throw OperationError
     end)
    (fun _ => Throw decryption_failed).

Definition encryptSecret (secret : PlainSecret) (encryptionKey : CryptoKey)
  (g : Rng) : result Encrypted * Rng :=
  let secretJson := JSON_stringify (properties secret) in
  encryptData secretJson encryptionKey g.

Definition decryptSecret (encryptedData iv : jsstring)
  (encryptionKey : CryptoKey) : result js_object :=
  decryptedJson <- decryptData encryptedData iv encryptionKey ;;
  JSON_parse decryptedJson.

(** What [encryptData] returns when it draws the nonce [nonce]. *)
Definition encrypted_with (data : jsstring) (key : CryptoKey) (nonce : bytes)
  : Encrypted :=
  {| encryptedData :=
       Base64.encode_groups
         (map Byte.to_N (aes_gcm_encrypt key nonce (stringToArrayBuffer data)));
     iv := Base64.encode_groups (map Byte.to_N nonce) |}.

(** [n] calls of [encryptData] on the same data with the same key, one
    after the other. *)
Fixpoint encrypt_times (n : nat) (data : jsstring) (encryptionKey : CryptoKey)
  (g : Rng) : list (result Encrypted) * Rng :=
  match n with
  | O => ([], g)
  | S n' =>
      let '(r, g1) := encryptData data encryptionKey g in
      let '(rs, g2) := encrypt_times n' data encryptionKey g1 in
      (r :: rs, g2)
  end.

(** [{ id, ...encrypted }] *)
Record EncryptedWithId : Type := {
  enc_id : jsstring;
  enc_data : jsstring;
  enc_iv : jsstring
}.

(** [Promise.all(secrets.map(async (secret) => ...))] for callbacks that
    draw from the CSPRNG: the calls start in array order. *)
Fixpoint Promise_all_map_rng {A B} (f : A -> Rng -> result B * Rng)
  (xs : list A) (g : Rng) : result (list B) * Rng :=
  match xs with
  | [] => (Ok [], g)
  | x :: rest =>
      let '(r, g1) := f x g in
      let '(rs, g2) := Promise_all_map_rng f rest g1 in
      (match r, rs with
       | Ok y, Ok ys => Ok (y :: ys)
       | Throw e, _ => Throw e
       | Ok _, Throw e => Throw e
       end, g2)
  end.

Definition encryptSecretsBatch (secrets : list (jsstring * PlainSecret))
  (encryptionKey : CryptoKey) (g : Rng)
  : result (list EncryptedWithId) * Rng :=
  Promise_all_map_rng
    (fun secret g =>
       let '(id, secretData) := secret in
       let '(encrypted, g') := encryptSecret secretData encryptionKey g in
       (e <- encrypted ;;
        Ok {| enc_id := id; enc_data := encryptedData e; enc_iv := iv e |},
        g'))
    secrets g.

(** [{ id, ...secret }]: [id] first, then the decrypted properties. *)
Definition with_id (id : jsstring) (secret : js_object) : js_object :=
  fold_left (fun o kv => obj_set o (fst kv) (snd kv)) secret [(lit "id", id)].

Definition decryptSecretsBatch (encryptedSecrets : list EncryptedWithId)
  (encryptionKey : CryptoKey) : result (list js_object) :=
  Promise_all_map
    (fun encrypted =>
       secret <- decryptSecret (enc_data encrypted) (enc_iv encrypted)
                   encryptionKey ;;
       Ok (with_id (enc_id encrypted) secret))
    encryptedSecrets.

End WithProvider.

End Encryption.

(** ** The hook [useCrypto] (src/unnamed/part_004) *)

Module UseCrypto.

Import Keys Encryption Json.

Section WithProvider.
Context {provider : WebCrypto}.

(** The hook's two cells: the React state [encryptionKey] and the ref
    [keyRef.current]; [None] is [null]. *)
Record CryptoState : Type := {
  encryptionKey : option CryptoKey;
  keyRef : option CryptoKey
}.

(** [useState(null)], [useRef(null)] *)
Definition initial : CryptoState :=
  {| encryptionKey := None; keyRef := None |}.

Definition isUnlocked (st : CryptoState) : bool :=
  match encryptionKey st with Some _ => true | None => false end.

Definition set_key (key : CryptoKey) : CryptoState :=
  {| encryptionKey := Some key; keyRef := Some key |}.

Definition vault_locked : JsError :=
  Error (lit "Vault is locked. Please unlock first.").

Definition initializeVault (masterPassword : jsstring) (g : Rng)
  (st : CryptoState) : result (jsstring * jsstring) * Rng * CryptoState :=
  match initializeMasterPassword masterPassword g with
  | (Ok r, g') =>
      (Ok (init_authHash r, init_salt r), g', set_key (init_encryptionKey r))
  | (Throw e, g') => (Throw e, g', st)
  end.

Definition unlock (masterPassword salt authHash : jsstring) (st : CryptoState)
  : result bool * CryptoState :=
  match verifyMasterPassword masterPassword salt authHash with
  | Ok false => (Ok false, st)
  | Ok true =>
      match unlockVault masterPassword salt with
      | Ok key => (Ok true, set_key key)
      | Throw _ => (Ok false, st)          (* catch: return false *)
      end
  | Throw _ => (Ok false, st)              (* catch: return false *)
  end.

Definition lock (st : CryptoState) : CryptoState :=
  {| encryptionKey := None; keyRef := None |}.

Definition encrypt (data : PlainSecret) (g : Rng) (st : CryptoState)
  : result Encrypted * Rng :=
  match keyRef st with
  | None => (Throw vault_locked, g)
  | Some key => encryptSecret data key g
  end.

Definition decrypt (encryptedData iv : jsstring) (st : CryptoState)
  : result js_object :=
  match keyRef st with
  | None => Throw vault_locked
  | Some key => decryptSecret encryptedData iv key
  end.

Definition encryptBatch (secrets : list (jsstring * PlainSecret)) (g : Rng)
  (st : CryptoState) : result (list EncryptedWithId) * Rng :=
  match keyRef st with
  | None => (Throw vault_locked, g)
  | Some key => encryptSecretsBatch secrets key g
  end.

Definition decryptBatch (encryptedSecrets : list EncryptedWithId)
  (st : CryptoState) : result (list js_object) :=
  match keyRef st with
  | None => Throw vault_locked
  | Some key => decryptSecretsBatch encryptedSecrets key
  end.

(** A session: the calls a component makes on the hook, one after the
    other, and what each returns. *)
Inductive Call : Type :=
| CallInitializeVault (masterPassword : jsstring)
| CallUnlock (masterPassword salt authHash : jsstring)
| CallLock
| CallEncrypt (data : PlainSecret)
| CallDecrypt (encryptedData iv : jsstring)
| CallEncryptBatch (secrets : list (jsstring * PlainSecret))
| CallDecryptBatch (encryptedSecrets : list EncryptedWithId).

Inductive Return : Type :=
| RetInitializeVault (r : result (jsstring * jsstring))
| RetUnlock (r : result bool)
| RetLock
| RetEncrypt (r : result Encrypted)
| RetDecrypt (r : result js_object)
| RetEncryptBatch (r : result (list EncryptedWithId))
| RetDecryptBatch (r : result (list js_object)).

Definition step (c : Call) (w : Rng * CryptoState)
  : Return * (Rng * CryptoState) :=
  let '(g, st) := w in
  match c with
  | CallInitializeVault pw =>
      let '(r, g', st') := initializeVault pw g st in
      (RetInitializeVault r, (g', st'))
  | CallUnlock pw salt authHash =>
      let '(r, st') := unlock pw salt authHash st in (RetUnlock r, (g, st'))
  | CallLock => (RetLock, (g, lock st))
  | CallEncrypt data =>
      let '(r, g') := encrypt data g st in (RetEncrypt r, (g', st))
  | CallDecrypt e i => (RetDecrypt (decrypt e i st), (g, st))
  | CallEncryptBatch l =>
      let '(r, g') := encryptBatch l g st in (RetEncryptBatch r, (g', st))
  | CallDecryptBatch l => (RetDecryptBatch (decryptBatch l st), (g, st))
  end.

(** A successful [unlock] or [initializeVault], as the caller sees it. *)
Definition installs_key (r : Return) : bool :=
  match r with
  | RetInitializeVault (Ok _) => true
  | RetUnlock (Ok true) => true
  | _ => false
  end.

(** [w'] is reached from [w] by calls none of which is a successful
    [unlock] or [initializeVault]. *)
Inductive reaches_without_key : Rng * CryptoState -> Rng * CryptoState -> Prop :=
| reaches_refl w : reaches_without_key w w
| reaches_step w c w' :
    reaches_without_key w w' ->
    installs_key (fst (step c w')) = false ->
    reaches_without_key w (snd (step c w')).

(** Every state the hook can be in: from [initial], any calls. *)
Inductive reachable : Rng * CryptoState -> Prop :=
| reachable_initial g : reachable (g, initial)
| reachable_step c w : reachable w -> reachable (snd (step c w)).

(** No key, no crypto operation: the four operations throw the
    vault-locked error. *)
Definition locked_out (w : Rng * CryptoState) : Prop :=
  (forall data, fst (encrypt data (fst w) (snd w)) = Throw vault_locked) /\
  (forall e i, decrypt e i (snd w) = Throw vault_locked) /\
  (forall l, fst (encryptBatch l (fst w) (snd w)) = Throw vault_locked) /\
  (forall l, decryptBatch l (snd w) = Throw vault_locked).

End WithProvider.

End UseCrypto.

(** ** contexts/VaultContext.tsx: [refreshSecrets] *)

Module VaultContext.

Import Encryption Json UseCrypto.

(** [SecretCategory] *)
Inductive SecretCategory : Type :=
| login | credit_card | api_key | note | other.




Section WithProvider.
Context {provider : WebCrypto}.




End WithProvider.

End VaultContext.

(** ** Numbers *)

Module Num.

(** A counter or a length as a double (exact below 2^53). *)
Definition number (n : nat) : float :=
  PrimFloat.of_uint63 (Uint63.of_Z (Z.of_nat n)).

(** How many of the integers 1..[bound] are at most [x]: [Math.floor(x)] for
    every double [x] with 0 <= x < bound + 1. *)
Definition floor_upto (bound : nat) (x : float) : nat :=
  List.length (filter (fun k => PrimFloat.leb (number k) x) (seq 1 bound)).

(** [Math.max(0, Math.min(100, Math.round(x)))] for a double [x] that is a
    number: [Math.round] takes the nearest integer and, of two, the greater,
    so the result is the count of the integers k in 1..100 with
    k - 0.5 <= x. *)
Definition round_clamp_0_100 (x : float) : nat :=
  List.length
    (filter (fun k => PrimFloat.leb (PrimFloat.sub (number k) 0.5%float) x)
            (seq 1 100)).

End Num.

(** ** lib/password-generator.ts: [calculatePasswordStrength] *)

Module PasswordGenerator.

Import Num.

Inductive PasswordStrength : Type :=
| weak | medium | strong | very_strong.

Definition symbols : jsstring := lit "!@#$%^&*()_+-=[]{}|;:,.<>?".

(** [/[a-z]/.test], [/[A-Z]/.test], [/[0-9]/.test] and the test of the
    symbol class *)
Definition has_lowercase (p : jsstring) : bool :=
  existsb (fun c => (97 <=? c) && (c <=? 122)) p.
Definition has_uppercase (p : jsstring) : bool :=
  existsb (fun c => (65 <=? c) && (c <=? 90)) p.
Definition has_digit (p : jsstring) : bool :=
  existsb (fun c => (48 <=? c) && (c <=? 57)) p.
Definition has_symbol (p : jsstring) : bool :=
  existsb (fun c => existsb (N.eqb c) symbols) p.

(** [new Set(password.split('')).size] *)
Definition uniqueChars (p : jsstring) : nat :=
  List.length (nodup N.eq_dec p).

Definition points (b : bool) : nat := if b then 10%nat else 0%nat.

(** The three parts of the score. *)
Definition length_score (p : jsstring) : nat :=
  (points (8 <=? List.length p) + points (12 <=? List.length p)
   + points (16 <=? List.length p) + points (20 <=? List.length p))%nat.

Definition variety_score (p : jsstring) : nat :=
  (points (has_lowercase p) + points (has_uppercase p)
   + points (has_digit p) + points (has_symbol p))%nat.

Definition complexity_bonus (p : jsstring) : nat :=
  let uniqueRatio :=
    PrimFloat.div (number (uniqueChars p)) (number (List.length p)) in
  floor_upto 20 (PrimFloat.mul uniqueRatio 20%float).

Definition password_score (p : jsstring) : nat :=
  (length_score p + variety_score p + complexity_bonus p)%nat.

Definition calculatePasswordStrength (password : jsstring) : PasswordStrength :=
  match password with
  | [] => weak                                   (* if (!password) *)
  | _ =>
      let score := password_score password in
      if (score <? 30)%nat then weak
      else if (score <? 50)%nat then medium
      else if (score <? 70)%nat then strong
      else very_strong
  end.

End PasswordGenerator.

(** ** lib/security-analyzer.ts *)

Module SecurityAnalyzer.

Import Num PasswordGenerator.

(** [new Date(s).getTime()]: [None] is NaN (an invalid date). *)
Class DateParser : Type := {
  Date_getTime : jsstring -> option Z
}.

(** [SecretData] (lib/secrets.ts) *)
Record SecretData : Type := {
  id : jsstring;
  name : jsstring;
  username : option jsstring;
  password : jsstring;
  url : option jsstring;
  category : VaultContext.SecretCategory;
  notes : option jsstring;
  isFavorite : bool;
  createdAt : jsstring;
  updatedAt : jsstring
}.

Inductive IssueType : Type := issue_weak | issue_reused | issue_old.

Inductive Severity : Type := critical | high | severity_medium | low.

Record SecurityIssue : Type := {
  issue_id : jsstring;
  issue_type : IssueType;
  severity : Severity;
  title : jsstring;
  description : jsstring;
  secretIds : list jsstring
}.

Record SecurityScore : Type := {
  overall : nat;
  weakPasswords : nat;
  reusedPasswords : nat;
  oldPasswords : nat;
  strongPasswords : nat
}.

Record SecurityReport : Type := {
  score : SecurityScore;
  issues : list SecurityIssue;
  recommendations : list jsstring
}.

(** [calculateOverallScore(data)]; the double nearest to 0.8 is
    0x1.999999999999ap-1. *)
Definition calculateOverallScore (total weak reused old strong : nat) : nat :=
  let score := 100%float in
  let score :=
    PrimFloat.sub score
      (PrimFloat.mul (PrimFloat.div (number weak) (number total)) 40%float) in
  let score :=
    PrimFloat.sub score
      (PrimFloat.mul (PrimFloat.div (number reused) (number total)) 30%float) in
  let score :=
    PrimFloat.sub score
      (PrimFloat.mul (PrimFloat.div (number old) (number total)) 15%float) in
  let score :=
    if PrimFloat.leb (PrimFloat.mul (number total) 0x1.999999999999ap-1%float) (number strong)
    then PrimFloat.add score 5%float
    else score in
  round_clamp_0_100 score.

Definition plural (n : nat) : jsstring :=
  if (1 <? n)%nat then lit "s" else [].

Definition count_text (n : nat) : jsstring := Number_toString (N.of_nat n).

(** [generateRecommendations(score, issues, totalSecrets)] *)
Definition generateRecommendations (score : SecurityScore)
  (issues : list SecurityIssue) (totalSecrets : nat) : list jsstring :=
  if (totalSecrets =? 0)%nat then
    [lit "Add your first secret to start tracking security."]
  else
    (if (0 <? weakPasswords score)%nat then
       [lit "Update " ++ count_text (weakPasswords score)
        ++ lit " weak password" ++ plural (weakPasswords score)
        ++ lit " to improve security. Use the password generator to create strong ones."]
     else [])
    ++ (if (0 <? reusedPasswords score)%nat then
          [lit "Replace " ++ count_text (reusedPasswords score)
           ++ lit " reused password" ++ plural (reusedPasswords score)
           ++ lit " with unique ones. Password reuse is a major security risk."]
        else [])
    ++ (if (0 <? oldPasswords score)%nat then
          [lit "Consider updating " ++ count_text (oldPasswords score)
           ++ lit " password" ++ plural (oldPasswords score)
           ++ lit " that haven't been changed in over 6 months."]
        else [])
    ++ (match issues with
        | [] =>
            [lit "Excellent! All your passwords are strong and unique. Keep up the good security practices."]
        | _ => []
        end)
    ++ (if (overall score <? 80)%nat then
          [lit "Enable two-factor authentication (2FA) on critical accounts for an extra layer of security.";
           lit "Review your security regularly and update passwords every 3-6 months."]
        else []).

(** [passwordMap]: a [Map] from a password to the ids of its secrets, in
    insertion order. *)
Definition PasswordMap := list (jsstring * list jsstring).

(** [if (!passwordMap.has(p)) passwordMap.set(p, []);
     passwordMap.get(p).push(id)] *)
Fixpoint map_push (m : PasswordMap) (p id : jsstring) : PasswordMap :=
  match m with
  | [] => [(p, [id])]
  | (k, ids) :: rest =>
      if str_eqb k p then (k, ids ++ [id]) :: rest
      else (k, ids) :: map_push rest p id
  end.

Definition is_weak (s : PasswordStrength) : bool :=
  match s with
  | weak | medium => true
  | strong | very_strong => false
  end.

Definition strength_text (s : PasswordStrength) : jsstring :=
  match s with
  | weak => lit "weak"
  | medium => lit "medium"
  | strong => lit "strong"
  | very_strong => lit "very-strong"
  end.

Definition severityOrder (s : Severity) : nat :=
  match s with
  | critical => 0 | high => 1 | severity_medium => 2 | low => 3
  end%nat.

(** [issues.sort((a, b) => severityOrder[a.severity] -
    severityOrder[b.severity])]: the sort is stable, so an issue goes before
    the issues after it that are as severe or less. *)
Fixpoint insert_issue (i : SecurityIssue) (l : list SecurityIssue)
  : list SecurityIssue :=
  match l with
  | [] => [i]
  | j :: rest =>
      if (severityOrder (severity j) <? severityOrder (severity i))%nat
      then j :: insert_issue i rest
      else i :: l
  end.

Definition sort_issues (l : list SecurityIssue) : list SecurityIssue :=
  fold_right insert_issue [] l.

Definition quote_mark : jsstring := [34].

Section WithDates.
Context {dates : DateParser}.

Definition day_ms : Z := 24 * 60 * 60 * 1000.

(** [updatedAt < sixMonthsAgo]; a comparison with NaN is false. *)
Definition is_old (now : Z) (secret : SecretData) : bool :=
  match Date_getTime (updatedAt secret) with
  | Some t => (t <? now - 180 * day_ms)%Z
  | None => false
  end.

(** The counters and the map of the first pass. *)
Record Pass : Type := {
  passwordMap : PasswordMap;
  weakCount : nat;
  oldCount : nat;
  strongCount : nat
}.

Definition first_pass_step (now : Z) (acc : Pass) (secret : SecretData)
  : Pass :=
  let strength := calculatePasswordStrength (password secret) in
  {| passwordMap := map_push (passwordMap acc) (password secret) (id secret);
     weakCount :=
       if is_weak strength then S (weakCount acc) else weakCount acc;
     strongCount :=
       if is_weak strength then strongCount acc else S (strongCount acc);
     oldCount :=
       if is_old now secret then S (oldCount acc) else oldCount acc |}.

Definition first_pass (now : Z) (secrets : list SecretData) : Pass :=
  fold_left (first_pass_step now) secrets
    {| passwordMap := []; weakCount := 0; oldCount := 0; strongCount := 0 |}.

Definition weak_issue (secret : SecretData) : list SecurityIssue :=
  let strength := calculatePasswordStrength (password secret) in
  if is_weak strength then
    [{| issue_id := lit "weak-" ++ id secret;
        issue_type := issue_weak;
        severity := match strength with weak => critical | _ => high end;
        title := lit "Weak password for " ++ quote_mark ++ name secret
                 ++ quote_mark;
        description :=
          lit "This password is " ++ strength_text strength
          ++ lit ". Consider using a stronger password with more characters and variety.";
        secretIds := [id secret] |}]
  else [].

(** [secretIds.map(id => secrets.find(s => s.id === id)?.name)
      .filter(Boolean)]: an empty name is dropped like a missing one. *)
Definition name_of (secrets : list SecretData) (i : jsstring)
  : list jsstring :=
  match find (fun s => str_eqb (id s) i) secrets with
  | Some s => match name s with [] => [] | n => [n] end
  | None => []
  end.

Fixpoint join (sep : jsstring) (l : list jsstring) : jsstring :=
  match l with
  | [] => []
  | [x] => x
  | x :: rest => x ++ sep ++ join sep rest
  end.

Definition reused_issue (secrets : list SecretData)
  (entry : jsstring * list jsstring) : list SecurityIssue :=
  let '(password, ids) := entry in
  if (1 <? List.length ids)%nat then
    let names :=
      join (quote_mark ++ lit ", " ++ quote_mark)
           (flat_map (name_of secrets) ids) in
    [{| issue_id := lit "reused-" ++ firstn 8 password;
        issue_type := issue_reused;
        severity := high;
        title := lit "Password reused across " ++ count_text (List.length ids)
                 ++ lit " accounts";
        description :=
          lit "The same password is used for: " ++ quote_mark ++ names
          ++ quote_mark ++ lit ". Each account should have a unique password.";
        secretIds := ids |}]
  else [].

(** [reusedCount += secretIds.length] for every group of two or more *)
Definition reused_count (m : PasswordMap) : nat :=
  fold_left
    (fun n entry =>
       if (1 <? List.length (snd entry))%nat
       then (n + List.length (snd entry))%nat else n)
    m 0%nat.

Definition old_issue (now : Z) (secret : SecretData) : list SecurityIssue :=
  match Date_getTime (updatedAt secret) with
  | Some t =>
      if (t <? now - 180 * day_ms)%Z then
        let monthsOld := ((now - t) / (30 * day_ms))%Z in
        let months := Number_toString (Z.to_N monthsOld) in
        [{| issue_id := lit "old-" ++ id secret;
            issue_type := issue_old;
            severity := if (12 <? monthsOld)%Z then severity_medium else low;
            title := lit "Password for " ++ quote_mark ++ name secret
                     ++ quote_mark ++ lit " is " ++ months ++ lit " months old";
            description :=
              lit "Consider updating this password. It hasn't been changed in "
              ++ months ++ lit " months.";
            secretIds := [id secret] |}]
      else []
  | None => []
  end.

(** [analyzeSecrets(secrets)], [now] being [Date.now()]. *)
Definition analyzeSecrets (now : Z) (secrets : list SecretData)
  : SecurityReport :=
  let pass := first_pass now secrets in
  let issues :=
    flat_map weak_issue secrets
    ++ flat_map (reused_issue secrets) (passwordMap pass)
    ++ flat_map (old_issue now) secrets in
  let reusedCount := reused_count (passwordMap pass) in
  let totalSecrets :=
    match List.length secrets with O => 1%nat | n => n end in  (* length || 1 *)
  let score :=
    {| overall :=
         calculateOverallScore totalSecrets (weakCount pass) reusedCount
           (oldCount pass) (strongCount pass);
       weakPasswords := weakCount pass;
       reusedPasswords := reusedCount;
       oldPasswords := oldCount pass;
       strongPasswords := strongCount pass |} in
  let recommendations := generateRecommendations score issues totalSecrets in
  {| score := score;
     issues := sort_issues issues;
     recommendations := recommendations |}.

End WithDates.

(** *** The report in the specification's words *)

(** How many elements of a list pass a test. *)
Definition count {A} (p : A -> bool) (l : list A) : nat :=
  List.length (filter p l).

(** The passwords a record is classified by. *)
Definition counted_weak (s : SecretData) : bool :=
  match calculatePasswordStrength (password s) with
  | weak | medium => true
  | strong | very_strong => false
  end.

Definition counted_strong (s : SecretData) : bool :=
  match calculatePasswordStrength (password s) with
  | strong | very_strong => true
  | weak | medium => false
  end.

(** The records that share the password [p], and the records whose password
    another record has too. *)
Definition has_password (p : jsstring) (s : SecretData) : bool :=
  str_eqb (password s) p.

Definition shares_password (l : list SecretData) (s : SecretData) : bool :=
  (1 <? count (has_password (password s)) l)%nat.

(** What a group of [n] ids adds to [reusedCount]. *)
Definition group_weight (n : nat) : nat := if (1 <? n)%nat then n else 0%nat.

Fixpoint weight_sum (m : PasswordMap) : nat :=
  match m with
  | [] => 0
  | e :: rest => group_weight (List.length (snd e)) + weight_sum rest
  end%nat.

(** [passwordMap.get(p).length], 0 without entry. *)
Fixpoint group_size (m : PasswordMap) (p : jsstring) : nat :=
  match m with
  | [] => 0
  | (k, ids) :: rest => if str_eqb k p then List.length ids else group_size rest p
  end.

(** The map the first pass builds. *)
Definition build (l : list SecretData) : PasswordMap :=
  fold_left (fun m s => map_push m (password s) (id s)) l [].



(** The threshold of the bonus: [strong >= total * 0.8] in doubles agrees
    with 5 * strong >= 4 * total for all totals and counts up to 1000. *)
Definition of_Z (z : Z) : float := PrimFloat.of_uint63 (Uint63.of_Z z).



End SecurityAnalyzer.

(** ** Concrete data for runs of the code *)

Module Samples.

Import Encryption.

Definition sample_secret : PlainSecret :=
  {| name := lit "Mail";
     username := Some (lit "ann");
     password := lit "Tr0ub4dor&3XyZ!";
     url := None;
     (* h, e-acute, a surrogate pair, a quote, a line feed, a lone surrogate *)
     notes := Some [104; 233; 55357; 56832; 34; 10; 55357] |}.

Definition sample_key : @CryptoKey model_provider :=
  ["k"%byte; "e"%byte; "y"%byte].

Definition sample_rng : Rng :=
  {| entropy := fun i => byte_of_N (N.of_nat i); used := 0 |}.




(** An unlocked session holding [sample_key]. *)
Definition sample_session : @UseCrypto.CryptoState model_provider :=
  UseCrypto.set_key sample_key.


(** A date parser to run the analyzer on: a text of decimal digits is its
    time value in milliseconds, any other text is an invalid date. *)
Fixpoint digits_value (acc : Z) (s : jsstring) : option Z :=
  match s with
  | [] => Some acc
  | c :: rest =>
      if (48 <=? c) && (c <=? 57)
      then digits_value (acc * 10 + Z.of_N (c - 48)) rest
      else None
  end.

Definition model_dates : SecurityAnalyzer.DateParser :=
  {| SecurityAnalyzer.Date_getTime :=
       fun s => match s with [] => None | _ => digits_value 0 s end |}.

Definition sample_record (id password updatedAt : string)
  : SecurityAnalyzer.SecretData :=
  {| SecurityAnalyzer.id := lit id;
     SecurityAnalyzer.name := lit id;
     SecurityAnalyzer.username := None;
     SecurityAnalyzer.password := lit password;
     SecurityAnalyzer.url := None;
     SecurityAnalyzer.category := VaultContext.login;
     SecurityAnalyzer.notes := None;
     SecurityAnalyzer.isFavorite := false;
     SecurityAnalyzer.createdAt := lit updatedAt;
     SecurityAnalyzer.updatedAt := lit updatedAt |}.

(** Date.now() of the runs: 2023-11-14T22:13:20Z. *)
Definition sample_now : Z := 1700000000000.

(** Two records that share a password, one of them 200 days old, and a
    record with a password of medium strength. *)
Definition sample_secrets : list SecurityAnalyzer.SecretData :=
  [ sample_record "A" "Sunshine1!" "1699136000000";
    sample_record "B" "Sunshine1!" "1682720000000";
    sample_record "C" "abcdefgh" "1699136000000" ].

End Samples.

(** ** The report of the analyzer, read back *)

Module Report.

Import SecurityAnalyzer.

(** [a] is at least as severe as [b]. *)
Definition no_less_severe (a b : SecurityIssue) : Prop :=
  (severityOrder (severity a) <= severityOrder (severity b))%nat.

Definition of_type (t : IssueType) (i : SecurityIssue) : bool :=
  match t, issue_type i with
  | issue_weak, issue_weak | issue_reused, issue_reused
  | issue_old, issue_old => true
  | _, _ => false
  end.

(** The secrets that the issues of type [t] name, counted with repetition. *)
Definition named_secrets (t : IssueType) (l : list SecurityIssue) : nat :=
  list_sum (map (fun i => List.length (secretIds i)) (filter (of_type t) l)).

Definition first_secret_advice : jsstring :=
  lit "Add your first secret to start tracking security.".

Definition all_good_advice : jsstring :=
  lit "Excellent! All your passwords are strong and unique. Keep up the good security practices.".

End Report.

(** ** lib/storage.ts *)

Module Storage.

(** [localStorage]: the items, key and value. *)
Definition LocalStorage := list (jsstring * jsstring).

(** [localStorage.getItem(key)]; [None] is [null]. *)
Fixpoint getItem (store : LocalStorage) (key : jsstring) : option jsstring :=
  match store with
  | [] => None
  | (k, v) :: rest => if str_eqb k key then Some v else getItem rest key
  end.

(** [localStorage.removeItem(key)] *)
Definition removeItem (store : LocalStorage) (key : jsstring) : LocalStorage :=
  filter (fun item => negb (str_eqb (fst item) key)) store.

(** [localStorage.setItem(key, value)] *)
Definition setItem (store : LocalStorage) (key value : jsstring)
  : LocalStorage :=
  (key, value) :: removeItem store key.

Definition VAULT_EXISTS : jsstring := lit "notosha_vault_exists".
Definition VAULT_SALT : jsstring := lit "notosha_vault_salt".
Definition VAULT_AUTH_HASH : jsstring := lit "notosha_vault_auth_hash".
Definition USER_EMAIL : jsstring := lit "notosha_user_email".
Definition LAST_UNLOCK : jsstring := lit "notosha_last_unlock".

(** [Object.values(STORAGE_KEYS)] *)
Definition STORAGE_KEYS : list jsstring :=
  [VAULT_EXISTS; VAULT_SALT; VAULT_AUTH_HASH; USER_EMAIL; LAST_UNLOCK].

Record VaultMetadata : Type := {
  salt : jsstring;
  authHash : jsstring;
  email : jsstring
}.

Definition vaultExists (store : LocalStorage) : bool :=
  match getItem store VAULT_EXISTS with
  | Some v => str_eqb v (lit "true")
  | None => false
  end.

(** [now] is [Date.now()]. *)
Definition saveVaultMetadata (metadata : VaultMetadata) (now : N)
  (store : LocalStorage) : LocalStorage :=
  let store := setItem store VAULT_EXISTS (lit "true") in
  let store := setItem store VAULT_SALT (salt metadata) in
  let store := setItem store VAULT_AUTH_HASH (authHash metadata) in
  let store := setItem store USER_EMAIL (email metadata) in
  setItem store LAST_UNLOCK (Number_toString now).

(** [!s] for [s] a string or [null] *)
Definition falsy (s : option jsstring) : bool :=
  match s with
  | None | Some [] => true
  | Some (_ :: _) => false
  end.

Definition getVaultMetadata (store : LocalStorage) : option VaultMetadata :=
  if negb (vaultExists store) then None
  else
    let salt := getItem store VAULT_SALT in
    let authHash := getItem store VAULT_AUTH_HASH in
    let email := getItem store USER_EMAIL in
    if falsy salt || falsy authHash || falsy email then None
    else
      match salt, authHash, email with
      | Some s, Some a, Some e => Some {| salt := s; authHash := a; email := e |}
      | _, _, _ => None
      end.

Definition clearVaultData (store : LocalStorage) : LocalStorage :=
  fold_left removeItem STORAGE_KEYS store.

Definition clearSensitiveData (store : LocalStorage) : LocalStorage :=
  let store := removeItem store VAULT_EXISTS in
  let store := removeItem store VAULT_SALT in
  let store := removeItem store VAULT_AUTH_HASH in
  removeItem store LAST_UNLOCK.

Definition updateLastUnlock (now : N) (store : LocalStorage) : LocalStorage :=
  setItem store LAST_UNLOCK (Number_toString now).

Definition getUserEmail (store : LocalStorage) : option jsstring :=
  getItem store USER_EMAIL.

End Storage.

(** ** contexts/VaultContext.tsx: [VaultProvider] *)

Module VaultProvider.

Import Keys UseCrypto Storage.

(** [Vault] (a row of the table [vaults]) *)
Record Vault : Type := {
  vault_id : jsstring;
  vault_email : jsstring;
  vault_salt : jsstring;
  vault_auth_hash : jsstring;
  vault_created_at : jsstring;
  vault_last_unlock : jsstring
}.

(** What [createVault] resolves to. *)
Record CreateResult : Type := {
  created : bool;                          (* success *)
  created_vaultId : option jsstring;
  created_error : option jsstring
}.

(** The vault service (lib/database/vault.service) during one call of the
    provider: what it answers.  Its functions catch every error, so each
    resolves to a value. *)
Record VaultService : Type := {
  vaultExistsInDB : jsstring -> bool;
  createVault : VaultMetadata -> CreateResult;
  getVaultByEmail : jsstring -> option Vault;
  updateLastUnlockDB : jsstring -> bool
}.

(** [{ success, error? }] *)
Record AuthResult : Type := {
  success : bool;
  error : option jsstring
}.

Definition succeeded : AuthResult := {| success := true; error := None |}.

Definition failed (message : string) : AuthResult :=
  {| success := false; error := Some (lit message) |}.

Section WithProvider.
Context {provider : WebCrypto}.

(** The state of the provider: its five cells, the hook [useCrypto], and
    around them [localStorage] and the CSPRNG. *)
Record World : Type := {
  isAuthenticated : bool;
  isLoading : bool;
  userEmail : option jsstring;
  vaultId : option jsstring;
  hasVault : bool;
  crypto : CryptoState;
  storage : LocalStorage;
  rng : Rng
}.

(** The provider as mounted, before its effect has run. *)
Definition mounted (store : LocalStorage) (g : Rng) : World :=
  {| isAuthenticated := false; isLoading := true; userEmail := None;
     vaultId := None; hasVault := false;
     crypto := initial; storage := store; rng := g |}.

(** [finally { setIsLoading(false) }] *)
Definition finally_loaded (w : World) : World :=
  {| isAuthenticated := isAuthenticated w; isLoading := false;
     userEmail := userEmail w; vaultId := vaultId w; hasVault := hasVault w;
     crypto := crypto w; storage := storage w; rng := rng w |}.

(** [s || null] *)
Definition or_null (s : option jsstring) : option jsstring :=
  match s with
  | Some (_ :: _) => s
  | _ => None
  end.

(** The effect [checkVault]. *)
Definition checkVault (service : VaultService) (w : World) : World :=
  let localEmail := getUserEmail (storage w) in
  match localEmail with
  | Some ((_ :: _) as e) =>
      {| isAuthenticated := isAuthenticated w; isLoading := false;
         userEmail := Some e; vaultId := vaultId w;
         hasVault := vaultExistsInDB service e;
         crypto := crypto w; storage := storage w; rng := rng w |}
  | _ =>
      let exists_ := vaultExists (storage w) in
      {| isAuthenticated := isAuthenticated w; isLoading := false;
         userEmail := if exists_ then getUserEmail (storage w) else userEmail w;
         vaultId := vaultId w; hasVault := exists_;
         crypto := crypto w; storage := storage w; rng := rng w |}
  end.

(** [register(email, masterPassword)]; [now] is [Date.now()]. *)
Definition register (service : VaultService) (now : N)
  (email masterPassword : jsstring) (w : World) : AuthResult * World :=
  if vaultExistsInDB service email then
    (failed "A vault with this email already exists", finally_loaded w)
  else if falsy (Some email) || falsy (Some masterPassword) then
    (failed "Email and password are required", finally_loaded w)
  else if (List.length masterPassword <? 8)%nat then
    (failed "Password must be at least 8 characters", finally_loaded w)
  else
    match initializeVault masterPassword (rng w) (crypto w) with
    | (Throw _, g, c) =>
        (failed "Failed to create vault",
         {| isAuthenticated := isAuthenticated w; isLoading := false;
            userEmail := userEmail w; vaultId := vaultId w;
            hasVault := hasVault w; crypto := c; storage := storage w;
            rng := g |})
    | (Ok (authHash, salt), g, c) =>
        let metadata :=
          {| salt := salt; authHash := authHash; email := email |} in
        let result := createVault service metadata in
        if negb (created result) then
          ({| success := false; error := created_error result |},
           {| isAuthenticated := isAuthenticated w; isLoading := false;
              userEmail := userEmail w; vaultId := vaultId w;
              hasVault := hasVault w; crypto := c; storage := storage w;
              rng := g |})
        else
          (succeeded,
           {| isAuthenticated := true; isLoading := false;
              userEmail := Some email;
              vaultId := or_null (created_vaultId result);
              hasVault := true; crypto := c;
              storage := saveVaultMetadata metadata now (storage w);
              rng := g |})
    end.

(** [login(email, masterPassword)]; [now] and [later] are the two readings
    of [Date.now()], in [saveVaultMetadata] and in [updateLastUnlock]. *)
Definition login (service : VaultService) (now later : N)
  (email masterPassword : jsstring) (w : World) : AuthResult * World :=
  if falsy (Some email) || falsy (Some masterPassword) then
    (failed "Email and password are required", finally_loaded w)
  else
    match getVaultByEmail service email with
    | None =>
        match getVaultMetadata (storage w) with
        | None => (failed "No vault found", finally_loaded w)
        | Some metadata =>
            match unlock masterPassword (salt metadata) (authHash metadata)
                    (crypto w) with
            | (Ok true, c) =>
                (succeeded,
                 {| isAuthenticated := true; isLoading := false;
                    userEmail := Some (Storage.email metadata);
                    vaultId := None; hasVault := hasVault w; crypto := c;
                    storage := updateLastUnlock now (storage w);
                    rng := rng w |})
            | (Ok false, c) =>
                (failed "Invalid master password",
                 {| isAuthenticated := isAuthenticated w; isLoading := false;
                    userEmail := userEmail w; vaultId := vaultId w;
                    hasVault := hasVault w; crypto := c;
                    storage := storage w; rng := rng w |})
            | (Throw _, c) =>
                (failed "Failed to unlock vault",
                 {| isAuthenticated := isAuthenticated w; isLoading := false;
                    userEmail := userEmail w; vaultId := vaultId w;
                    hasVault := hasVault w; crypto := c;
                    storage := storage w; rng := rng w |})
            end
        end
    | Some vaultData =>
        match unlock masterPassword (vault_salt vaultData)
                (vault_auth_hash vaultData) (crypto w) with
        | (Ok true, c) =>
            let metadata :=
              {| salt := vault_salt vaultData;
                 authHash := vault_auth_hash vaultData;
                 email := vault_email vaultData |} in
            (succeeded,
             {| isAuthenticated := true; isLoading := false;
                userEmail := Some (vault_email vaultData);
                vaultId := Some (vault_id vaultData);
                hasVault := hasVault w; crypto := c;
                storage :=
                  updateLastUnlock later
                    (saveVaultMetadata metadata now (storage w));
                rng := rng w |})
        | (Ok false, c) =>
            (failed "Invalid master password",
             {| isAuthenticated := isAuthenticated w; isLoading := false;
                userEmail := userEmail w; vaultId := vaultId w;
                hasVault := hasVault w; crypto := c;
                storage := storage w; rng := rng w |})
        | (Throw _, c) =>
            (failed "Failed to unlock vault",
             {| isAuthenticated := isAuthenticated w; isLoading := false;
                userEmail := userEmail w; vaultId := vaultId w;
                hasVault := hasVault w; crypto := c;
                storage := storage w; rng := rng w |})
        end
    end.

Definition logout (w : World) : World :=
  {| isAuthenticated := false; isLoading := isLoading w;
     userEmail := userEmail w; vaultId := None; hasVault := hasVault w;
     crypto := UseCrypto.lock (crypto w);
     storage := clearSensitiveData (storage w); rng := rng w |}.

Definition lock (w : World) : World :=
  {| isAuthenticated := false; isLoading := isLoading w;
     userEmail := userEmail w; vaultId := vaultId w; hasVault := hasVault w;
     crypto := UseCrypto.lock (crypto w);
     storage := storage w; rng := rng w |}.

(** The [onLock] that the provider gives to [useAutoLock]. *)
Definition onLock (w : World) : World := lock w.

(** What happens to a provider: its effect, the calls of its consumers, and
    the auto-lock. *)
Inductive Event : Type :=
| CheckVault (service : VaultService)
| Register (service : VaultService) (now : N) (email masterPassword : jsstring)
| Login (service : VaultService) (now later : N)
    (email masterPassword : jsstring)
| Logout
| Lock
| AutoLock.

Definition handle (e : Event) (w : World) : World :=
  match e with
  | CheckVault service => checkVault service w
  | Register service now email pw => snd (register service now email pw w)
  | Login service now later email pw =>
      snd (login service now later email pw w)
  | Logout => logout w
  | Lock => lock w
  | AutoLock => onLock w
  end.

(** The worlds a provider can be in. *)
Inductive reachable : World -> Prop :=
| reachable_mounted store g : reachable (mounted store g)
| reachable_handle e w : reachable w -> reachable (handle e w).

End WithProvider.

End VaultProvider.

(** ** Concrete services and a world to run the provider in *)

Module ProviderSamples.

Import Storage VaultProvider.

(** A service without a vault for any email, which creates the vault it is
    asked for. *)
Definition accepting_service : VaultService :=
  {| vaultExistsInDB := fun _ => false;
     createVault := fun _ =>
       {| created := true; created_vaultId := Some (lit "v-1");
          created_error := None |};
     getVaultByEmail := fun _ => None;
     updateLastUnlockDB := fun _ => true |}.

(** A service that refuses to create a vault. *)
Definition refusing_service : VaultService :=
  {| vaultExistsInDB := fun _ => false;
     createVault := fun _ =>
       {| created := false; created_vaultId := None;
          created_error := Some (lit "Failed to create vault") |};
     getVaultByEmail := fun _ => None;
     updateLastUnlockDB := fun _ => true |}.

Definition fresh_world : @World model_provider :=
  @mounted model_provider [] Samples.sample_rng.

Definition sample_email : jsstring := lit "ann@example.org".

Definition sample_password : jsstring := lit "correct horse".

End ProviderSamples.

(** ** The groups of the password map *)

Module Groups.

Import SecurityAnalyzer.

(** [passwordMap.get(p)], the empty list without entry. *)
Fixpoint group_ids (m : PasswordMap) (p : jsstring) : list jsstring :=
  match m with
  | [] => []
  | (k, ids) :: rest => if str_eqb k p then ids else group_ids rest p
  end.

End Groups.

(** ** lib/storage.ts: the time of the last unlock *)

Module LastUnlock.

Import Storage.

(** WhiteSpace and LineTerminator of ECMAScript, which [parseInt] skips. *)
Definition str_whitespace (c : N) : bool :=
  (c =? 9) || (c =? 10) || (c =? 11) || (c =? 12) || (c =? 13) || (c =? 32)
  || (c =? 160) || (c =? 5760) || ((8192 <=? c) && (c <=? 8202))
  || (c =? 8232) || (c =? 8233) || (c =? 8239) || (c =? 8287)
  || (c =? 12288) || (c =? 65279).

Fixpoint trim_start (s : jsstring) : jsstring :=
  match s with
  | c :: rest => if str_whitespace c then trim_start rest else s
  | [] => []
  end.

(** The decimal digits a text starts with. *)
Fixpoint leading_digits (s : jsstring) : list N :=
  match s with
  | c :: rest =>
      if (48 <=? c) && (c <=? 57) then (c - 48) :: leading_digits rest else []
  | [] => []
  end.

Definition digits_value (ds : list N) : N :=
  fold_left (fun acc d => acc * 10 + d) ds 0.

(** [parseInt(text, 10)]: [None] is NaN; otherwise the integer that the
    result stands for.  The result is the double nearest to it, which is
    the integer itself below 2^53; the zero of a text with a minus sign is
    the negative zero, which is 0 here. *)
Definition parseInt10 (text : jsstring) : option Z :=
  let s := trim_start text in
  let '(negative, s) :=
    match s with
    | 45 :: rest => (true, rest)
    | 43 :: rest => (false, rest)
    | _ => (false, s)
    end in
  match leading_digits s with
  | [] => None
  | ds =>
      let n := Z.of_N (digits_value ds) in
      Some (if negative then (- n)%Z else n)
  end.

(** The result of [getLastUnlock]: [null], or what [parseInt] gave. *)
Inductive Timestamp : Type :=
| no_timestamp                           (* null *)
| timestamp (value : option Z).

Definition getLastUnlock (store : LocalStorage) : Timestamp :=
  match getItem store LAST_UNLOCK with
  | Some ((_ :: _) as text) => timestamp (parseInt10 text)
  | _ => no_timestamp
  end.

(** The value of the digits of a decimal numeral, read after [acc]. *)
Fixpoint uint_value (d : Decimal.uint) (acc : N) : N :=
  match d with
  | Decimal.Nil => acc
  | Decimal.D0 d => uint_value d (acc * 10)
  | Decimal.D1 d => uint_value d (acc * 10 + 1)
  | Decimal.D2 d => uint_value d (acc * 10 + 2)
  | Decimal.D3 d => uint_value d (acc * 10 + 3)
  | Decimal.D4 d => uint_value d (acc * 10 + 4)
  | Decimal.D5 d => uint_value d (acc * 10 + 5)
  | Decimal.D6 d => uint_value d (acc * 10 + 6)
  | Decimal.D7 d => uint_value d (acc * 10 + 7)
  | Decimal.D8 d => uint_value d (acc * 10 + 8)
  | Decimal.D9 d => uint_value d (acc * 10 + 9)
  end.

End LastUnlock.

(** ** The hook [useAutoLock] (src/unnamed/part_004) *)

Module UseAutoLock.

#[local] Open Scope Z_scope.


(** The options of a render; [onLock] is counted, not run. *)
Record Options : Type := {
  timeout : Z;
  enabled : bool
}.


(** The hook between two events: its two refs, the timers it has set that
    are still pending (id and the time they are due), the next timer id,
    the options of the effect whose listeners are registered ([None]
    without listeners), and how often [onLock] has been called. *)
Record Hook : Type := {
  timeoutRef : option nat;
  lastActivityRef : Z;
  timers : list (nat * Z);
  next_timer : nat;
  listeners : option Options;
  locks : nat
}.

(** The first render at time [now]: [useRef(null)], [useRef(Date.now())]. *)
Definition mount (now : Z) : Hook :=
  {| timeoutRef := None; lastActivityRef := now; timers := [];
     next_timer := 1; listeners := None; locks := 0 |}.

(** [clearTimeout(id)]: nothing happens when no such timer is pending. *)
Definition clearTimeout (id : nat) (h : Hook) : Hook :=
  {| timeoutRef := timeoutRef h; lastActivityRef := lastActivityRef h;
     timers := filter (fun t => negb (fst t =? id)%nat) (timers h);
     next_timer := next_timer h; listeners := listeners h;
     locks := locks h |}.

(** [if (timeoutRef.current) clearTimeout(timeoutRef.current)] *)
Definition clear_current (h : Hook) : Hook :=
  match timeoutRef h with
  | Some id => clearTimeout id h
  | None => h
  end.

(** [timeoutRef.current = setTimeout(() => onLock(), delay)] at [now]; a
    negative delay counts as 0. *)
Definition set_current (delay now : Z) (h : Hook) : Hook :=
  {| timeoutRef := Some (next_timer h); lastActivityRef := lastActivityRef h;
     timers := timers h ++ [(next_timer h, now + Z.max 0 delay)];
     next_timer := S (next_timer h); listeners := listeners h;
     locks := locks h |}.

Definition resetTimer (options : Options) (now : Z) (h : Hook) : Hook :=
  if negb (enabled options) then h
  else
    let h :=
      {| timeoutRef := timeoutRef h; lastActivityRef := now;
         timers := timers h; next_timer := next_timer h;
         listeners := listeners h; locks := locks h |} in
    set_current (timeout options) now (clear_current h).

(** The cleanup of the effect, if the effect returned one. *)
Definition cleanup (h : Hook) : Hook :=
  match listeners h with
  | None => h
  | Some _ =>
      clear_current
        {| timeoutRef := timeoutRef h; lastActivityRef := lastActivityRef h;
           timers := timers h; next_timer := next_timer h;
           listeners := None; locks := locks h |}
  end.

(** The effect, run after a render with new [options] or a new [onLock]:
    the cleanup of the effect before it, then its body. *)
Definition effect (options : Options) (now : Z) (h : Hook) : Hook :=
  let h := cleanup h in
  if negb (enabled options) then h
  else
    resetTimer options now
      {| timeoutRef := timeoutRef h; lastActivityRef := lastActivityRef h;
         timers := timers h; next_timer := next_timer h;
         listeners := Some options; locks := locks h |}.

(** One of the six events on the document: [handleActivity], if it is
    registered. *)
Definition handleActivity (now : Z) (h : Hook) : Hook :=
  match listeners h with
  | Some options => resetTimer options now h
  | None => h
  end.

(** A pending timer that is due runs its callback, [onLock]. *)
Definition fire (id : nat) (now : Z) (h : Hook) : option Hook :=
  match find (fun t => (fst t =? id)%nat) (timers h) with
  | Some (_, due) =>
      if due <=? now then
        Some {| timeoutRef := timeoutRef h;
                lastActivityRef := lastActivityRef h;
                timers := filter (fun t => negb (fst t =? id)%nat) (timers h);
                next_timer := next_timer h; listeners := listeners h;
                locks := S (locks h) |}
      else None
  | None => None
  end.

Definition lockNow (h : Hook) : Hook :=
  let h := clear_current h in
  {| timeoutRef := timeoutRef h; lastActivityRef := lastActivityRef h;
     timers := timers h; next_timer := next_timer h;
     listeners := listeners h; locks := S (locks h) |}.


(** What happens to the hook, and when. *)
Inductive Event : Type :=
| Effect (options : Options) (now : Z)
| Activity (now : Z)
| Fire (id : nat) (now : Z)
| LockNow (now : Z)
| Unmount (now : Z).

Definition time_of (e : Event) : Z :=
  match e with
  | Effect _ now | Activity now | Fire _ now | LockNow now | Unmount now => now
  end.

Definition run (e : Event) (h : Hook) : option Hook :=
  match e with
  | Effect options now => Some (effect options now h)
  | Activity now => Some (handleActivity now h)
  | Fire id now => fire id now h
  | LockNow _ => Some (lockNow h)
  | Unmount _ => Some (cleanup h)
  end.

(** The hook at time [t], after events at times that do not go back. *)
Inductive reachable : Z -> Hook -> Prop :=
| reachable_mount now : reachable now (mount now)
| reachable_run t h e h' :
    reachable t h -> t <= time_of e -> run e h = Some h' ->
    reachable (time_of e) h'.


End UseAutoLock.

(** ** lib/password-generator.ts: [generatePassword] *)

Module Generator.

Import PasswordGenerator.

Record PasswordOptions : Type := {
  length : nat;
  uppercase : bool;
  lowercase : bool;
  numbers : bool;
  symbols : bool;
  excludeAmbiguous : bool
}.

(** [CHAR_SETS] *)
Definition CHARS_uppercase : jsstring := lit "ABCDEFGHIJKLMNOPQRSTUVWXYZ".
Definition CHARS_lowercase : jsstring := lit "abcdefghijklmnopqrstuvwxyz".
Definition CHARS_numbers : jsstring := lit "0123456789".
Definition CHARS_symbols : jsstring := lit "!@#$%^&*()_+-=[]{}|;:,.<>?".
Definition CHARS_ambiguous : jsstring := lit "0O1lI|`~".

(** [Math.random]: what [Math.floor(Math.random() * n)] is at the k-th
    call, and the number of calls so far. *)
Record MathRandom : Type := {
  scaled : nat -> nat -> nat;
  calls : nat
}.

Definition next_index (n : nat) (random : MathRandom) : nat * MathRandom :=
  (scaled random (calls random) n,
   {| scaled := scaled random; calls := S (calls random) |}).

(** [s.includes(c)] for a code unit [c] *)
Definition includes (s : jsstring) (c : N) : bool := existsb (N.eqb c) s.

(** [s.split('').filter(c => !CHAR_SETS.ambiguous.includes(c)).join('')] *)
Definition without_ambiguous (s : jsstring) : jsstring :=
  filter (fun c => negb (includes CHARS_ambiguous c)) s.

Definition charset_of (options : PasswordOptions) : jsstring :=
  let charset :=
    (if uppercase options then CHARS_uppercase else [])
    ++ (if lowercase options then CHARS_lowercase else [])
    ++ (if numbers options then CHARS_numbers else [])
    ++ (if symbols options then CHARS_symbols else []) in
  let charset :=
    match charset with
    | [] => CHARS_lowercase ++ CHARS_numbers
    | _ => charset
    end in
  if excludeAmbiguous options then without_ambiguous charset else charset.

(** The elements of a [Uint32Array] over the bytes that
    [crypto.getRandomValues] wrote (little-endian). *)
Fixpoint uint32s (b : bytes) : list N :=
  match b with
  | b0 :: b1 :: b2 :: b3 :: rest =>
      (Byte.to_N b0 + 256 * Byte.to_N b1 + 65536 * Byte.to_N b2
       + 16777216 * Byte.to_N b3) :: uint32s rest
  | _ => []
  end.

(** An array of strings with holes or [undefined] elements, joined. *)
Definition join_chars (chars : list (option N)) : jsstring :=
  flat_map (fun c => match c with Some c => [c] | None => [] end) chars.

(** [chars[i] = c]: beyond the end, the array grows. *)
Fixpoint assign_at (i : nat) (c : option N) (chars : list (option N))
  : list (option N) :=
  match i, chars with
  | O, _ :: rest => c :: rest
  | O, [] => [c]
  | S i', x :: rest => x :: assign_at i' c rest
  | S i', [] => None :: assign_at i' c []
  end.

(** One entry of [required]: its test and its characters. *)
Definition required_sets (options : PasswordOptions)
  : list ((jsstring -> bool) * jsstring) :=
  (if uppercase options then [(has_uppercase, CHARS_uppercase)] else [])
  ++ (if lowercase options then [(has_lowercase, CHARS_lowercase)] else [])
  ++ (if numbers options then [(has_digit, CHARS_numbers)] else [])
  ++ (if symbols options then [(has_symbol, CHARS_symbols)] else []).

(** The body of the loop of [ensureRequiredChars] for one entry. *)
Definition ensure_one (password : jsstring) (options : PasswordOptions)
  (state : list (option N) * bool * MathRandom)
  (req : (jsstring -> bool) * jsstring)
  : list (option N) * bool * MathRandom :=
  let '(chars, modified, random) := state in
  if fst req password then state
  else
    let '(randomIndex, random) := next_index (List.length chars) random in
    let charSet :=
      if excludeAmbiguous options then without_ambiguous (snd req)
      else snd req in
    let '(charIndex, random) := next_index (List.length charSet) random in
    let randomChar := nth_error charSet charIndex in
    (assign_at randomIndex randomChar chars, true, random).

Definition ensureRequiredChars (password : jsstring)
  (options : PasswordOptions) (random : MathRandom)
  : jsstring * MathRandom :=
  let chars := map Some password in
  let '(chars, modified, random) :=
    fold_left (ensure_one password options) (required_sets options)
      (chars, false, random) in
  (if modified then join_chars chars else password, random).

(** [generatePassword(options)]; [None] is the exception of
    [crypto.getRandomValues] on more than 65536 bytes. *)
Definition generatePassword (options : PasswordOptions) (g : Rng)
  (random : MathRandom) : option jsstring * Rng * MathRandom :=
  let charset := charset_of options in
  if 65536 <? 4 * N.of_nat (length options) then (None, g, random)
  else
    let '(randomBytes, g) := getRandomValues (4 * length options) g in
    let randomValues := uint32s randomBytes in
    let password :=
      map (fun v =>
             nth_error charset
               (N.to_nat (v mod N.of_nat (List.length charset))))
          randomValues in
    let result := join_chars password in
    let '(result, random) := ensureRequiredChars result options random in
    (Some result, g, random).

(** The choices of character classes and of [excludeAmbiguous]. *)
Definition all_choices : list PasswordOptions :=
  flat_map
    (fun u => flat_map
       (fun l => flat_map
          (fun d => flat_map
             (fun s => map
                (fun e =>
                   {| length := 0; uppercase := u; lowercase := l;
                      numbers := d; symbols := s; excludeAmbiguous := e |})
                [true; false])
             [true; false])
          [true; false])
       [true; false])
    [true; false].

(** The characters that [ensureRequiredChars] may put in for an entry. *)
Definition replacements (options : PasswordOptions)
  (req : (jsstring -> bool) * jsstring) : jsstring :=
  if excludeAmbiguous options then without_ambiguous (snd req) else snd req.

Definition choice_checked (options : PasswordOptions) : bool :=
  negb (Nat.eqb (List.length (charset_of options)) 0)
  && forallb
       (fun req =>
          negb (Nat.eqb (List.length (replacements options req)) 0)
          && forallb (includes (charset_of options)) (replacements options req))
       (required_sets options)
  && (negb (excludeAmbiguous options)
      || forallb (fun c => negb (includes CHARS_ambiguous c))
           (charset_of options)).

(** An array whose elements are all characters of [charset]. *)
Definition drawn_from (charset : jsstring) (chars : list (option N)) : Prop :=
  Forall (fun c => exists x, c = Some x /\ In x charset) chars.

(** [Math.random() < 1]: an index it gives for a non-empty array is in the
    array. *)
Definition in_range (random : MathRandom) : Prop :=
  forall k n, (0 < n)%nat -> (scaled random k n < n)%nat.

End Generator.

(** ** Draws under which [generatePassword] can be run *)

Module GeneratorSamples.

Import Generator.

(** A CSPRNG that gives zero bytes and a [Math.random] that gives 0. *)
Definition zero_rng : Rng := {| entropy := fun _ => x00; used := 0 |}.

Definition zero_random : MathRandom :=
  {| scaled := fun _ _ => 0%nat; calls := 0 |}.

(** Letters of both cases and digits, [n] characters. *)
Definition three_classes (n : nat) : PasswordOptions :=
  {| length := n; uppercase := true; lowercase := true; numbers := true;
     symbols := false; excludeAmbiguous := false |}.

End GeneratorSamples.

(* ================================================================== *)
(** * Part II: properties                                              *)
(* ================================================================== *)

(** Settle the comparisons of a goal whose outcome arithmetic decides. *)
Ltac decide_tests :=
  repeat match goal with
  | |- context [N.leb ?a ?b] =>
      first [ rewrite (proj2 (N.leb_le a b)) by lia
            | rewrite (proj2 (N.leb_gt a b)) by lia ]
  | |- context [N.ltb ?a ?b] =>
      first [ rewrite (proj2 (N.ltb_lt a b)) by lia
            | rewrite (proj2 (N.ltb_ge a b)) by lia ]
  | |- context [N.eqb ?a ?b] =>
      first [ rewrite (proj2 (N.eqb_eq a b)) by lia
            | rewrite (proj2 (N.eqb_neq a b)) by lia ]
  end.

Ltac settle := repeat (progress (decide_tests; cbn [andb orb negb])).

(** ** Lists three elements at a time, strings, bytes *)

Module Basics.

Lemma list_ind3 {A} (P : list A -> Prop) :
  P [] -> (forall a, P [a]) -> (forall a b, P [a; b]) ->
  (forall a b c rest, P rest -> P (a :: b :: c :: rest)) ->
  forall l, P l.
Proof.
  intros H0 H1 H2 H3 l.
  assert (P l /\ (forall a, P (a :: l)) /\ (forall a b, P (a :: b :: l)))
    as [H _].
  { induction l as [|x l [IH0 [IH1 IH2]]].
    - repeat split; auto.
    - repeat split; auto. }
  exact H.
Qed.

Lemma str_eqb_refl s : str_eqb s s = true.
Proof. induction s; simpl; [|rewrite N.eqb_refl]; auto. Qed.

Lemma str_eqb_eq a b : str_eqb a b = true <-> a = b.
Proof.
  split; [|intros ->; apply str_eqb_refl].
  revert b; induction a as [|x a IH]; destruct b as [|y b]; simpl;
    try discriminate; auto.
  intros H. apply andb_true_iff in H as [Hx Hab].
  apply N.eqb_eq in Hx. f_equal; auto.
Qed.

Lemma str_eqb_neq a b : str_eqb a b = false <-> a <> b.
Proof.
  split.
  - intros H ->. rewrite str_eqb_refl in H. discriminate.
  - intros H. destruct (str_eqb a b) eqn:E; auto.
    apply str_eqb_eq in E. contradiction.
Qed.

Lemma to_N_byte_of_N n : n <= 255 -> Byte.to_N (byte_of_N n) = n.
Proof.
  intros H. unfold byte_of_N.
  destruct (Byte.of_N n) eqn:E.
  - now apply Byte.to_of_N.
  - apply Byte.of_N_None_iff in E. lia.
Qed.

Lemma byte_of_N_to_N b : byte_of_N (Byte.to_N b) = b.
Proof. unfold byte_of_N. now rewrite Byte.of_to_N. Qed.

Lemma to_N_le_255 b : Byte.to_N b <= 255.
Proof. apply Byte.to_N_bounded. Qed.

End Basics.

(** ** The platform functions on known inputs *)

Module PlatformExamples.

Import Base64 Utf8 Json Num.

Example btoa_hello : btoa (lit "hello") = Ok (lit "aGVsbG8=").
Proof. reflexivity. Qed.

Example btoa_not_binary : btoa [104; 8364] = Throw InvalidCharacterError.
Proof. reflexivity. Qed.

Example atob_hello :
  atob (lit "aGVsbG8=") = Ok (lit "hello") /\
  atob (lit "aGVsbG8") = Ok (lit "hello") /\
  atob (lit " aGVs bG8= ") = Ok (lit "hello").
Proof. repeat split. Qed.

Example atob_malformed :
  atob (lit "!") = Throw InvalidCharacterError /\
  atob (lit "aGVsb") = Throw InvalidCharacterError /\
  atob (lit "aGVsbG8==") = Throw InvalidCharacterError.
Proof. repeat split. Qed.

(** e-acute, the euro sign, U+1F600 as a surrogate pair, and a surrogate on
    its own. *)
Example encode_samples :
  TextEncoder_encode [233] = [xc3; xa9] /\
  TextEncoder_encode [8364] = [xe2; x82; xac] /\
  TextEncoder_encode [55357; 56832] = [xf0; x9f; x98; x80] /\
  TextEncoder_encode [55357] = [xef; xbf; xbd].
Proof. repeat split. Qed.

(** A byte order mark is dropped; a byte that starts nothing and a sequence
    cut short become U+FFFD. *)
Example decode_samples :
  TextDecoder_decode [xef; xbb; xbf; x41] = [65] /\
  TextDecoder_decode [xf0; x9f; x98; x80] = [55357; 56832] /\
  TextDecoder_decode [xff; x41] = [65533; 65] /\
  TextDecoder_decode [xe2; x82; x41] = [65533; 65] /\
  TextDecoder_decode [xed; xa0; x80] = [65533; 65533; 65533].
Proof. repeat split. Qed.

(** A quote, a line feed, a control character and a lone surrogate are
    escaped; an [undefined] property is left out. *)
Example stringify_sample :
  JSON_stringify [(lit "a", Some [34; 10; 1; 55357]); (lit "b", None)]
  = [123; 34; 97; 34; 58; 34; 92; 34; 92; 110; 92; 117; 48; 48; 48; 49;
     92; 117; 100; 56; 51; 100; 34; 125].
Proof. reflexivity. Qed.

Example parse_samples :
  JSON_parse (lit " { } ") = Ok [] /\
  JSON_parse ([123; 34; 97; 34] ++ lit " : " ++ [34; 92; 117; 48; 48; 52; 49; 34]
              ++ lit " }")
  = Ok [(lit "a", lit "A")] /\
  JSON_parse (lit "{") = Throw SyntaxError /\
  JSON_parse [] = Throw SyntaxError.
Proof. repeat split. Qed.

(** [Math.round] and the clamp: 92.5 goes up, the double just below it
    down; [Math.floor]. *)
Example round_samples :
  round_clamp_0_100 92.5%float = 93%nat /\
  round_clamp_0_100 0x1.71fffffffffffp+6%float = 92%nat /\
  round_clamp_0_100 105%float = 100%nat /\
  round_clamp_0_100 0.25%float = 0%nat /\
  floor_upto 20 2.5%float = 2%nat /\
  floor_upto 20 20%float = 20%nat.
Proof. repeat split. Qed.

End PlatformExamples.

(** ** [atob] undoes [btoa] *)

Module Base64Facts.

Import Base64 Basics.

Lemma b64_index_char i : i < 64 -> b64_index (b64_char i) = Some i.
Proof.
  intros H. unfold b64_index, b64_char.
  assert (i < 26 \/ 26 <= i < 52 \/ 52 <= i < 62 \/ i = 62 \/ i = 63)
    as [C|[C|[C|[C|C]]]] by lia;
    settle; f_equal; lia.
Qed.

Lemma b64_char_plain i :
  ascii_whitespace (b64_char i) = false /\ (b64_char i =? pad) = false.
Proof.
  unfold ascii_whitespace, b64_char, pad.
  assert (i < 26 \/ 26 <= i < 52 \/ 52 <= i < 62 \/ i = 62 \/ 62 < i)
    as [C|[C|[C|[C|C]]]] by lia;
    settle; auto.
Qed.

Lemma encode_no_whitespace s :
  filter (fun c => negb (ascii_whitespace c)) (encode_groups s)
  = encode_groups s.
Proof.
  induction s as [|a|a b|a b c rest IH] using list_ind3; simpl;
    repeat rewrite (proj1 (b64_char_plain _)); simpl; auto.
  now rewrite IH.
Qed.

Lemma encode_length s :
  (N.of_nat (List.length (encode_groups s))) mod 4 = 0.
Proof.
  induction s as [|a|a b|a b c rest IH] using list_ind3; auto.
  cbn [encode_groups List.length]. lia.
Qed.

Lemma strip_padding_group c1 c2 c3 c4 rest :
  (c3 =? pad) = false -> (c4 =? pad) = false ->
  strip_padding (c1 :: c2 :: c3 :: c4 :: rest)
  = c1 :: c2 :: c3 :: c4 :: strip_padding rest.
Proof.
  intros H3 H4. destruct rest as [|e [|e' rest]]; simpl;
    rewrite ?H3, ?H4; simpl; auto.
Qed.

(** The sextets of the unpadded encoding decode to the octets. *)
Lemma sextets_round_trip s :
  Forall (fun c => c <= 255) s ->
  exists l,
    indices (strip_padding (encode_groups s)) = Some l /\
    decode_sextets l = s /\
    ((N.of_nat (List.length (strip_padding (encode_groups s)))) mod 4 =? 1)
    = false.
Proof.
  induction s as [|a|a b|a b c rest IH] using list_ind3; intros Hs.
  - exists []. auto.
  - inversion Hs as [|? ? Ha _]; subst.
    exists [a / 4; (a mod 4) * 16]. cbn.
    rewrite !b64_index_char by lia. repeat split; auto.
    f_equal. lia.
  - inversion Hs as [|? ? Ha Hs']; subst.
    inversion Hs' as [|? ? Hb _]; subst.
    exists [a / 4; (a mod 4) * 16 + b / 16; (b mod 16) * 4]. cbn.
    rewrite (proj2 (b64_char_plain _)). cbn.
    rewrite !b64_index_char by lia. repeat split; auto.
    f_equal; [|f_equal]; lia.
  - inversion Hs as [|? ? Ha Hs1]; subst.
    inversion Hs1 as [|? ? Hb Hs2]; subst.
    inversion Hs2 as [|? ? Hc Hs3]; subst.
    destruct (IH Hs3) as (l & Hl & Hd & Hn).
    exists (a / 4 :: (a mod 4) * 16 + b / 16 :: (b mod 16) * 4 + c / 64
            :: c mod 64 :: l).
    cbn [encode_groups].
    rewrite strip_padding_group by apply b64_char_plain.
    cbn [indices]. rewrite !b64_index_char by lia. rewrite Hl.
    repeat split.
    + cbn [decode_sextets]. rewrite Hd. f_equal; [|f_equal; [|f_equal]]; lia.
    + cbn [List.length]. apply N.eqb_neq. apply N.eqb_neq in Hn. lia.
Qed.

Lemma btoa_ok s :
  Forall (fun c => c <= 255) s -> btoa s = Ok (encode_groups s).
Proof.
  intros H. unfold btoa.
  replace (forallb (fun c => c <=? 255) s) with true; auto.
  symmetry. apply forallb_forall. intros x Hx.
  rewrite Forall_forall in H. apply N.leb_le. auto.
Qed.

Lemma atob_encode s :
  Forall (fun c => c <= 255) s -> atob (encode_groups s) = Ok s.
Proof.
  intros H. unfold atob.
  rewrite encode_no_whitespace, encode_length. cbn [N.eqb].
  destruct (sextets_round_trip s H) as (l & Hl & Hd & Hn).
  rewrite Hn, Hl, Hd. reflexivity.
Qed.

End Base64Facts.

(** ** [./utils]: base64 of a buffer and back *)

Module CodecFacts.

Import Base64 Base64Facts Basics Codec.

Lemma buffer_octets (buffer : bytes) :
  Forall (fun c => c <= 255) (map Byte.to_N buffer).
Proof.
  apply Forall_forall. intros x Hx. apply in_map_iff in Hx as (b & <- & _).
  apply to_N_le_255.
Qed.

Lemma arrayBufferToBase64_ok buffer :
  arrayBufferToBase64 buffer = Ok (encode_groups (map Byte.to_N buffer)).
Proof. apply btoa_ok, buffer_octets. Qed.

Lemma base64ToArrayBuffer_encode buffer :
  base64ToArrayBuffer (encode_groups (map Byte.to_N buffer)) = Ok buffer.
Proof.
  unfold base64ToArrayBuffer. rewrite atob_encode by apply buffer_octets.
  cbn [bind]. f_equal. rewrite map_map.
  rewrite <- (map_id buffer) at 2. apply map_ext. intros b.
  rewrite N.mod_small by (pose proof (to_N_le_255 b); lia).
  apply byte_of_N_to_N.
Qed.

(** Distinct buffers have distinct base64 texts. *)
Lemma encode_buffer_inj b1 b2 :
  encode_groups (map Byte.to_N b1) = encode_groups (map Byte.to_N b2) ->
  b1 = b2.
Proof.
  intros H.
  pose proof (base64ToArrayBuffer_encode b1) as H1.
  rewrite H, base64ToArrayBuffer_encode in H1. now inversion H1.
Qed.

End CodecFacts.

(** ** [TextDecoder] undoes [TextEncoder] on well-formed strings *)

Module Utf8Facts.

Import Utf8 Basics.

Lemma decode_loop_lead x rest :
  decode_loop None (x :: rest)
  = (let '(out, st') := decode_lead (Byte.to_N x) in
     out ++ decode_loop st' rest).
Proof. reflexivity. Qed.

Lemma decode_loop_continue cp needed lower upper x rest :
  decode_loop (Some (cp, needed, lower, upper)) (x :: rest)
  = (let b := Byte.to_N x in
     if (lower <=? b) && (b <=? upper) then
       let cp := cp * 64 + (b - 128) in
       match needed with
       | 1%nat => from_scalar cp ++ decode_loop None rest
       | _ => decode_loop (Some (cp, Nat.pred needed, 128, 191)) rest
       end
     else
       let '(out, st') := decode_lead b in
       replacement :: out ++ decode_loop st' rest).
Proof. reflexivity. Qed.

Lemma not_surrogate c :
  is_surrogate c = false -> c < 55296 \/ 57343 < c.
Proof.
  unfold is_surrogate. intros H.
  apply andb_false_iff in H as [H|H]; apply N.leb_gt in H; lia.
Qed.

Lemma high_surrogate h : is_high_surrogate h = true -> 55296 <= h <= 56319.
Proof.
  unfold is_high_surrogate. intros H.
  apply andb_true_iff in H as [H1 H2].
  apply N.leb_le in H1, H2. lia.
Qed.

Lemma low_surrogate l : is_low_surrogate l = true -> 56320 <= l <= 57343.
Proof.
  unfold is_low_surrogate. intros H.
  apply andb_true_iff in H as [H1 H2].
  apply N.leb_le in H1, H2. lia.
Qed.

Ltac decode_byte :=
  first [ rewrite decode_loop_lead | rewrite decode_loop_continue ];
  cbv zeta; rewrite to_N_byte_of_N by lia;
  unfold decode_lead; settle; cbn [app Nat.pred].

(** One code point, encoded and decoded. *)
Lemma decode_scalar c rest :
  c < 1114112 -> is_surrogate c = false ->
  decode_loop None (encode_scalar c ++ rest)
  = from_scalar c ++ decode_loop None rest.
Proof.
  intros Hc Hs. apply not_surrogate in Hs. unfold encode_scalar.
  assert (c < 128 \/ 128 <= c < 2048 \/ 2048 <= c < 65536 \/ 65536 <= c)
    as [C|[C|[C|C]]] by lia; settle; cbn [app].
  - decode_byte. unfold from_scalar. settle. reflexivity.
  - do 2 decode_byte. f_equal. f_equal. lia.
  - assert (c / 4096 = 0 \/ c / 4096 = 13 \/
            (c / 4096 <> 0 /\ c / 4096 <> 13)) as [D|[D|D]] by lia;
      do 3 decode_byte; f_equal; f_equal; lia.
  - assert (c / 262144 = 0 \/ c / 262144 = 4 \/
            (c / 262144 <> 0 /\ c / 262144 <> 4)) as [D|[D|D]] by lia;
      do 4 decode_byte; f_equal; f_equal; lia.
Qed.

Lemma utf8_round_trip s :
  well_formed s -> decode_loop None (TextEncoder_encode s) = s.
Proof.
  unfold TextEncoder_encode.
  induction 1 as [|c s Hc Hs Hwf IH|h l s Hh Hl Hwf IH]; auto.
  - pose proof (not_surrogate c Hs) as Hr.
    cbn [to_scalars]. unfold is_high_surrogate, is_low_surrogate.
    destruct Hr; settle; cbn [flat_map];
      rewrite decode_scalar by (auto; lia);
      rewrite IH; unfold from_scalar; settle; reflexivity.
  - cbn [to_scalars]. rewrite Hh, Hl.
    apply high_surrogate in Hh. apply low_surrogate in Hl.
    cbn [flat_map]. rewrite decode_scalar.
    + rewrite IH. unfold from_scalar. settle. cbn [app].
      f_equal; [|f_equal]; lia.
    + lia.
    + unfold is_surrogate. settle. reflexivity.
Qed.

(** A well-formed text that starts with an opening brace survives
    [TextEncoder] and [TextDecoder]: it has no byte order mark to lose. *)
Lemma utf8_round_trip_braced s :
  well_formed (123 :: s) ->
  TextDecoder_decode (TextEncoder_encode (123 :: s)) = 123 :: s.
Proof.
  intros H. rewrite <- (utf8_round_trip _ H) at 2.
  change (TextEncoder_encode (123 :: s)) with ("{"%byte :: TextEncoder_encode s).
  reflexivity.
Qed.

Lemma well_formed_app a b :
  well_formed a -> well_formed b -> well_formed (a ++ b).
Proof.
  induction 1; intros Hb; cbn [app]; auto.
  - apply wf_unit; auto.
  - apply wf_pair; auto.
Qed.

Lemma well_formed_ascii c s : c < 128 -> well_formed s -> well_formed (c :: s).
Proof.
  intros Hc Hs. apply wf_unit; auto; try lia.
  unfold is_surrogate. settle. reflexivity.
Qed.

End Utf8Facts.

(** ** [JSON.parse] undoes [JSON.stringify] *)

Module JsonFacts.

Import Utf8 Utf8Facts Json Basics.

Lemma is_surrogate_split c :
  is_surrogate c = is_high_surrogate c || is_low_surrogate c.
Proof.
  unfold is_surrogate, is_high_surrogate, is_low_surrogate.
  assert (c < 55296 \/ 55296 <= c <= 56319 \/ 56320 <= c <= 57343 \/
          57343 < c) as [C|[C|[C|C]]] by lia; settle; reflexivity.
Qed.

Lemma quote_chars_single c s :
  is_high_surrogate c
  && match s with l :: _ => is_low_surrogate l | [] => false end = false ->
  quote_chars (c :: s) = quote_single c ++ quote_chars s.
Proof.
  intros H. cbn [quote_chars]. unfold quote_single.
  rewrite is_surrogate_split.
  destruct (is_high_surrogate c); cbn [andb orb] in *.
  - destruct s as [|l s]; [now rewrite app_nil_r|]. now rewrite H.
  - destruct (is_low_surrogate c); reflexivity.
Qed.

(** Induction along the way [quote_chars] reads a string: surrogate pairs
    as one step, every other code unit alone. *)
Lemma quote_ind (P : jsstring -> Prop) :
  P [] ->
  (forall h l s,
      is_high_surrogate h = true -> is_low_surrogate l = true ->
      quote_chars (h :: l :: s) = h :: l :: quote_chars s ->
      P s -> P (h :: l :: s)) ->
  (forall c s,
      quote_chars (c :: s) = quote_single c ++ quote_chars s ->
      P s -> P (c :: s)) ->
  forall s, P s.
Proof.
  intros Hnil Hpair Hsingle s.
  assert (P s /\ forall c, P (c :: s)) as [H _].
  { induction s as [|l s [IH0 IH1]].
    - split; auto. intros c. apply Hsingle; auto.
      apply quote_chars_single. apply andb_false_r.
    - split; auto. intros c.
      destruct (is_high_surrogate c && is_low_surrogate l) eqn:E.
      + apply andb_true_iff in E as [Eh El].
        apply Hpair; auto. cbn [quote_chars]. now rewrite Eh, El.
      + apply Hsingle; auto. now apply quote_chars_single. }
  exact H.
Qed.

Lemma hex_value_digit d : d < 16 -> hex_value (hex_digit d) = Some d.
Proof.
  intros H. unfold hex_value, hex_digit.
  assert (d < 10 \/ 10 <= d) as [C|C] by lia; settle; f_equal; lia.
Qed.

Lemma parse_body_cons c rest :
  parse_string_body (c :: rest)
  = if c =? 34 then Some ([], rest)
    else if c =? 92 then
      match rest with
      | [] => None
      | e :: rest1 =>
          if e =? 117 then
            match rest1 with
            | h1 :: h2 :: h3 :: h4 :: rest2 =>
                match hex4 h1 h2 h3 h4, parse_string_body rest2 with
                | Some u, Some (v, r) => Some (u :: v, r)
                | _, _ => None
                end
            | _ => None
            end
          else
            match unescape e, parse_string_body rest1 with
            | Some u, Some (v, r) => Some (u :: v, r)
            | _, _ => None
            end
      end
    else if c <? 32 then None
    else
      match parse_string_body rest with
      | Some (v, r) => Some (c :: v, r)
      | None => None
      end.
Proof. reflexivity. Qed.

Lemma parse_unicode_escape c rest v r :
  c < 65536 -> parse_string_body rest = Some (v, r) ->
  parse_string_body (unicode_escape c ++ rest) = Some (c :: v, r).
Proof.
  intros Hc Hr. unfold unicode_escape. cbn [app].
  rewrite parse_body_cons. cbn [N.eqb Pos.eqb].
  unfold hex4. rewrite !hex_value_digit by lia. rewrite Hr.
  do 2 f_equal. f_equal. lia.
Qed.

Lemma parse_quote_unit c rest v r :
  c < 65536 -> parse_string_body rest = Some (v, r) ->
  parse_string_body (quote_unit c ++ rest) = Some (c :: v, r).
Proof.
  intros Hc Hr. unfold quote_unit.
  assert (c = 8 \/ c = 9 \/ c = 10 \/ c = 12 \/ c = 13 \/ c = 34 \/ c = 92 \/
          (c < 32 /\ c <> 8 /\ c <> 9 /\ c <> 10 /\ c <> 12 /\ c <> 13) \/
          (32 <= c /\ c <> 34 /\ c <> 92))
    as [C|[C|[C|[C|[C|[C|[C|[C|C]]]]]]]] by lia;
    try (subst c; cbn; rewrite Hr; reflexivity).
  - settle. now apply parse_unicode_escape.
  - settle. cbn [app]. rewrite parse_body_cons. settle. now rewrite Hr.
Qed.

Lemma parse_quote_single c rest v r :
  c < 65536 -> parse_string_body rest = Some (v, r) ->
  parse_string_body (quote_single c ++ rest) = Some (c :: v, r).
Proof.
  intros Hc Hr. unfold quote_single.
  destruct (is_surrogate c);
    [now apply parse_unicode_escape | now apply parse_quote_unit].
Qed.

(** The body of a quoted string parses back to the string. *)
Lemma parse_quote_chars s :
  wf_string s ->
  forall rest, parse_string_body (quote_chars s ++ 34 :: rest) = Some (s, rest).
Proof.
  induction s as [|h l s Hh Hl Hq IH|c s Hq IH] using quote_ind;
    intros Hwf rest.
  - reflexivity.
  - inversion Hwf as [|? ? _ Hwf1]; subst.
    inversion Hwf1 as [|? ? _ Hwf2]; subst.
    apply high_surrogate in Hh. apply low_surrogate in Hl.
    rewrite Hq. cbn [app].
    rewrite parse_body_cons. settle.
    rewrite parse_body_cons. settle.
    now rewrite IH.
  - inversion Hwf as [|? ? Hc Hwf1]; subst.
    rewrite Hq, <- app_assoc.
    apply parse_quote_single; auto.
Qed.

Lemma parse_quote s rest :
  wf_string s -> parse_string (quote s ++ rest) = Some (s, rest).
Proof.
  intros H. unfold quote, parse_string. cbn [app].
  rewrite <- app_assoc. now apply parse_quote_chars.
Qed.

Lemma skip_ws_plain c s : json_whitespace c = false -> skip_ws (c :: s) = c :: s.
Proof. intros H. cbn [skip_ws]. now rewrite H. Qed.

Lemma skip_ws_quote s rest : skip_ws (quote s ++ rest) = quote s ++ rest.
Proof. unfold quote. cbn [app]. now apply skip_ws_plain. Qed.

Lemma parse_members_stringify l :
  Forall wf_member l -> l <> [] ->
  forall fuel acc tail,
    (List.length l <= fuel)%nat ->
    parse_members fuel (members l ++ 125 :: tail) acc
    = Some (fold_left assign l acc, tail).
Proof.
  induction l as [|kv l IH]; [congruence|].
  intros Hwf _ fuel acc tail Hfuel.
  inversion Hwf as [|? ? [Hk Hv] Hwf']; subst.
  destruct fuel as [|fuel]; [cbn in Hfuel; lia|].
  cbn [List.length] in Hfuel.
  destruct l as [|kv' l].
  - cbn [members parse_members]. unfold member.
    rewrite <- !app_assoc. cbn [app].
    rewrite parse_quote by assumption.
    rewrite skip_ws_plain by reflexivity.
    rewrite skip_ws_quote.
    rewrite parse_quote by assumption.
    rewrite skip_ws_plain by reflexivity.
    reflexivity.
  - change (members (kv :: kv' :: l))
      with (member kv ++ 44 :: members (kv' :: l)).
    cbn [parse_members]. unfold member at 1.
    rewrite <- !app_assoc. cbn [app].
    rewrite parse_quote by assumption.
    rewrite skip_ws_plain by reflexivity.
    rewrite skip_ws_quote.
    rewrite parse_quote by assumption.
    rewrite skip_ws_plain by reflexivity.
    assert (skip_ws (members (kv' :: l) ++ 125 :: tail)
            = members (kv' :: l) ++ 125 :: tail) as ->.
    { destruct l; cbn [members]; unfold member, quote; cbn [app];
        now apply skip_ws_plain. }
    cbn [fold_left]. apply IH; auto; try congruence.
    cbn [List.length] in *. lia.
Qed.

Lemma members_length l : (List.length l <= List.length (members l))%nat.
Proof.
  induction l as [|kv l IH]; auto.
  destruct l as [|kv' l].
  - cbn. lia.
  - change (members (kv :: kv' :: l))
      with (member kv ++ 44 :: members (kv' :: l)).
    rewrite length_app. cbn [List.length] in *. lia.
Qed.

(** [JSON.parse(JSON.stringify(o))] is the object with the defined
    properties of [o], created in order. *)
Lemma parse_stringify props :
  Forall wf_member (defined props) ->
  JSON_parse (JSON_stringify props) = Ok (fold_left assign (defined props) []).
Proof.
  intros Hwf. unfold JSON_parse, parse_object, JSON_stringify.
  rewrite skip_ws_plain by reflexivity.
  destruct (defined props) as [|kv l] eqn:E; [reflexivity|].
  assert (exists X, members (kv :: l) ++ [125] = 34 :: X) as [X HX].
  { destruct l; cbn [members]; unfold member, quote; cbn [app]; eauto. }
  rewrite HX at 1. rewrite skip_ws_plain by reflexivity.
  cbv beta iota. rewrite <- HX.
  rewrite parse_members_stringify; auto; try congruence.
  cbn [List.length]. rewrite length_app.
  pose proof (members_length (kv :: l)) as Hlen.
  cbn [List.length] in *. lia.
Qed.

(** The text [JSON.stringify] writes is well-formed UTF-16, whatever
    surrogates the strings hold. *)
Lemma hex_digit_ascii d : d < 16 -> hex_digit d < 128.
Proof. intros H. unfold hex_digit. destruct (d <? 10); lia. Qed.

Lemma unicode_escape_well_formed c :
  c < 65536 -> well_formed (unicode_escape c).
Proof.
  intros H. unfold unicode_escape.
  repeat (apply well_formed_ascii; [try apply hex_digit_ascii; lia|]).
  constructor.
Qed.

Lemma quote_unit_well_formed c :
  c < 65536 -> is_surrogate c = false -> well_formed (quote_unit c).
Proof.
  intros Hc Hs. unfold quote_unit.
  assert (c = 8 \/ c = 9 \/ c = 10 \/ c = 12 \/ c = 13 \/ c = 34 \/ c = 92 \/
          (c < 32 /\ c <> 8 /\ c <> 9 /\ c <> 10 /\ c <> 12 /\ c <> 13) \/
          (32 <= c /\ c <> 34 /\ c <> 92))
    as [C|[C|[C|[C|[C|[C|[C|[C|C]]]]]]]] by lia;
    try (subst c; cbn; repeat (apply well_formed_ascii; [lia|]); constructor).
  - settle. now apply unicode_escape_well_formed.
  - settle. apply wf_unit; auto. constructor.
Qed.

Lemma quote_chars_well_formed s :
  wf_string s -> well_formed (quote_chars s).
Proof.
  induction s as [|h l s Hh Hl Hq IH|c s Hq IH] using quote_ind; intros Hwf.
  - constructor.
  - inversion Hwf as [|? ? _ Hwf1]; subst.
    inversion Hwf1 as [|? ? _ Hwf2]; subst.
    rewrite Hq. apply wf_pair; auto.
  - inversion Hwf as [|? ? Hc Hwf1]; subst.
    rewrite Hq. apply well_formed_app; auto.
    unfold quote_single. destruct (is_surrogate c) eqn:Es.
    + now apply unicode_escape_well_formed.
    + now apply quote_unit_well_formed.
Qed.

Lemma quote_well_formed s : wf_string s -> well_formed (quote s).
Proof.
  intros H. unfold quote. apply well_formed_ascii; [lia|].
  apply well_formed_app; [now apply quote_chars_well_formed|].
  apply well_formed_ascii; [lia|constructor].
Qed.

Lemma members_well_formed l :
  Forall wf_member l -> well_formed (members l).
Proof.
  induction l as [|kv l IH]; intros Hwf; [constructor|].
  inversion Hwf as [|? ? [Hk Hv] Hwf']; subst.
  assert (well_formed (member kv)) as Hm.
  { unfold member. apply well_formed_app; [now apply quote_well_formed|].
    apply well_formed_ascii; [lia|]. now apply quote_well_formed. }
  destruct l as [|kv' l]; [exact Hm|].
  change (members (kv :: kv' :: l))
    with (member kv ++ 44 :: members (kv' :: l)).
  apply well_formed_app; auto.
  apply well_formed_ascii; [lia|auto].
Qed.

Lemma stringify_well_formed props :
  Forall wf_member (defined props) -> well_formed (JSON_stringify props).
Proof.
  intros H. unfold JSON_stringify.
  apply well_formed_ascii; [lia|].
  apply well_formed_app; [now apply members_well_formed|].
  apply well_formed_ascii; [lia|constructor].
Qed.

End JsonFacts.

(** ** [./encryption]: the round trip *)

Module EncryptionFacts.

Import Base64 Utf8 Json Codec Encryption.
Import Basics Base64Facts CodecFacts Utf8Facts JsonFacts.

Lemma wf_lit s : wf_string (lit s).
Proof.
  unfold wf_string, lit. apply Forall_forall. intros c Hc.
  apply in_map_iff in Hc as (a & <- & _).
  pose proof (N_ascii_bounded a). unfold code_unit. lia.
Qed.

Lemma properties_wf secret :
  wf_secret secret -> Forall wf_member (defined (properties secret)).
Proof.
  intros (Hn & Hu & Hp & Hl & Ho). unfold properties.
  destruct (username secret), (url secret), (notes secret);
    cbn [defined wf_optional] in *;
    repeat (apply Forall_cons; [split; cbn [fst snd]; auto using wf_lit|]);
    constructor.
Qed.

(** The parsed object has the defined properties of the secret, in order. *)
Lemma parsed_properties secret :
  fold_left assign (defined (properties secret)) []
  = defined (properties secret).
Proof.
  unfold properties.
  destruct (username secret), (url secret), (notes secret); reflexivity.
Qed.

Lemma defined_same_fields secret :
  same_fields (defined (properties secret)) secret.
Proof.
  unfold same_fields, properties.
  destruct (username secret), (url secret), (notes secret);
    repeat split; reflexivity.
Qed.

Lemma strip_prefix_app p l : strip_prefix p (p ++ l) = Some l.
Proof.
  induction p as [|x p IH]; auto.
  cbn [app strip_prefix]. now rewrite Byte.byte_dec_lb.
Qed.

Lemma model_provider_correct key iv data :
  @aes_gcm_decrypt model_provider key iv
    (@aes_gcm_encrypt model_provider key iv data) = Some data.
Proof. cbn. now rewrite !strip_prefix_app. Qed.

Section WithProvider.
Context {provider : WebCrypto}.

(** What [encryptData] returns: the next 12 bytes of the CSPRNG as nonce,
    whatever the data and the key. *)
Lemma encryptData_value data key g :
  encryptData data key g
  = (let iv := map (entropy g) (seq (used g) 12) in
     Ok {| encryptedData :=
             encode_groups
               (map Byte.to_N (aes_gcm_encrypt key iv (stringToArrayBuffer data)));
           iv := encode_groups (map Byte.to_N iv) |},
     {| entropy := entropy g; used := (used g + 12)%nat |}).
Proof.
  unfold encryptData, generateIV, getRandomValues, uint8ArrayToBase64.
  now rewrite !arrayBufferToBase64_ok.
Qed.

Lemma decryptData_encrypted key iv plain :
  aes_gcm_decrypt key iv (aes_gcm_encrypt key iv plain) = Some plain ->
  decryptData
    (encode_groups (map Byte.to_N (aes_gcm_encrypt key iv plain)))
    (encode_groups (map Byte.to_N iv)) key
  = Ok (arrayBufferToString plain).
Proof.
  intros H. unfold decryptData, base64ToUint8Array.
  rewrite !base64ToArrayBuffer_encode. cbn [bind]. now rewrite H.
Qed.

(** C1. Round trip: for every plaintext record R (its strings being
    strings) and every AES-GCM key K (decryption under K undoing encryption
    under K, as AES-GCM does), [encryptSecret R K] succeeds and
    [decryptSecret] of its [encryptedData] and [iv] under K returns the
    object with the defined properties of R, whose fields name, username,
    password, url and notes equal those of R. *)
Theorem encrypt_decrypt_round_trip (R : PlainSecret) (K : CryptoKey) (g : Rng) :
  wf_secret R ->
  (forall iv data, aes_gcm_decrypt K iv (aes_gcm_encrypt K iv data) = Some data) ->
  exists e,
    fst (encryptSecret R K g) = Ok e /\
    decryptSecret (encryptedData e) (iv e) K = Ok (defined (properties R)) /\
    same_fields (defined (properties R)) R.
Proof.
  intros Hwf Haes.
  unfold encryptSecret. rewrite encryptData_value. cbv zeta. cbn [fst].
  eexists.
  split; [reflexivity|]. cbn [encryptedData iv].
  split; [|apply defined_same_fields].
  unfold decryptSecret.
  rewrite decryptData_encrypted by apply Haes. cbn [bind].
  pose proof (properties_wf R Hwf) as Hm.
  unfold arrayBufferToString, stringToArrayBuffer.
  unfold JSON_stringify at 1.
  rewrite utf8_round_trip_braced by (now apply (stringify_well_formed _ Hm)).
  change (123 :: members (defined (properties R)) ++ [125])
    with (JSON_stringify (properties R)).
  rewrite parse_stringify by assumption.
  now rewrite parsed_properties.
Qed.

End WithProvider.

Lemma sample_secret_wf : wf_secret Samples.sample_secret.
Proof.
  repeat split; try apply wf_lit.
  cbn. repeat constructor.
Qed.

(** The round trip of [sample_secret] on the model provider. *)
Lemma encrypt_decrypt_round_trip_witness :
  exists e,
    fst (@encryptSecret model_provider Samples.sample_secret Samples.sample_key
           Samples.sample_rng) = Ok e /\
    @decryptSecret model_provider (encryptedData e) (iv e) Samples.sample_key
    = Ok (defined (properties Samples.sample_secret)) /\
    same_fields (defined (properties Samples.sample_secret))
      Samples.sample_secret.
Proof.
  apply (@encrypt_decrypt_round_trip model_provider).
  - exact sample_secret_wf.
  - intros iv data. apply model_provider_correct.
Defined.

End EncryptionFacts.

(** ** Nonces: every [encryptData] draws its own *)

Module NonceFacts.

Import Base64 Codec Encryption.
Import Basics CodecFacts EncryptionFacts.

Lemma nonces_succ n g :
  nonces (S n) g
  = map (entropy g) (seq (used g) 12)
    :: nonces n {| entropy := entropy g; used := (used g + 12)%nat |}.
Proof.
  unfold nonces. change (seq 0 (S n)) with (0%nat :: seq 1 n).
  cbn [map entropy used]. f_equal.
  - replace (used g + 12 * 0)%nat with (used g) by lia. reflexivity.
  - rewrite <- seq_shift, map_map. apply map_ext. intros j.
    replace (used g + 12 * S j)%nat with (used g + 12 + 12 * j)%nat by lia.
    reflexivity.
Qed.

Lemma nonces_length n g : Forall (fun b => List.length b = 12%nat) (nonces n g).
Proof.
  apply Forall_forall. intros b Hb. unfold nonces in Hb.
  apply in_map_iff in Hb as (j & <- & _).
  now rewrite length_map, length_seq.
Qed.

Section WithProvider.
Context {provider : WebCrypto}.

Lemma encrypt_times_value n data key : forall g,
  fst (encrypt_times n data key g)
  = map (fun nonce => Ok (encrypted_with data key nonce)) (nonces n g).
Proof.
  induction n as [|n IH]; intros g; [reflexivity|].
  cbn [encrypt_times]. rewrite encryptData_value. cbv zeta.
  specialize (IH {| entropy := entropy g; used := (used g + 12)%nat |}).
  destruct (encrypt_times n data key _) as [rs g2].
  cbn [fst] in *. rewrite nonces_succ. cbn [map]. now rewrite IH.
Qed.

(** C6. Every call of [encryptData] takes the next 12 bytes of the CSPRNG
    as its nonce, whatever the key and the data.  Hence, when the CSPRNG
    gives out n distinct 12-byte blocks, and AES-GCM under the key sends the
    data to distinct ciphertexts for distinct 12-byte nonces (as it does),
    encrypting the same data with the same key n times yields n results whose
    nonces are the base64 texts of those blocks, n distinct nonces and n
    distinct ciphertexts. *)
Theorem encryptData_fresh_nonce (data : jsstring) (key : CryptoKey) (g : Rng)
  (n : nat) :
  NoDup (nonces n g) ->
  (forall iv1 iv2,
      List.length iv1 = 12%nat -> List.length iv2 = 12%nat ->
      aes_gcm_encrypt key iv1 (stringToArrayBuffer data)
      = aes_gcm_encrypt key iv2 (stringToArrayBuffer data) ->
      iv1 = iv2) ->
  exists outs,
    fst (encrypt_times n data key g) = map Ok outs /\
    Forall (fun b => List.length b = 12%nat) (nonces n g) /\
    map iv outs = map (fun b => encode_groups (map Byte.to_N b)) (nonces n g) /\
    NoDup (map iv outs) /\
    NoDup (map encryptedData outs).
Proof.
  intros Hfresh Haes.
  exists (map (encrypted_with data key) (nonces n g)).
  rewrite encrypt_times_value, !map_map. cbn [iv encryptedData encrypted_with].
  pose proof (nonces_length n g) as Hlen. rewrite Forall_forall in Hlen.
  repeat split; auto using nonces_length.
  - apply NoDup_map_NoDup_ForallPairs; auto.
    intros b1 b2 _ _. apply encode_buffer_inj.
  - apply NoDup_map_NoDup_ForallPairs; auto.
    intros b1 b2 H1 H2 E. apply encode_buffer_inj in E.
    apply Haes; auto.
Qed.

End WithProvider.

Ltac distinct_lists :=
  repeat (apply NoDup_cons; [cbn; intuition discriminate|]); apply NoDup_nil.

(** Three encryptions of one text under one key on the model provider. *)
Lemma encryptData_fresh_nonce_witness :
  exists outs,
    fst (@encrypt_times model_provider 3 (lit "secret") Samples.sample_key
           Samples.sample_rng) = map Ok outs /\
    Forall (fun b => List.length b = 12%nat) (nonces 3 Samples.sample_rng) /\
    map iv outs
    = map (fun b => encode_groups (map Byte.to_N b))
        (nonces 3 Samples.sample_rng) /\
    NoDup (map iv outs) /\
    NoDup (map encryptedData outs).
Proof.
  apply (@encryptData_fresh_nonce model_provider).
  - vm_compute. distinct_lists.
  - intros iv1 iv2 _ _ E. cbn in E. now apply app_inv_tail in E.
Defined.

End NonceFacts.

(** ** A record that does not decrypt: the batch helper and the loader *)

Module BatchFacts.

Import Json Encryption UseCrypto VaultContext.




Section WithProvider.
Context {provider : WebCrypto}.



End WithProvider.



End BatchFacts.

(** ** lib/crypto/keys.ts: [verifyMasterPassword] *)

Module KeysFacts.

Import Base64 Codec Keys.
Import Basics CodecFacts.

Section WithProvider.
Context {provider : WebCrypto}.

Lemma hashPassword_value password salt :
  hashPassword password salt
  = Ok (encode_groups
          (map Byte.to_N
             (pbkdf2 (stringToArrayBuffer password) salt PBKDF2_ITERATIONS 256))).
Proof. unfold hashPassword. apply arrayBufferToBase64_ok. Qed.

Lemma verifyMasterPassword_value masterPassword storedSalt storedHash salt :
  base64ToUint8Array storedSalt = Ok salt ->
  verifyMasterPassword masterPassword storedSalt storedHash
  = Ok (str_eqb
          (encode_groups
             (map Byte.to_N
                (pbkdf2 (stringToArrayBuffer masterPassword) salt
                   PBKDF2_ITERATIONS 256)))
          storedHash).
Proof.
  intros H. unfold verifyMasterPassword. rewrite H. cbn [bind].
  now rewrite hashPassword_value.
Qed.


End WithProvider.

(** The salt a vault stores is the base64 text of its 16 bytes. *)
Lemma stored_salt_decodes salt :
  exists s, uint8ArrayToBase64 salt = Ok s /\ base64ToUint8Array s = Ok salt.
Proof.
  eexists. split; [apply arrayBufferToBase64_ok|].
  apply base64ToArrayBuffer_encode.
Qed.


End KeysFacts.

(** ** [useCrypto]: the session *)

Module UseCryptoFacts.

Import Codec Keys Encryption UseCrypto.

Section WithProvider.
Context {provider : WebCrypto}.

Lemma no_key_locked_out w : keyRef (snd w) = None -> locked_out w.
Proof.
  intros H. unfold locked_out, encrypt, decrypt, encryptBatch, decryptBatch.
  rewrite H. repeat split.
Qed.

Lemma unlock_cases pw salt authHash st :
  unlock pw salt authHash st = (Ok false, st) \/
  exists key, unlock pw salt authHash st = (Ok true, set_key key).
Proof.
  unfold unlock.
  destruct (verifyMasterPassword pw salt authHash) as [[|]|]; auto.
  destruct (unlockVault pw salt); eauto.
Qed.

(** A call that is no successful [unlock] or [initializeVault] leaves a
    session without key without key. *)
Lemma step_keeps_locked c w :
  keyRef (snd w) = None /\ encryptionKey (snd w) = None ->
  installs_key (fst (step c w)) = false ->
  keyRef (snd (snd (step c w))) = None /\
  encryptionKey (snd (snd (step c w))) = None.
Proof.
  destruct w as [g st]. cbn [snd]. intros [Href Hkey] Hno.
  destruct c; cbn [step] in *.
  - unfold initializeVault in *.
    destruct (initializeMasterPassword masterPassword g) as [[r|e] g'];
      cbn in *; [discriminate|auto].
  - destruct (unlock_cases masterPassword salt authHash st) as [E|[key E]];
      rewrite E in *; cbn in *; [auto|discriminate].
  - cbn. auto.
  - destruct (encrypt data g st); cbn; auto.
  - cbn. auto.
  - destruct (encryptBatch secrets g st); cbn; auto.
  - cbn. auto.
Qed.

(** The two cells always hold the same key: the session has one key or
    none. *)
Lemma step_one_key c w :
  encryptionKey (snd w) = keyRef (snd w) ->
  encryptionKey (snd (snd (step c w))) = keyRef (snd (snd (step c w))).
Proof.
  destruct w as [g st]. cbn [snd]. intros H.
  destruct c; cbn [step].
  - unfold initializeVault.
    destruct (initializeMasterPassword masterPassword g) as [[r|e] g'];
      cbn; auto.
  - destruct (unlock_cases masterPassword salt authHash st) as [E|[key E]];
      rewrite E; cbn; auto.
  - reflexivity.
  - destruct (encrypt data g st); cbn; auto.
  - exact H.
  - destruct (encryptBatch secrets g st); cbn; auto.
  - exact H.
Qed.

(** A successful [unlock] or [initializeVault] installs a key. *)
Lemma step_installs c w :
  installs_key (fst (step c w)) = true ->
  exists key, snd (snd (step c w)) = set_key key.
Proof.
  destruct w as [g st]. intros H.
  destruct c; cbn [step] in *; try discriminate.
  - unfold initializeVault in *.
    destruct (initializeMasterPassword masterPassword g) as [[r|e] g'];
      cbn in *; [eauto|discriminate].
  - destruct (unlock_cases masterPassword salt authHash st) as [E|[key E]];
      rewrite E in *; cbn in *; [discriminate|eauto].
  - destruct (encrypt data g st); cbn in *; discriminate.
  - destruct (encryptBatch secrets g st); cbn in *; discriminate.
Qed.

(** C2. [lock] clears the key whatever the state.  In every state reached
    after a [lock] by calls none of which is a successful [unlock] or
    [initializeVault], the session holds no key and [encrypt], [decrypt],
    [encryptBatch] and [decryptBatch] all throw the vault-locked error; the
    call that ends this is one that installs a key; and in every state the
    hook can be in, its two cells hold the same key or none. *)
Theorem lock_invariant (g : Rng) (st : CryptoState) :
  lock st = initial /\
  (forall w,
      reaches_without_key (g, lock st) w ->
      keyRef (snd w) = None /\ encryptionKey (snd w) = None /\ locked_out w) /\
  (forall c w,
      installs_key (fst (step c w)) = true ->
      exists key, snd (snd (step c w)) = set_key key) /\
  (forall w, reachable w -> encryptionKey (snd w) = keyRef (snd w)).
Proof.
  split; [reflexivity|]. split; [|split].
  - intros w H.
    assert (keyRef (snd w) = None /\ encryptionKey (snd w) = None) as [H1 H2].
    { remember (g, lock st) as w0 eqn:E0.
      induction H as [w0|w0 c w' H IH Hno]; subst; [cbn; auto|].
      apply step_keeps_locked; auto. }
    auto using no_key_locked_out.
  - apply step_installs.
  - intros w H. induction H as [g'|c w H IH]; [reflexivity|].
    now apply step_one_key.
Qed.

(** C3, as the code has it.  [unlock] never throws: its result is a
    boolean for every input.  For a wrong master password (the recomputed
    hash differs from the stored [authHash]) it returns false and leaves the
    session as it was, so a locked session stays locked; and when the
    verification itself throws, as it does for a salt that is no base64, the
    exception is caught and [unlock] returns false as well. *)
Theorem unlock_reports_failure_as_false (masterPassword salt authHash : jsstring)
  (st : CryptoState) :
  (exists b, fst (unlock masterPassword salt authHash st) = Ok b) /\
  (forall saltBytes hash,
      base64ToUint8Array salt = Ok saltBytes ->
      hashPassword masterPassword saltBytes = Ok hash ->
      hash <> authHash ->
      unlock masterPassword salt authHash st = (Ok false, st)) /\
  (forall e,
      verifyMasterPassword masterPassword salt authHash = Throw e ->
      unlock masterPassword salt authHash st = (Ok false, st)).
Proof.
  split; [|split].
  - destruct (unlock_cases masterPassword salt authHash st) as [E|[key E]];
      rewrite E; cbn [fst]; eauto.
  - intros saltBytes hash Hs Hh Hneq. unfold unlock, verifyMasterPassword.
    rewrite Hs. cbn [bind]. rewrite Hh. cbn [bind].
    now rewrite (proj2 (Basics.str_eqb_neq hash authHash) Hneq).
  - intros e He. unfold unlock. now rewrite He.
Qed.

End WithProvider.

(** C3 as stated fails on a malformed salt: the text [!] is no base64, the
    verification throws, and [unlock] does not throw, it returns false. *)
Lemma unlock_malformed_salt_returns_false :
  base64ToUint8Array (lit "!") = Throw InvalidCharacterError /\
  @verifyMasterPassword model_provider (lit "hunter2") (lit "!") (lit "aGFzaA==")
  = Throw InvalidCharacterError /\
  @unlock model_provider (lit "hunter2") (lit "!") (lit "aGFzaA==") initial
  = (Ok false, initial).
Proof. vm_compute. repeat split. Qed.

(** A session that is locked, and then a failed [unlock] (wrong password):
    still locked out. *)
Lemma lock_invariant_witness :
  keyRef (snd (snd (@step model_provider
                      (CallUnlock (lit "hunter2") (lit "c2FsdA==") (lit "aGFzaA=="))
                      (Samples.sample_rng, lock Samples.sample_session))))
  = None /\
  encryptionKey
    (snd (snd (@step model_provider
                 (CallUnlock (lit "hunter2") (lit "c2FsdA==") (lit "aGFzaA=="))
                 (Samples.sample_rng, lock Samples.sample_session))))
  = None /\
  locked_out
    (snd (@step model_provider
            (CallUnlock (lit "hunter2") (lit "c2FsdA==") (lit "aGFzaA=="))
            (Samples.sample_rng, lock Samples.sample_session))).
Proof.
  apply (proj1 (proj2 (@lock_invariant model_provider Samples.sample_rng
                         Samples.sample_session))).
  apply reaches_step; [apply reaches_refl|].
  vm_compute. reflexivity.
Defined.

(** A stored salt, a stored hash of another password, a locked session. *)
Lemma unlock_reports_failure_as_false_witness :
  @unlock model_provider (lit "hunter2") (lit "c2FsdA==") (lit "aGFzaA==")
    initial
  = (Ok false, initial).
Proof.
  apply (proj1 (proj2 (@unlock_reports_failure_as_false model_provider
                         (lit "hunter2") (lit "c2FsdA==") (lit "aGFzaA==")
                         initial))
           [byte_of_N 115; byte_of_N 97; byte_of_N 108; byte_of_N 116]
           (lit "aHVudGVyMnNhbHQ=")).
  - vm_compute. reflexivity.
  - vm_compute. reflexivity.
  - vm_compute. discriminate.
Defined.

End UseCryptoFacts.

(** ** lib/password-generator.ts: two passwords scored *)

Module PasswordGeneratorFacts.

Import PasswordGenerator.

(** C9. ["aaaaaaaa"] scores 10 for its length (8), 10 for one character
    class and floor(1/8 * 20) = 2 for its unique characters: 22, weak.
    ["Tr0ub4dor&3XyZ!"] (15 code units, 14 of them distinct) scores 20 for
    its length (at least 8 and 12, below 16), 40 for four character classes
    and floor(14/15 * 20) = 18: 78, very-strong. *)
Theorem strength_of_sample_passwords :
  calculatePasswordStrength (lit "aaaaaaaa") = weak /\
  (length_score (lit "aaaaaaaa"), variety_score (lit "aaaaaaaa"),
   complexity_bonus (lit "aaaaaaaa")) = (10, 10, 2)%nat /\
  calculatePasswordStrength (lit "Tr0ub4dor&3XyZ!") = very_strong /\
  (length_score (lit "Tr0ub4dor&3XyZ!"), variety_score (lit "Tr0ub4dor&3XyZ!"),
   complexity_bonus (lit "Tr0ub4dor&3XyZ!")) = (20, 40, 18)%nat.
Proof. vm_compute. repeat split. Qed.

End PasswordGeneratorFacts.

(** ** lib/security-analyzer.ts: the counters, the issues, the score *)

Module SecurityAnalyzerFacts.

Import Num PasswordGenerator SecurityAnalyzer Basics.

Lemma count_app {A} (p : A -> bool) l1 l2 :
  count p (l1 ++ l2) = (count p l1 + count p l2)%nat.
Proof. unfold count. now rewrite filter_app, length_app. Qed.

Lemma count_complement {A} (p : A -> bool) l :
  (count p l + count (fun x => negb (p x)) l = List.length l)%nat.
Proof.
  unfold count. induction l as [|x l IH]; auto.
  cbn [filter]. destruct (p x); cbn [negb List.length]; lia.
Qed.

Lemma insert_issue_In x i l : In x (insert_issue i l) <-> x = i \/ In x l.
Proof.
  induction l as [|j l IH]; cbn [insert_issue].
  - cbn. intuition auto.
  - destruct (_ <? _)%nat; cbn [In]; rewrite ?IH; intuition auto.
Qed.

Lemma sort_issues_In x l : In x (sort_issues l) <-> In x l.
Proof.
  unfold sort_issues. induction l as [|i l IH]; cbn [fold_right]; [tauto|].
  rewrite insert_issue_In, IH. cbn [In]. intuition auto.
Qed.

Lemma counted_strong_not_weak s : counted_strong s = negb (counted_weak s).
Proof.
  unfold counted_strong, counted_weak.
  now destruct (calculatePasswordStrength (password s)).
Qed.

Lemma reused_count_weight m : reused_count m = weight_sum m.
Proof.
  unfold reused_count.
  assert (forall a,
    fold_left
      (fun n entry =>
         if (1 <? List.length (snd entry))%nat
         then (n + List.length (snd entry))%nat else n) m a
    = (a + weight_sum m)%nat) as H.
  { induction m as [|e m IH]; intros a; cbn [fold_left weight_sum]; [lia|].
    rewrite IH. unfold group_weight. destruct (1 <? _)%nat; lia. }
  apply H.
Qed.

Lemma map_push_size m p i q :
  group_size (map_push m p i) q
  = if str_eqb p q then S (group_size m p) else group_size m q.
Proof.
  induction m as [|[k ids] m IH]; cbn [map_push group_size].
  - destruct (str_eqb p q); reflexivity.
  - destruct (str_eqb k p) eqn:Ekp; cbn [group_size].
    + apply str_eqb_eq in Ekp. subst k.
      destruct (str_eqb p q); auto. rewrite length_app. cbn. lia.
    + rewrite IH.
      destruct (str_eqb p q) eqn:Epq; auto.
      apply str_eqb_eq in Epq. subst q. now rewrite Ekp.
Qed.

Lemma map_push_weight m p i :
  (weight_sum (map_push m p i) + group_weight (group_size m p)
   = weight_sum m + group_weight (S (group_size m p)))%nat.
Proof.
  induction m as [|[k ids] m IH]; cbn [map_push group_size weight_sum].
  - cbn. lia.
  - destruct (str_eqb k p); cbn [weight_sum snd].
    + rewrite length_app. cbn [List.length].
      replace (List.length ids + 1)%nat with (S (List.length ids)) by lia. lia.
    + lia.
Qed.

Lemma count_ext_in {A} (p q : A -> bool) l :
  (forall x, In x l -> p x = q x) -> count p l = count q l.
Proof. intros H. unfold count. now rewrite (filter_ext_in p q l H). Qed.

Lemma str_eqb_sym a b : str_eqb a b = str_eqb b a.
Proof.
  destruct (str_eqb a b) eqn:E.
  - apply str_eqb_eq in E. subst. now rewrite str_eqb_refl.
  - symmetry. apply str_eqb_neq. apply str_eqb_neq in E. congruence.
Qed.

Lemma count_single {A} (p : A -> bool) x :
  count p [x] = if p x then 1%nat else 0%nat.
Proof. unfold count. cbn [filter]. now destruct (p x). Qed.

(** Counting with one password set apart. *)
Lemma count_split p (b : bool) (Q : SecretData -> bool) l :
  count (fun x => if has_password p x then b else Q x) l
  = (count (fun x => negb (has_password p x) && Q x) l
     + if b then count (has_password p) l else 0)%nat.
Proof.
  unfold count. induction l as [|x l IH]; [now destruct b|].
  cbn [filter]. destruct (has_password p x), b, (Q x);
    cbn [negb andb List.length]; lia.
Qed.

(** One more record: what it adds to the records that share a password. *)
Lemma shares_password_snoc l s :
  (count (shares_password (l ++ [s])) (l ++ [s])
   + group_weight (count (has_password (password s)) l)
   = count (shares_password l) l
     + group_weight (S (count (has_password (password s)) l)))%nat.
Proof.
  set (p := password s). set (c := count (has_password p) l).
  assert (forall x, has_password p x = true ->
                    count (has_password (password x)) l = c) as Hsame.
  { intros x Hx. apply str_eqb_eq in Hx. now rewrite Hx. }
  rewrite count_app.
  rewrite (count_ext_in (shares_password (l ++ [s]))
             (fun x => if has_password p x then (1 <? S c)%nat
                       else shares_password l x) l).
  2:{ intros x _. unfold shares_password. rewrite count_app, count_single.
      change (has_password (password x) s) with (str_eqb p (password x)).
      rewrite str_eqb_sym. fold (has_password p x).
      destruct (has_password p x) eqn:Hx.
      - rewrite (Hsame x Hx). now replace (c + 1)%nat with (S c) by lia.
      - now rewrite Nat.add_0_r. }
  rewrite (count_ext_in (shares_password l)
             (fun x => if has_password p x then (1 <? c)%nat
                       else shares_password l x) l).
  2:{ intros x _. destruct (has_password p x) eqn:Hx; auto.
      unfold shares_password. now rewrite (Hsame x Hx). }
  rewrite !count_split. fold c.
  assert (count (shares_password (l ++ [s])) [s]
          = if (1 <? S c)%nat then 1%nat else 0%nat) as ->.
  { rewrite count_single. unfold shares_password.
    rewrite count_app, count_single. fold p. fold c.
    unfold has_password. fold p. rewrite str_eqb_refl.
    now replace (c + 1)%nat with (S c) by lia. }
  unfold group_weight.
  destruct c as [|[|c]]; cbn [Nat.ltb Nat.leb]; lia.
Qed.





(** Doubles, not fractions: for 14 records of which 1 is weak, 2 are reused
    and 5 are stale the score before rounding is 92.49999999999999 and
    rounds to 92, where the exact value 92.5 would round to 93. *)
Example score_of_14_records :
  calculateOverallScore 14 1 2 5 13 = 92%nat.
Proof. vm_compute. reflexivity. Qed.

Section WithDates.
Context {dates : DateParser}.

Lemma first_pass_fold now l : forall acc,
  let r := fold_left (first_pass_step now) l acc in
  weakCount r = (weakCount acc + count counted_weak l)%nat /\
  strongCount r = (strongCount acc + count counted_strong l)%nat /\
  oldCount r = (oldCount acc + count (is_old now) l)%nat /\
  passwordMap r
  = fold_left (fun m s => map_push m (password s) (id s)) l (passwordMap acc).
Proof.
  induction l as [|s l IH]; intros acc; cbn zeta.
  - unfold count. cbn. repeat split; lia.
  - cbn [fold_left]. destruct (IH (first_pass_step now acc s)) as (Hw & Hs & Ho & Hm).
    rewrite Hw, Hs, Ho, Hm. unfold count. cbn [filter first_pass_step
      weakCount strongCount oldCount passwordMap].
    unfold counted_weak, counted_strong, is_weak.
    destruct (calculatePasswordStrength (password s)), (is_old now s);
      cbn [List.length]; repeat split; lia.
Qed.

Lemma build_size l q : group_size (build l) q = count (has_password q) l.
Proof.
  unfold build. induction l as [|s l IH] using rev_ind; [reflexivity|].
  rewrite fold_left_app. cbn [fold_left].
  rewrite map_push_size, count_app, count_single.
  unfold has_password at 2.
  destruct (str_eqb (password s) q) eqn:E.
  - apply str_eqb_eq in E. subst q. rewrite IH. lia.
  - rewrite IH. lia.
Qed.

Lemma build_reused l : reused_count (build l) = count (shares_password l) l.
Proof.
  rewrite reused_count_weight.
  induction l as [|s l IH] using rev_ind; [reflexivity|].
  pose proof (build_size l (password s)) as Hsize.
  pose proof (map_push_weight (build l) (password s) (id s)) as Hpush.
  pose proof (shares_password_snoc l s) as Hsnoc.
  unfold build in *. rewrite fold_left_app. cbn [fold_left].
  rewrite Hsize in Hpush. lia.
Qed.

Lemma analyze_counts now l :
  weakPasswords (score (analyzeSecrets now l)) = count counted_weak l /\
  strongPasswords (score (analyzeSecrets now l)) = count counted_strong l /\
  oldPasswords (score (analyzeSecrets now l)) = count (is_old now) l /\
  reusedPasswords (score (analyzeSecrets now l)) = count (shares_password l) l.
Proof.
  unfold analyzeSecrets. cbn [score weakPasswords strongPasswords oldPasswords
    reusedPasswords].
  unfold first_pass.
  destruct (first_pass_fold now l
              {| passwordMap := []; weakCount := 0; oldCount := 0;
                 strongCount := 0 |}) as (Hw & Hs & Ho & Hm).
  cbn [weakCount strongCount oldCount passwordMap] in *.
  rewrite Hw, Hs, Ho, Hm. repeat split; auto.
  apply build_reused.
Qed.

(** C10. In [analyzeSecrets], [weakPasswords] counts the records whose
    password is classified weak or medium, [strongPasswords] those
    classified strong or very-strong, so the two add up to the number of
    records; and every record classified medium has its weak-password issue,
    of severity high, in the report. *)
Theorem medium_counted_as_weak (now : Z) (secrets : list SecretData) :
  weakPasswords (score (analyzeSecrets now secrets))
  = count counted_weak secrets /\
  strongPasswords (score (analyzeSecrets now secrets))
  = count counted_strong secrets /\
  (weakPasswords (score (analyzeSecrets now secrets))
   + strongPasswords (score (analyzeSecrets now secrets))
   = List.length secrets)%nat /\
  (forall s,
      In s secrets -> calculatePasswordStrength (password s) = medium ->
      counted_weak s = true /\
      exists i,
        In i (issues (analyzeSecrets now secrets)) /\
        issue_id i = lit "weak-" ++ id s /\
        issue_type i = issue_weak /\
        severity i = high /\
        secretIds i = [id s]).
Proof.
  destruct (analyze_counts now secrets) as (Hw & Hs & _ & _).
  rewrite Hw, Hs. split; [reflexivity|]. split; [reflexivity|]. split.
  { rewrite <- (count_complement counted_weak secrets). f_equal.
    apply count_ext_in. intros x _. apply counted_strong_not_weak. }
  intros s Hin Hmedium. split.
  - unfold counted_weak. now rewrite Hmedium.
  - pose proof (fun i => proj2 (sort_issues_In i
      (flat_map weak_issue secrets
       ++ flat_map (reused_issue secrets)
            (passwordMap (first_pass now secrets))
       ++ flat_map (old_issue now) secrets))) as Hsort.
    unfold analyzeSecrets. cbn [issues].
    eexists. split.
    + apply Hsort. apply in_or_app. left. apply in_flat_map.
      exists s. split; [assumption|].
      unfold weak_issue. rewrite Hmedium. cbn [is_weak]. left. reflexivity.
    + cbn. auto.
Qed.


End WithDates.

(** Record C of the sample, of medium strength: counted as weak, with its
    issue of severity high. *)
Lemma medium_counted_as_weak_witness :
  counted_weak (Samples.sample_record "C" "abcdefgh" "1699136000000") = true /\
  exists i,
    In i (issues (@analyzeSecrets Samples.model_dates Samples.sample_now
                    Samples.sample_secrets)) /\
    issue_id i
    = lit "weak-" ++ id (Samples.sample_record "C" "abcdefgh" "1699136000000") /\
    issue_type i = issue_weak /\
    severity i = high /\
    secretIds i = [id (Samples.sample_record "C" "abcdefgh" "1699136000000")].
Proof.
  apply (proj2 (proj2 (proj2
           (@medium_counted_as_weak Samples.model_dates Samples.sample_now
              Samples.sample_secrets)))).
  - right. right. left. reflexivity.
  - vm_compute. reflexivity.
Defined.


(** The same report, evaluated: 1 weak-or-medium record, 2 reused, 1 stale,
    2 strong of 3; 100 - 13.33 - 20 - 5 = 61.67, no bonus, score 62. *)
Example sample_report_score :
  score (@analyzeSecrets Samples.model_dates Samples.sample_now
           Samples.sample_secrets)
  = {| overall := 62; weakPasswords := 1; reusedPasswords := 2;
       oldPasswords := 1; strongPasswords := 2 |}.
Proof. vm_compute. reflexivity. Qed.

End SecurityAnalyzerFacts.

(** ** [./utils]: what base64 keeps and what it refuses *)

Module CodecMoreFacts.

Import Base64 Utf8 Codec.
Import Basics Base64Facts CodecFacts Utf8Facts.

Lemma encode_groups_length s :
  List.length (encode_groups s) = (4 * ((List.length s + 2) / 3))%nat.
Proof.
  induction s as [|a|a b|a b c rest IH] using list_ind3; try reflexivity.
  cbn [encode_groups List.length]. rewrite IH.
  replace (S (S (S (List.length rest))) + 2)%nat
    with (List.length rest + 2 + 1 * 3)%nat by lia.
  rewrite Nat.div_add by lia. lia.
Qed.


Lemma strip_padding_keeps c s :
  In c s -> c <> pad -> In c (strip_padding s).
Proof.
  intros Hin Hc. induction s as [|x s IH]; [contradiction|].
  cbn [strip_padding]. destruct s as [|d [|e s]].
  - destruct Hin as [->|[]]. rewrite (proj2 (N.eqb_neq c pad) Hc). now left.
  - destruct Hin as [->|[->|[]]].
    + rewrite (proj2 (N.eqb_neq c pad) Hc). cbn [andb]. now left.
    + destruct (x =? pad); cbn [andb].
      * rewrite (proj2 (N.eqb_neq c pad) Hc). right.
        cbn. rewrite (proj2 (N.eqb_neq c pad) Hc). now left.
      * right. cbn. rewrite (proj2 (N.eqb_neq c pad) Hc). now left.
  - destruct Hin as [->|Hin]; [now left|right; auto].
Qed.

Lemma indices_all s l : indices s = Some l -> forall c, In c s -> b64_index c <> None.
Proof.
  revert l. induction s as [|x s IH]; intros l H c Hin; [contradiction|].
  cbn [indices] in H. destruct (b64_index x) eqn:Ex; [|discriminate].
  destruct (indices s) eqn:Es; [|discriminate].
  destruct Hin as [->|Hin]; [congruence|eauto].
Qed.

(** X2. A text with a character that is neither of the base64 alphabet,
    nor the padding sign, nor ASCII whitespace is refused by
    [base64ToArrayBuffer] and [base64ToUint8Array]: they throw the
    InvalidCharacterError, wherever the character stands. *)
Theorem base64_rejects_foreign_characters (text : jsstring) (c : N) :
  In c text -> b64_index c = None -> c <> pad -> ascii_whitespace c = false ->
  base64ToArrayBuffer text = Throw InvalidCharacterError /\
  base64ToUint8Array text = Throw InvalidCharacterError.
Proof.
  intros Hin Hc Hpad Hws.
  assert (atob text = Throw InvalidCharacterError) as H.
  { unfold atob.
    set (data := filter (fun c => negb (ascii_whitespace c)) text).
    assert (In c data) as Hd.
    { apply filter_In. split; auto. now rewrite Hws. }
    set (data' := if _ =? 0 then strip_padding data else data).
    assert (In c data') as Hd'.
    { subst data'. destruct (_ =? 0); auto using strip_padding_keeps. }
    destruct (_ =? 1); auto.
    destruct (indices data') eqn:E; auto.
    exfalso. exact (indices_all _ _ E c Hd' Hc). }
  unfold base64ToUint8Array, base64ToArrayBuffer. now rewrite H.
Qed.

Lemma base64_rejects_foreign_characters_witness :
  base64ToArrayBuffer (lit "aGVs!G8=") = Throw InvalidCharacterError /\
  base64ToUint8Array (lit "aGVs!G8=") = Throw InvalidCharacterError.
Proof.
  apply (base64_rejects_foreign_characters (lit "aGVs!G8=") 33).
  - vm_compute. auto 6.
  - reflexivity.
  - discriminate.
  - reflexivity.
Defined.

End CodecMoreFacts.

(** ** [./utils]: text to bytes and back *)

Module TextFacts.

Import Utf8 Codec.
Import Basics Utf8Facts.

Lemma decode_no_mark buffer :
  (forall rest, buffer <> xef :: xbb :: xbf :: rest) ->
  TextDecoder_decode buffer = decode_loop None buffer.
Proof.
  intros H.
  destruct buffer as [|b1 buffer]; [reflexivity|]. destruct b1; try reflexivity.
  destruct buffer as [|b2 buffer]; [reflexivity|]. destruct b2; try reflexivity.
  destruct buffer as [|b3 rest]; [reflexivity|]. destruct b3; try reflexivity.
  now destruct (H rest).
Qed.

Lemma byte_of_N_is n b : n <= 255 -> byte_of_N n = b -> n = Byte.to_N b.
Proof. intros Hn <-. now rewrite to_N_byte_of_N. Qed.

Ltac first_byte E :=
  apply (f_equal (fun l => nth 0 l x00)) in E; cbn [nth] in E;
  apply byte_of_N_is in E; [|lia];
  change (Byte.to_N xef) with 239 in E.

Lemma encode_scalar_no_mark c tail rest :
  c <> 65279 -> c < 1114112 ->
  encode_scalar c ++ tail <> xef :: xbb :: xbf :: rest.
Proof.
  intros Hc Hlt. unfold encode_scalar.
  assert (c < 128 \/ 128 <= c < 2048 \/ 2048 <= c < 65536 \/ 65536 <= c)
    as [C|[C|[C|C]]] by lia; settle; cbn [app]; intros E.
  - first_byte E. lia.
  - first_byte E. lia.
  - pose proof (f_equal (fun l => nth 1 l x00) E) as E2.
    pose proof (f_equal (fun l => nth 2 l x00) E) as E3.
    cbn [nth] in E2, E3. apply byte_of_N_is in E2, E3; try lia.
    first_byte E. change (Byte.to_N xbb) with 187 in E2.
    change (Byte.to_N xbf) with 191 in E3. lia.
  - first_byte E. lia.
Qed.

Lemma encode_no_mark s rest :
  well_formed s -> (forall tail, s <> 65279 :: tail) ->
  TextEncoder_encode s <> xef :: xbb :: xbf :: rest.
Proof.
  unfold TextEncoder_encode.
  intros Hwf Hs. destruct Hwf as [|c s Hc Hsur Hwf|h l s Hh Hl Hwf].
  - discriminate.
  - assert (c <> 65279) as Hne by (intros ->; now apply (Hs s)).
    pose proof (not_surrogate c Hsur) as Hr.
    cbn [to_scalars]. unfold is_high_surrogate, is_low_surrogate.
    destruct Hr; settle; cbn [flat_map]; apply encode_scalar_no_mark; lia.
  - cbn [to_scalars]. rewrite Hh, Hl.
    apply high_surrogate in Hh. apply low_surrogate in Hl.
    cbn [flat_map]. apply encode_scalar_no_mark; lia.
Qed.

Lemma text_kept str :
  well_formed str -> (forall tail, str <> 65279 :: tail) ->
  arrayBufferToString (stringToArrayBuffer str) = str.
Proof.
  intros Hwf Hs. unfold arrayBufferToString, stringToArrayBuffer.
  rewrite decode_no_mark by (intros rest; now apply encode_no_mark).
  now apply utf8_round_trip.
Qed.

Lemma leading_mark_lost str :
  well_formed str ->
  arrayBufferToString (stringToArrayBuffer (65279 :: str)) = str.
Proof.
  intros Hwf. unfold arrayBufferToString, stringToArrayBuffer.
  change (TextEncoder_encode (65279 :: str))
    with (xef :: xbb :: xbf :: TextEncoder_encode str).
  cbn [TextDecoder_decode]. now apply utf8_round_trip.
Qed.

(** X3. Text to bytes and back: a well-formed string (every surrogate in a
    pair) that does not start with U+FEFF survives [stringToArrayBuffer] and
    [arrayBufferToString] unchanged; a leading U+FEFF does not survive, the
    decoder drops the byte order mark that the encoder wrote and returns the
    rest of the string. *)
Theorem text_round_trip (str : jsstring) :
  well_formed str ->
  ((forall tail, str <> 65279 :: tail) ->
   arrayBufferToString (stringToArrayBuffer str) = str) /\
  arrayBufferToString (stringToArrayBuffer (65279 :: str)) = str.
Proof.
  intros Hwf. split; [now apply text_kept|now apply leading_mark_lost].
Qed.

Lemma text_round_trip_witness :
  arrayBufferToString (stringToArrayBuffer (lit "caf" ++ [233; 55357; 56832]))
  = lit "caf" ++ [233; 55357; 56832] /\
  arrayBufferToString
    (stringToArrayBuffer (65279 :: lit "caf" ++ [233; 55357; 56832]))
  = lit "caf" ++ [233; 55357; 56832].
Proof.
  destruct (text_round_trip (lit "caf" ++ [233; 55357; 56832])) as (H1 & H2).
  - repeat first [ apply wf_nil
                 | apply wf_pair; [reflexivity|reflexivity|]
                 | apply wf_unit; [reflexivity|reflexivity|] ].
  - split; [apply H1; discriminate|exact H2].
Defined.

End TextFacts.

(** ** Encryption, keys and the hook, end to end *)

Module VaultCryptoFacts.

Import Base64 Utf8 Json Codec Keys Encryption UseCrypto.
Import Basics Base64Facts CodecFacts Utf8Facts JsonFacts.
Import EncryptionFacts KeysFacts CodecMoreFacts.

Lemma with_id_properties id secret :
  with_id id (defined (properties secret))
  = (lit "id", id) :: defined (properties secret).
Proof.
  unfold with_id, properties.
  destruct (username secret), (url secret), (notes secret); reflexivity.
Qed.

Section WithProvider.
Context {provider : WebCrypto}.

(** What [encryptSecret] wrote, [decryptSecret] reads. *)
Lemma decryptSecret_encrypted R K nonce :
  wf_secret R ->
  (forall iv data, aes_gcm_decrypt K iv (aes_gcm_encrypt K iv data) = Some data) ->
  decryptSecret
    (encode_groups
       (map Byte.to_N
          (aes_gcm_encrypt K nonce
             (stringToArrayBuffer (JSON_stringify (properties R))))))
    (encode_groups (map Byte.to_N nonce)) K
  = Ok (defined (properties R)).
Proof.
  intros Hwf Haes. unfold decryptSecret.
  rewrite decryptData_encrypted by apply Haes. cbn [bind].
  pose proof (properties_wf R Hwf) as Hm.
  unfold arrayBufferToString, stringToArrayBuffer.
  unfold JSON_stringify at 1.
  rewrite utf8_round_trip_braced by (now apply (stringify_well_formed _ Hm)).
  change (123 :: members (defined (properties R)) ++ [125])
    with (JSON_stringify (properties R)).
  rewrite parse_stringify by assumption.
  now rewrite parsed_properties.
Qed.



(** X5. A record encrypted under a key K1 is not decrypted under a key K2
    that AES-GCM rejects on the ciphertexts of K1: [decryptData] and
    [decryptSecret] both throw [decryption_failed]. *)
Theorem wrong_key_rejected (R : PlainSecret) (K1 K2 : CryptoKey) (g : Rng) :
  (forall iv data, aes_gcm_decrypt K2 iv (aes_gcm_encrypt K1 iv data) = None) ->
  exists e,
    fst (encryptSecret R K1 g) = Ok e /\
    decryptData (encryptedData e) (iv e) K2 = Throw decryption_failed /\
    decryptSecret (encryptedData e) (iv e) K2 = Throw decryption_failed.
Proof.
  intros Haes. unfold encryptSecret. rewrite encryptData_value.
  cbv zeta. cbn [fst]. eexists. split; [reflexivity|].
  cbn [encryptedData iv].
  assert (forall nonce plain,
             decryptData
               (encode_groups (map Byte.to_N (aes_gcm_encrypt K1 nonce plain)))
               (encode_groups (map Byte.to_N nonce)) K2
             = Throw decryption_failed) as H.
  { intros nonce plain. unfold decryptData, base64ToUint8Array.
    rewrite !base64ToArrayBuffer_encode. cbn [bind]. now rewrite Haes. }
  split; [apply H|]. unfold decryptSecret. now rewrite H.
Qed.

Lemma batch_value secrets K :
  Forall (fun s => wf_secret (snd s)) secrets ->
  (forall iv data, aes_gcm_decrypt K iv (aes_gcm_encrypt K iv data) = Some data) ->
  forall g, exists encrypted,
    encryptSecretsBatch secrets K g
    = (Ok encrypted,
       {| entropy := entropy g;
          used := (used g + 12 * List.length secrets)%nat |}) /\
    map enc_id encrypted = map fst secrets /\
    decryptSecretsBatch encrypted K
    = Ok (map (fun s => (lit "id", fst s) :: defined (properties (snd s)))
              secrets).
Proof.
  intros Hwf Haes. unfold encryptSecretsBatch, decryptSecretsBatch.
  induction Hwf as [|[id R] rest HR Hrest IH]; intros g.
  - exists []. cbn. rewrite Nat.add_0_r. now destruct g.
  - cbn [Promise_all_map_rng]. unfold encryptSecret at 1.
    rewrite encryptData_value. cbv zeta. cbn [bind].
    match goal with
    | |- context [Promise_all_map_rng _ rest ?g1] =>
        destruct (IH g1) as (encrypted & E & Hid & Hdec)
    end.
    rewrite E. cbn [entropy used encryptedData iv List.length].
    eexists. split; [|split].
    + f_equal. f_equal. lia.
    + cbn [map enc_id fst]. now rewrite Hid.
    + cbn [Promise_all_map enc_id enc_data enc_iv map fst snd].
      rewrite decryptSecret_encrypted by assumption. cbn [bind].
      rewrite Hdec. now rewrite with_id_properties.
Qed.

(** X6. Batch round trip: [encryptSecretsBatch] succeeds on every batch of
    records, keeps the ids in order and draws 12 bytes of the CSPRNG per
    record; [decryptSecretsBatch] of its result under the same key returns,
    in order, the objects with [id] first and then the defined properties
    of each record; and so do the hook's [encryptBatch] and [decryptBatch]
    in a session that holds the key. *)
Theorem batch_round_trip (secrets : list (jsstring * PlainSecret))
  (K : CryptoKey) (g : Rng) :
  Forall (fun s => wf_secret (snd s)) secrets ->
  (forall iv data, aes_gcm_decrypt K iv (aes_gcm_encrypt K iv data) = Some data) ->
  exists encrypted,
    fst (encryptSecretsBatch secrets K g) = Ok encrypted /\
    map enc_id encrypted = map fst secrets /\
    used (snd (encryptSecretsBatch secrets K g))
    = (used g + 12 * List.length secrets)%nat /\
    decryptSecretsBatch encrypted K
    = Ok (map (fun s => (lit "id", fst s) :: defined (properties (snd s)))
              secrets) /\
    forall st, keyRef st = Some K ->
      fst (encryptBatch secrets g st) = Ok encrypted /\
      decryptBatch encrypted st
      = Ok (map (fun s => (lit "id", fst s) :: defined (properties (snd s)))
                secrets).
Proof.
  intros Hwf Haes.
  destruct (batch_value secrets K Hwf Haes g) as (encrypted & E & Hid & Hdec).
  exists encrypted. rewrite E. cbn [fst snd used]. repeat split; auto.
  - unfold encryptBatch. rewrite H. now rewrite E.
  - unfold decryptBatch. now rewrite H.
Qed.

Lemma initializeMasterPassword_value pw g :
  initializeMasterPassword pw g
  = (let salt := map (entropy g) (seq (used g) 16) in
     Ok {| init_encryptionKey := deriveMasterKey pw salt;
           init_authHash :=
             encode_groups
               (map Byte.to_N
                  (pbkdf2 (stringToArrayBuffer pw) salt PBKDF2_ITERATIONS 256));
           init_salt := encode_groups (map Byte.to_N salt) |},
     {| entropy := entropy g; used := (used g + 16)%nat |}).
Proof.
  unfold initializeMasterPassword, generateSalt, getRandomValues,
    uint8ArrayToBase64.
  now rewrite hashPassword_value, arrayBufferToBase64_ok.
Qed.

(** X8. What [initializeMasterPassword] returns opens the vault again: it
    succeeds for every password, draws 16 bytes of the CSPRNG as salt and
    returns them as 24 characters of base64; with that salt and hash
    [verifyMasterPassword] accepts the password and [unlockVault] derives
    the very key that was returned. *)
Theorem initialize_then_unlock (masterPassword : jsstring) (g : Rng) :
  exists r,
    fst (initializeMasterPassword masterPassword g) = Ok r /\
    used (snd (initializeMasterPassword masterPassword g)) = (used g + 16)%nat /\
    List.length (init_salt r) = 24%nat /\
    base64ToUint8Array (init_salt r)
    = Ok (map (entropy g) (seq (used g) 16)) /\
    verifyMasterPassword masterPassword (init_salt r) (init_authHash r)
    = Ok true /\
    unlockVault masterPassword (init_salt r) = Ok (init_encryptionKey r).
Proof.
  rewrite initializeMasterPassword_value. cbv zeta. cbn [fst snd used].
  eexists. split; [reflexivity|]. split; [reflexivity|].
  cbn [init_salt init_authHash init_encryptionKey].
  split; [|split; [|split]].
  - rewrite encode_groups_length, !length_map, length_seq. reflexivity.
  - apply base64ToArrayBuffer_encode.
  - rewrite (verifyMasterPassword_value _ _ _ _ (base64ToArrayBuffer_encode _)).
    now rewrite str_eqb_refl.
  - unfold unlockVault, base64ToUint8Array.
    now rewrite base64ToArrayBuffer_encode.
Qed.

(** X9. A whole session of the hook: after [initializeVault] a secret
    encrypts; after [lock] its decryption throws the vault-locked error;
    [unlock] with the same password and the salt and hash that
    [initializeVault] returned succeeds, and then the secret decrypts to the
    object with the defined properties of the record. *)
Theorem session_round_trip (masterPassword : jsstring) (R : PlainSecret)
  (g : Rng) (st : CryptoState) :
  wf_secret R ->
  (forall K iv data,
      aes_gcm_decrypt K iv (aes_gcm_encrypt K iv data) = Some data) ->
  exists authHash salt g1 st1 e g2 st2,
    initializeVault masterPassword g st = (Ok (authHash, salt), g1, st1) /\
    encrypt R g1 st1 = (Ok e, g2) /\
    decrypt (encryptedData e) (iv e) (lock st1) = Throw vault_locked /\
    unlock masterPassword salt authHash (lock st1) = (Ok true, st2) /\
    isUnlocked st2 = true /\
    decrypt (encryptedData e) (iv e) st2 = Ok (defined (properties R)).
Proof.
  intros Hwf Haes. unfold initializeVault.
  rewrite initializeMasterPassword_value. cbv zeta.
  cbn [init_salt init_authHash init_encryptionKey].
  do 7 eexists. split; [reflexivity|].
  unfold encrypt at 1. cbn [set_key keyRef].
  unfold encryptSecret. rewrite encryptData_value. cbv zeta.
  split; [reflexivity|].
  cbn [encryptedData iv]. split; [reflexivity|].
  unfold unlock.
  rewrite (verifyMasterPassword_value _ _ _ _ (base64ToArrayBuffer_encode _)).
  rewrite str_eqb_refl. unfold unlockVault, base64ToUint8Array.
  rewrite base64ToArrayBuffer_encode. cbn [bind].
  split; [reflexivity|]. split; [reflexivity|].
  unfold decrypt. cbn [set_key keyRef].
  apply decryptSecret_encrypted; auto.
Qed.

End WithProvider.

Lemma wrong_key_rejected_witness :
  exists e,
    fst (@encryptSecret model_provider Samples.sample_secret Samples.sample_key
           Samples.sample_rng) = Ok e /\
    @decryptData model_provider (encryptedData e) (iv e)
      ["k"%byte; "e"%byte; "x"%byte] = Throw decryption_failed /\
    @decryptSecret model_provider (encryptedData e) (iv e)
      ["k"%byte; "e"%byte; "x"%byte] = Throw decryption_failed.
Proof.
  apply (@wrong_key_rejected model_provider).
  intros iv data. cbn. now rewrite strip_prefix_app.
Defined.

Lemma batch_round_trip_witness :
  exists encrypted,
    fst (@encryptSecretsBatch model_provider
           [(lit "1", Samples.sample_secret); (lit "2", Samples.sample_secret)]
           Samples.sample_key Samples.sample_rng) = Ok encrypted /\
    @decryptSecretsBatch model_provider encrypted Samples.sample_key
    = Ok [ (lit "id", lit "1") :: defined (properties Samples.sample_secret);
           (lit "id", lit "2") :: defined (properties Samples.sample_secret) ].
Proof.
  destruct (@batch_round_trip model_provider
              [(lit "1", Samples.sample_secret); (lit "2", Samples.sample_secret)]
              Samples.sample_key Samples.sample_rng)
    as (encrypted & E & _ & _ & Hdec & _).
  - repeat constructor; apply sample_secret_wf.
  - intros iv data. apply model_provider_correct.
  - exists encrypted. split; [exact E|exact Hdec].
Defined.

Lemma session_round_trip_witness :
  exists authHash salt g1 st1 e g2 st2,
    @initializeVault model_provider (lit "correct horse") Samples.sample_rng
      initial = (Ok (authHash, salt), g1, st1) /\
    encrypt Samples.sample_secret g1 st1 = (Ok e, g2) /\
    decrypt (encryptedData e) (iv e) (lock st1) = Throw vault_locked /\
    unlock (lit "correct horse") salt authHash (lock st1) = (Ok true, st2) /\
    isUnlocked st2 = true /\
    decrypt (encryptedData e) (iv e) st2
    = Ok (defined (properties Samples.sample_secret)).
Proof.
  apply (@session_round_trip model_provider).
  - exact sample_secret_wf.
  - intros K iv data. apply model_provider_correct.
Defined.

End VaultCryptoFacts.

(** ** The report of the analyzer: order, counters, recommendations *)

Module ReportFacts.

Import Num PasswordGenerator SecurityAnalyzer Report Basics SecurityAnalyzerFacts.

Lemma list_sum_cons a l : list_sum (a :: l) = (a + list_sum l)%nat.
Proof. reflexivity. Qed.

Lemma insert_issue_perm i l : Permutation (insert_issue i l) (i :: l).
Proof.
  induction l as [|j l IH]; cbn [insert_issue]; [reflexivity|].
  destruct (_ <? _)%nat; [|reflexivity].
  rewrite IH. apply perm_swap.
Qed.

Lemma sort_issues_perm l : Permutation (sort_issues l) l.
Proof.
  unfold sort_issues. induction l as [|i l IH]; cbn [fold_right]; [reflexivity|].
  rewrite insert_issue_perm. now constructor.
Qed.

Lemma insert_issue_sorted i l :
  StronglySorted no_less_severe l ->
  StronglySorted no_less_severe (insert_issue i l).
Proof.
  induction 1 as [|j l Hs IH Hj]; cbn [insert_issue].
  - repeat constructor.
  - destruct (_ <? _)%nat eqn:E.
    + apply Nat.ltb_lt in E. constructor; [assumption|].
      apply Forall_forall. intros x Hx.
      apply insert_issue_In in Hx as [->|Hx].
      * unfold no_less_severe. lia.
      * now apply (proj1 (Forall_forall _ _) Hj).
    + apply Nat.ltb_ge in E. constructor; [now constructor|].
      constructor; [exact E|].
      apply Forall_forall. intros x Hx.
      pose proof (proj1 (Forall_forall _ _) Hj x Hx) as H.
      unfold no_less_severe in *. lia.
Qed.

Lemma sort_issues_sorted l : StronglySorted no_less_severe (sort_issues l).
Proof.
  unfold sort_issues. induction l as [|i l IH]; cbn [fold_right].
  - constructor.
  - now apply insert_issue_sorted.
Qed.

Lemma named_secrets_perm t l l' :
  Permutation l l' -> named_secrets t l = named_secrets t l'.
Proof.
  unfold named_secrets. induction 1; cbn [filter]; auto.
  - destruct (of_type t x); cbn [map]; rewrite ?list_sum_cons; lia.
  - destruct (of_type t x), (of_type t y); cbn [map];
      rewrite ?list_sum_cons; lia.
  - lia.
Qed.

Lemma named_secrets_app t l l' :
  named_secrets t (l ++ l') = (named_secrets t l + named_secrets t l')%nat.
Proof.
  unfold named_secrets. now rewrite filter_app, map_app, list_sum_app.
Qed.

Lemma named_weak t secrets :
  named_secrets t (flat_map weak_issue secrets)
  = match t with issue_weak => count counted_weak secrets | _ => 0%nat end.
Proof.
  induction secrets as [|s l IH].
  - now destruct t.
  - cbn [flat_map]. rewrite named_secrets_app, IH.
    change (s :: l) with ([s] ++ l). rewrite count_app, count_single.
    unfold weak_issue, counted_weak.
    destruct (calculatePasswordStrength (password s)), t; reflexivity.
Qed.

Section WithDates.
Context {dates : DateParser}.

Lemma named_old t now secrets :
  named_secrets t (flat_map (old_issue now) secrets)
  = match t with issue_old => count (is_old now) secrets | _ => 0%nat end.
Proof.
  induction secrets as [|s l IH].
  - now destruct t.
  - cbn [flat_map]. rewrite named_secrets_app, IH.
    change (s :: l) with ([s] ++ l). rewrite count_app, count_single.
    unfold old_issue, is_old.
    destruct (Date_getTime (updatedAt s)) as [u|]; [|now destruct t].
    destruct (u <? now - 180 * day_ms)%Z; now destruct t.
Qed.

End WithDates.

Lemma named_reused t secrets m :
  named_secrets t (flat_map (reused_issue secrets) m)
  = match t with issue_reused => weight_sum m | _ => 0%nat end.
Proof.
  induction m as [|[p ids] m IH].
  - now destruct t.
  - cbn [flat_map]. rewrite named_secrets_app, IH.
    cbn [weight_sum snd]. unfold reused_issue, group_weight.
    destruct (1 <? List.length ids)%nat; destruct t; cbn; lia.
Qed.

Lemma count_zero {A} (p : A -> bool) l :
  count p l = 0%nat <-> forall x, In x l -> p x = false.
Proof.
  unfold count. induction l as [|a l IH]; cbn [filter In].
  - split; [contradiction|reflexivity].
  - destruct (p a) eqn:E; cbn [List.length].
    + split; [discriminate|]. intros H. rewrite (H a) in E by auto. discriminate.
    + rewrite IH. split; [intros H x [<-|Hx]; auto|auto].
Qed.

Lemma count_passwords p l :
  count_occ (list_eq_dec N.eq_dec) (map password l) p = count (has_password p) l.
Proof.
  induction l as [|s l IH]; [reflexivity|].
  change (s :: l) with ([s] ++ l) at 2. rewrite count_app, count_single.
  cbn [map count_occ]. unfold has_password at 1.
  destruct (list_eq_dec N.eq_dec (password s) p) as [E|E].
  - rewrite (proj2 (str_eqb_eq _ _) E). now rewrite IH.
  - now rewrite (proj2 (str_eqb_neq _ _) E).
Qed.

Lemma no_reuse_NoDup l :
  count (shares_password l) l = 0%nat <-> NoDup (map password l).
Proof.
  rewrite count_zero, (NoDup_count_occ (list_eq_dec N.eq_dec)). split.
  - intros H p. rewrite count_passwords.
    destruct (count (has_password p) l) as [|[|n]] eqn:E; try lia.
    assert (exists s, In s l /\ has_password p s = true) as (s & Hs & Hp).
    { destruct (filter (has_password p) l) as [|s r] eqn:F.
      - unfold count in E. now rewrite F in E.
      - exists s. apply filter_In. rewrite F. now left. }
    apply str_eqb_eq in Hp. specialize (H s Hs). unfold shares_password in H.
    rewrite Hp, E in H. discriminate.
  - intros H s _. unfold shares_password. specialize (H (password s)).
    rewrite count_passwords in H. apply Nat.ltb_ge. lia.
Qed.

Lemma weight_sum_not_1 m : weight_sum m <> 1%nat.
Proof.
  induction m as [|e m IH]; cbn [weight_sum]; [discriminate|].
  unfold group_weight. destruct (1 <? _)%nat eqn:E; [|lia].
  apply Nat.ltb_lt in E. lia.
Qed.

Lemma clean_score_checked :
  forallb (fun n => Nat.eqb (calculateOverallScore n 0 0 0 n) 100)
    (seq 1 1000) = true.
Proof. vm_compute. reflexivity. Qed.

Section WithDatesMore.
Context {dates : DateParser}.

(** The issues in the order the analyzer generates them. *)
Lemma issues_perm now secrets :
  Permutation (issues (analyzeSecrets now secrets))
    (flat_map weak_issue secrets
     ++ flat_map (reused_issue secrets) (passwordMap (first_pass now secrets))
     ++ flat_map (old_issue now) secrets).
Proof. apply sort_issues_perm. Qed.

Lemma reused_is_weight now secrets :
  reusedPasswords (score (analyzeSecrets now secrets))
  = weight_sum (passwordMap (first_pass now secrets)).
Proof. unfold analyzeSecrets. cbn [score reusedPasswords]. apply reused_count_weight. Qed.

Lemma named_in_report t now secrets :
  named_secrets t (issues (analyzeSecrets now secrets))
  = match t with
    | issue_weak => weakPasswords (score (analyzeSecrets now secrets))
    | issue_reused => reusedPasswords (score (analyzeSecrets now secrets))
    | issue_old => oldPasswords (score (analyzeSecrets now secrets))
    end.
Proof.
  rewrite (named_secrets_perm _ _ _ (issues_perm now secrets)).
  rewrite !named_secrets_app, named_weak, named_reused, named_old.
  rewrite reused_is_weight.
  destruct (analyze_counts now secrets) as (Hw & _ & Ho & _).
  rewrite Hw, Ho. destruct t; lia.
Qed.

(** Where an issue of the report comes from. *)
Lemma issue_cases now secrets i :
  In i (issues (analyzeSecrets now secrets)) ->
  (issue_type i = issue_weak /\
   exists s, In s secrets /\ secretIds i = [id s] /\ counted_weak s = true) \/
  (issue_type i = issue_reused /\ (1 < List.length (secretIds i))%nat) \/
  (issue_type i = issue_old /\
   exists s, In s secrets /\ secretIds i = [id s] /\ is_old now s = true).
Proof.
  intros Hi. apply (Permutation_in _ (issues_perm now secrets)) in Hi.
  rewrite !in_app_iff, !in_flat_map in Hi.
  destruct Hi as [(s & Hs & Hi)|[([p ids] & _ & Hi)|(s & Hs & Hi)]].
  - left. unfold weak_issue in Hi.
    destruct (calculatePasswordStrength (password s)) eqn:E;
      cbn [is_weak] in Hi; try contradiction;
      destruct Hi as [<-|[]];
      (split; [reflexivity|exists s; unfold counted_weak; rewrite E; auto]).
  - right. left. unfold reused_issue in Hi.
    destruct (1 <? List.length ids)%nat eqn:E; [|contradiction].
    destruct Hi as [<-|[]]. cbn [secretIds issue_type].
    apply Nat.ltb_lt in E. auto.
  - right. right. unfold old_issue in Hi.
    destruct (Date_getTime (updatedAt s)) as [u|] eqn:Eu; [|contradiction].
    destruct (u <? now - 180 * day_ms)%Z eqn:Et; [|contradiction].
    destruct Hi as [<-|[]].
    split; [reflexivity|exists s; unfold is_old; rewrite Eu, Et; auto].
Qed.

Lemma named_singletons t l :
  (forall i, In i l -> of_type t i = true -> List.length (secretIds i) = 1%nat) ->
  named_secrets t l = count (of_type t) l.
Proof.
  unfold named_secrets, count. induction l as [|i l IH]; intros H; [reflexivity|].
  cbn [filter]. destruct (of_type t i) eqn:E.
  - cbn [map List.length]. rewrite list_sum_cons, (H i) by (cbn; auto).
    rewrite IH; [reflexivity|]. intros j Hj. apply H. now right.
  - apply IH. intros j Hj. apply H. now right.
Qed.

(** X10. The issues of a report come most severe first: critical before
    high before medium before low, so no issue stands before a more severe
    one; and they are the issues the analyzer generated (weak, then reused,
    then old), rearranged, none lost and none added. *)
Theorem issues_most_severe_first (now : Z) (secrets : list SecretData) :
  StronglySorted no_less_severe (issues (analyzeSecrets now secrets)) /\
  (forall i j rest,
      issues (analyzeSecrets now secrets) = i :: rest -> In j rest ->
      (severityOrder (severity i) <= severityOrder (severity j))%nat) /\
  Permutation (issues (analyzeSecrets now secrets))
    (flat_map weak_issue secrets
     ++ flat_map (reused_issue secrets) (build secrets)
     ++ flat_map (old_issue now) secrets).
Proof.
  assert (StronglySorted no_less_severe (issues (analyzeSecrets now secrets)))
    as Hs by apply sort_issues_sorted.
  split; [exact Hs|]. split.
  - intros i j rest E Hj. rewrite E in Hs. inversion Hs as [|? ? _ Hall]; subst.
    exact (proj1 (Forall_forall _ _) Hall j Hj).
  - rewrite issues_perm. unfold first_pass.
    destruct (first_pass_fold now secrets
                {| passwordMap := []; weakCount := 0; oldCount := 0;
                   strongCount := 0 |}) as (_ & _ & _ & ->).
    reflexivity.
Qed.

(** X11. The issues agree with the counters of the score: there are as
    many weak-password issues as [weakPasswords] and as many old-password
    issues as [oldPasswords], each naming one record of the collection; the
    reused-password issues name [reusedPasswords] records in all, each of
    them two or more. *)
Theorem issues_match_counters (now : Z) (secrets : list SecretData) :
  count (of_type issue_weak) (issues (analyzeSecrets now secrets))
  = weakPasswords (score (analyzeSecrets now secrets)) /\
  count (of_type issue_old) (issues (analyzeSecrets now secrets))
  = oldPasswords (score (analyzeSecrets now secrets)) /\
  named_secrets issue_reused (issues (analyzeSecrets now secrets))
  = reusedPasswords (score (analyzeSecrets now secrets)) /\
  (forall i, In i (issues (analyzeSecrets now secrets)) ->
     match issue_type i with
     | issue_reused => (1 < List.length (secretIds i))%nat
     | _ => exists s, In s secrets /\ secretIds i = [id s]
     end).
Proof.
  split; [|split; [|split]].
  - rewrite <- (named_in_report issue_weak), named_singletons; [reflexivity|].
    intros i Hi Ht.
    destruct (issue_cases now secrets i Hi)
      as [(_ & s & _ & -> & _)|[(E & _)|(E & _)]]; auto;
      unfold of_type in Ht; rewrite E in Ht; discriminate.
  - rewrite <- (named_in_report issue_old), named_singletons; [reflexivity|].
    intros i Hi Ht.
    destruct (issue_cases now secrets i Hi)
      as [(E & _)|[(E & _)|(_ & s & _ & -> & _)]]; auto;
      unfold of_type in Ht; rewrite E in Ht; discriminate.
  - apply (named_in_report issue_reused).
  - intros i Hi.
    destruct (issue_cases now secrets i Hi)
      as [(E & s & Hs & Hid & _)|[(E & H)|(E & s & Hs & Hid & _)]];
      rewrite E; eauto.
Qed.

(** X12. [reusedPasswords] is never 1 and never more than the number of
    records, and it is 0 exactly when no two records have the same
    password. *)
Theorem reused_counter (now : Z) (secrets : list SecretData) :
  reusedPasswords (score (analyzeSecrets now secrets)) <> 1%nat /\
  (reusedPasswords (score (analyzeSecrets now secrets))
   <= List.length secrets)%nat /\
  (reusedPasswords (score (analyzeSecrets now secrets)) = 0%nat
   <-> NoDup (map password secrets)).
Proof.
  split; [rewrite reused_is_weight; apply weight_sum_not_1|].
  destruct (analyze_counts now secrets) as (_ & _ & _ & ->). split.
  - apply filter_length_le.
  - apply no_reuse_NoDup.
Qed.

Lemma named_at_least t i l :
  In i l -> of_type t i = true ->
  (List.length (secretIds i) <= named_secrets t l)%nat.
Proof.
  unfold named_secrets. induction l as [|j l IH]; [contradiction|].
  intros [->|Hi] Ht; cbn [filter].
  - rewrite Ht. cbn [map]. rewrite list_sum_cons. lia.
  - specialize (IH Hi Ht). destruct (of_type t j); auto.
    cbn [map]. rewrite list_sum_cons. lia.
Qed.

Lemma no_issues_no_counts now secrets :
  issues (analyzeSecrets now secrets) = [] <->
  weakPasswords (score (analyzeSecrets now secrets)) = 0%nat /\
  reusedPasswords (score (analyzeSecrets now secrets)) = 0%nat /\
  oldPasswords (score (analyzeSecrets now secrets)) = 0%nat.
Proof.
  pose proof (fun t => named_in_report t now secrets) as Hn. split.
  - intros E. rewrite E in Hn.
    pose proof (Hn issue_weak). pose proof (Hn issue_reused).
    pose proof (Hn issue_old). cbn in *. auto.
  - intros (Hw & Hr & Ho).
    destruct (issues (analyzeSecrets now secrets)) as [|i rest] eqn:E; auto.
    assert (In i (issues (analyzeSecrets now secrets))) as Hi
      by (rewrite E; now left).
    assert (0 < List.length (secretIds i))%nat as Hlen.
    { destruct (issue_cases now secrets i Hi)
        as [(_ & s & _ & -> & _)|[(_ & H)|(_ & s & _ & -> & _)]]; cbn; lia. }
    assert (of_type (issue_type i) i = true) as Ht
      by (unfold of_type; now destruct (issue_type i)).
    pose proof (named_at_least _ i _ Hi Ht) as Hle.
    rewrite named_in_report in Hle. destruct (issue_type i); lia.
Qed.

Ltac second_unit H :=
  apply (f_equal (fun s => nth 1 s 0)) in H; cbn in H; discriminate H.

Ltac advice_block H :=
  match type of H with
  | In _ (if ?c then _ else _) => destruct c; cbn [In] in H
  | In _ (match ?l with [] => _ | _ :: _ => _ end) => destruct l; cbn [In] in H
  end.

Lemma advice_never_first score issues total :
  total <> 0%nat ->
  ~ In first_secret_advice (generateRecommendations score issues total).
Proof.
  intros Ht H. unfold generateRecommendations in H.
  rewrite (proj2 (Nat.eqb_neq _ _) Ht) in H.
  repeat (apply in_app_or in H; destruct H as [H|H]);
    advice_block H; try contradiction;
    repeat (destruct H as [H|H]; [second_unit H|]); contradiction.
Qed.

Lemma advice_all_good score issues total :
  total <> 0%nat ->
  In all_good_advice (generateRecommendations score issues total)
  <-> issues = [].
Proof.
  intros Ht. unfold generateRecommendations.
  rewrite (proj2 (Nat.eqb_neq _ _) Ht). split.
  - intros H. destruct issues as [|i rest]; [reflexivity|]. exfalso.
    repeat (apply in_app_or in H; destruct H as [H|H]);
      try contradiction;
      advice_block H; try contradiction;
      repeat (destruct H as [H|H]; [second_unit H|]); contradiction.
  - intros ->. rewrite !in_app_iff. right. right. right. left. now left.
Qed.

Lemma advice_nonempty score issues total :
  total <> 0%nat ->
  (issues <> [] ->
   (0 < weakPasswords score \/ 0 < reusedPasswords score
    \/ 0 < oldPasswords score)%nat) ->
  generateRecommendations score issues total <> [].
Proof.
  intros Ht H. unfold generateRecommendations.
  rewrite (proj2 (Nat.eqb_neq _ _) Ht).
  destruct issues as [|i rest].
  - intros E. apply (f_equal (@List.length _)) in E.
    rewrite !length_app in E. cbn [List.length] in E. lia.
  - destruct H as [H|[H|H]]; [discriminate| | |];
      apply Nat.ltb_lt in H; rewrite H; intros E;
      apply (f_equal (@List.length _)) in E;
      rewrite !length_app in E; cbn [List.length] in E; lia.
Qed.

Lemma recommendations_value now secrets :
  recommendations (analyzeSecrets now secrets)
  = generateRecommendations (score (analyzeSecrets now secrets))
      (flat_map weak_issue secrets
       ++ flat_map (reused_issue secrets) (passwordMap (first_pass now secrets))
       ++ flat_map (old_issue now) secrets)
      (match List.length secrets with O => 1%nat | n => n end).
Proof. reflexivity. Qed.

(** X15. The recommendations of a report.  [generateRecommendations] has a
    branch for a total of 0 records, and [analyzeSecrets] never takes it: it
    passes [length || 1], so the advice to add a first secret is in no
    report, not even that of an empty collection.  A report always has a
    recommendation; the praise for strong and unique passwords is among them
    exactly when there is no issue, which is exactly when the three counters
    of weak, reused and old passwords are 0. *)
Theorem recommendations_shape (now : Z) (secrets : list SecretData) :
  (forall score issues,
      generateRecommendations score issues 0 = [first_secret_advice]) /\
  ~ In first_secret_advice (recommendations (analyzeSecrets now secrets)) /\
  recommendations (analyzeSecrets now secrets) <> [] /\
  (In all_good_advice (recommendations (analyzeSecrets now secrets))
   <-> issues (analyzeSecrets now secrets) = []) /\
  (issues (analyzeSecrets now secrets) = [] <->
   weakPasswords (score (analyzeSecrets now secrets)) = 0%nat /\
   reusedPasswords (score (analyzeSecrets now secrets)) = 0%nat /\
   oldPasswords (score (analyzeSecrets now secrets)) = 0%nat).
Proof.
  pose proof (no_issues_no_counts now secrets) as Hcounts.
  assert (issues (analyzeSecrets now secrets) = [] <->
          flat_map weak_issue secrets
          ++ flat_map (reused_issue secrets) (passwordMap (first_pass now secrets))
          ++ flat_map (old_issue now) secrets = []) as Hgen.
  { pose proof (issues_perm now secrets) as Hp. split; intros E.
    - rewrite E in Hp. now apply Permutation_nil in Hp.
    - rewrite E in Hp. now apply Permutation_sym, Permutation_nil in Hp. }
  assert (match List.length secrets with O => 1%nat | n => n end <> 0%nat)
    as Ht by (now destruct (List.length secrets)).
  split; [reflexivity|]. rewrite recommendations_value.
  split; [now apply advice_never_first|]. split; [|split]; [| |exact Hcounts].
  - apply advice_nonempty; [exact Ht|]. intros Hne.
    rewrite <- Hgen, Hcounts in Hne. lia.
  - rewrite advice_all_good by exact Ht. now rewrite Hgen.
Qed.

(** X16. A collection of up to 1000 records without issue, the empty one
    included, scores 100, all its records count as strong, and the only
    recommendation is the praise. *)
Theorem issue_free_vault_scores_100 (now : Z) (secrets : list SecretData) :
  (List.length secrets <= 1000)%nat ->
  issues (analyzeSecrets now secrets) = [] ->
  overall (score (analyzeSecrets now secrets)) = 100%nat /\
  strongPasswords (score (analyzeSecrets now secrets)) = List.length secrets /\
  recommendations (analyzeSecrets now secrets) = [all_good_advice].
Proof.
  intros Hlen Hno.
  pose proof (proj1 (no_issues_no_counts now secrets) Hno) as (Hw & Hr & Ho).
  assert (flat_map weak_issue secrets
          ++ flat_map (reused_issue secrets) (passwordMap (first_pass now secrets))
          ++ flat_map (old_issue now) secrets = []) as Hgen.
  { pose proof (issues_perm now secrets) as Hp. rewrite Hno in Hp.
    now apply Permutation_nil in Hp. }
  assert (strongPasswords (score (analyzeSecrets now secrets))
          = List.length secrets) as Hs.
  { destruct (analyze_counts now secrets) as (Hw' & Hs' & _ & _).
    rewrite Hw' in Hw. rewrite Hs'.
    rewrite <- (count_complement counted_weak secrets), Hw.
    apply count_ext_in. intros x _. apply counted_strong_not_weak. }
  assert (overall (score (analyzeSecrets now secrets)) = 100%nat) as Hscore.
  { revert Hw Hr Ho Hs. unfold analyzeSecrets.
    cbn [score overall weakPasswords reusedPasswords oldPasswords
         strongPasswords].
    intros -> -> -> ->. destruct secrets as [|s l]; [vm_compute; reflexivity|].
    apply Nat.eqb_eq.
    apply (proj1 (forallb_forall _ _) clean_score_checked).
    apply in_seq. cbn [List.length] in *. lia. }
  split; [exact Hscore|]. split; [exact Hs|].
  rewrite recommendations_value. unfold generateRecommendations.
  rewrite Hgen, Hw, Hr, Ho, Hscore. now destruct (List.length secrets).
Qed.

End WithDatesMore.

Lemma issue_free_vault_scores_100_witness :
  overall (score (@analyzeSecrets Samples.model_dates Samples.sample_now
                    [Samples.sample_record "A" "Sunshine1!" "1699136000000"]))
  = 100%nat /\
  strongPasswords
    (score (@analyzeSecrets Samples.model_dates Samples.sample_now
              [Samples.sample_record "A" "Sunshine1!" "1699136000000"]))
  = 1%nat /\
  recommendations
    (@analyzeSecrets Samples.model_dates Samples.sample_now
       [Samples.sample_record "A" "Sunshine1!" "1699136000000"])
  = [all_good_advice].
Proof.
  apply (@issue_free_vault_scores_100 Samples.model_dates Samples.sample_now
           [Samples.sample_record "A" "Sunshine1!" "1699136000000"]).
  - cbn [List.length]. lia.
  - vm_compute. reflexivity.
Defined.

End ReportFacts.

(** ** [calculatePasswordStrength]: what length and variety decide *)

Module StrengthFacts.

Import Num PasswordGenerator SecurityAnalyzer.

Lemma complexity_bonus_le p : (complexity_bonus p <= 20)%nat.
Proof.
  unfold complexity_bonus, floor_upto.
  etransitivity; [apply filter_length_le|]. now rewrite length_seq.
Qed.

Lemma variety_score_le p : (variety_score p <= 40)%nat.
Proof.
  unfold variety_score, points.
  destruct (has_lowercase p), (has_uppercase p), (has_digit p), (has_symbol p);
    lia.
Qed.

Lemma length_score_value p :
  length_score p
  = (if (List.length p <? 8)%nat then 0
     else if (List.length p <? 12)%nat then 10
     else if (List.length p <? 16)%nat then 20
     else if (List.length p <? 20)%nat then 30 else 40)%nat.
Proof.
  unfold length_score, points.
  repeat match goal with
         | |- context [(?a <=? ?b)%nat] => destruct (Nat.leb_spec a b)
         | |- context [(?a <? ?b)%nat] => destruct (Nat.ltb_spec a b)
         end; lia.
Qed.

Lemma strength_of_score p :
  p <> [] ->
  calculatePasswordStrength p
  = if (password_score p <? 30)%nat then weak
    else if (password_score p <? 50)%nat then medium
    else if (password_score p <? 70)%nat then strong
    else very_strong.
Proof. now destruct p. Qed.

(** X17. What length and variety decide about the strength of a password.
    The score is at most 100.  A password of fewer than 8 characters is
    never very-strong; one of fewer than 12 characters from one class of
    characters is weak or medium, which the analyzer counts as weak; one of
    20 characters or more with a lower-case letter, an upper-case letter, a
    digit and a symbol is very-strong; one of 16 characters or more from two
    classes is not counted as weak. *)
Theorem strength_bounds (p : jsstring) :
  (password_score p <= 100)%nat /\
  ((List.length p < 8)%nat -> calculatePasswordStrength p <> very_strong) /\
  ((List.length p < 12)%nat -> (variety_score p <= 10)%nat ->
   is_weak (calculatePasswordStrength p) = true) /\
  ((20 <= List.length p)%nat ->
   has_lowercase p = true -> has_uppercase p = true ->
   has_digit p = true -> has_symbol p = true ->
   calculatePasswordStrength p = very_strong) /\
  ((16 <= List.length p)%nat -> (20 <= variety_score p)%nat ->
   is_weak (calculatePasswordStrength p) = false).
Proof.
  pose proof (complexity_bonus_le p) as Hb.
  pose proof (variety_score_le p) as Hv.
  pose proof (length_score_value p) as Hl.
  assert (p = [] \/ p <> []) as [->|Hp] by (destruct p; [now left|now right]).
  { repeat split; cbn [List.length]; try lia; try discriminate; auto.
    vm_compute. lia. }
  rewrite (strength_of_score p Hp). unfold password_score.
  repeat match type of Hl with
         | context [(?a <? ?b)%nat] => destruct (Nat.ltb_spec a b)
         end;
    (split; [lia|]);
    repeat split; intros;
    try (assert (variety_score p = 40%nat) as ->
            by (unfold variety_score, points;
                repeat match goal with H : _ = true |- _ => rewrite H end;
                reflexivity));
    repeat match goal with
           | |- context [(?a <? ?b)%nat] => destruct (Nat.ltb_spec a b)
           end; cbn [is_weak]; try reflexivity; try discriminate; lia.
Qed.

End StrengthFacts.

(** ** lib/storage.ts: what is stored and what is cleared *)

Module StorageFacts.

Import Storage Basics.

Lemma getItem_removeItem store key k :
  getItem (removeItem store key) k
  = if str_eqb key k then None else getItem store k.
Proof.
  unfold removeItem. induction store as [|[k0 v] store IH]; cbn [filter getItem fst].
  - now destruct (str_eqb key k).
  - destruct (str_eqb k0 key) eqn:E0; cbn [negb getItem].
    + apply str_eqb_eq in E0. subst k0. rewrite IH.
      now destruct (str_eqb key k).
    + rewrite IH. destruct (str_eqb key k) eqn:E; auto.
      apply str_eqb_eq in E. subst k. now rewrite E0.
Qed.

Lemma getItem_setItem store key value k :
  getItem (setItem store key value) k
  = if str_eqb key k then Some value else getItem store k.
Proof.
  unfold setItem. cbn [getItem]. rewrite getItem_removeItem.
  now destruct (str_eqb key k).
Qed.

Ltac items :=
  repeat first [ rewrite getItem_setItem | rewrite getItem_removeItem ];
  repeat match goal with
         | |- context [str_eqb (lit ?a) (lit ?b)] =>
             let v := eval vm_compute in (str_eqb (lit a) (lit b)) in
             change (str_eqb (lit a) (lit b)) with v
         end;
  cbv iota.

Lemma other_key key :
  ~ In key STORAGE_KEYS ->
  str_eqb VAULT_EXISTS key = false /\ str_eqb VAULT_SALT key = false /\
  str_eqb VAULT_AUTH_HASH key = false /\ str_eqb USER_EMAIL key = false /\
  str_eqb LAST_UNLOCK key = false.
Proof.
  intros H. repeat split; apply str_eqb_neq; intros E; apply H;
    rewrite <- E; cbn; auto 6.
Qed.

Lemma saved_items metadata now store key :
  getItem (saveVaultMetadata metadata now store) key
  = if str_eqb LAST_UNLOCK key then Some (Number_toString now)
    else if str_eqb USER_EMAIL key then Some (email metadata)
    else if str_eqb VAULT_AUTH_HASH key then Some (authHash metadata)
    else if str_eqb VAULT_SALT key then Some (salt metadata)
    else if str_eqb VAULT_EXISTS key then Some (lit "true")
    else getItem store key.
Proof. unfold saveVaultMetadata. now rewrite !getItem_setItem. Qed.

Lemma getVaultMetadata_saved metadata now store :
  getVaultMetadata (saveVaultMetadata metadata now store)
  = if falsy (Some (salt metadata)) || falsy (Some (authHash metadata))
       || falsy (Some (email metadata))
    then None else Some metadata.
Proof.
  unfold getVaultMetadata, vaultExists. rewrite !saved_items.
  unfold LAST_UNLOCK, USER_EMAIL, VAULT_AUTH_HASH, VAULT_SALT, VAULT_EXISTS.
  items. cbn [negb].
  destruct (falsy (Some (salt metadata)) || falsy (Some (authHash metadata))
            || falsy (Some (email metadata))); auto.
  now destruct metadata.
Qed.

Lemma vaultExists_saved metadata now store :
  vaultExists (saveVaultMetadata metadata now store) = true.
Proof.
  unfold vaultExists. rewrite saved_items.
  unfold LAST_UNLOCK, USER_EMAIL, VAULT_AUTH_HASH, VAULT_SALT, VAULT_EXISTS.
  items. reflexivity.
Qed.

Lemma getUserEmail_saved metadata now store :
  getUserEmail (saveVaultMetadata metadata now store) = Some (email metadata).
Proof.
  unfold getUserEmail. rewrite saved_items.
  unfold LAST_UNLOCK, USER_EMAIL. items. reflexivity.
Qed.

(** X20. What [saveVaultMetadata] stored, [getVaultMetadata] reads back:
    after it the vault exists and the email is the one saved; the metadata
    come back as saved when salt, hash and email are all non-empty, and as
    [null] when one of them is the empty string; the items under other keys
    are as before. *)
Theorem metadata_round_trip (metadata : VaultMetadata) (now : N)
  (store : LocalStorage) :
  vaultExists (saveVaultMetadata metadata now store) = true /\
  getUserEmail (saveVaultMetadata metadata now store) = Some (email metadata) /\
  getVaultMetadata (saveVaultMetadata metadata now store)
  = (match salt metadata, authHash metadata, email metadata with
     | _ :: _, _ :: _, _ :: _ => Some metadata
     | _, _, _ => None
     end) /\
  (forall key, ~ In key STORAGE_KEYS ->
     getItem (saveVaultMetadata metadata now store) key = getItem store key).
Proof.
  split; [|split; [|split]].
  - apply vaultExists_saved.
  - apply getUserEmail_saved.
  - rewrite getVaultMetadata_saved.
    destruct (salt metadata), (authHash metadata), (email metadata); reflexivity.
  - intros key Hkey. rewrite saved_items.
    destruct (other_key key Hkey) as (-> & -> & -> & -> & ->). reflexivity.
Qed.

Lemma cleared_sensitive store key :
  getItem (clearSensitiveData store) key
  = if str_eqb LAST_UNLOCK key || str_eqb VAULT_AUTH_HASH key
       || str_eqb VAULT_SALT key || str_eqb VAULT_EXISTS key
    then None else getItem store key.
Proof.
  unfold clearSensitiveData. rewrite !getItem_removeItem.
  destruct (str_eqb LAST_UNLOCK key), (str_eqb VAULT_AUTH_HASH key),
    (str_eqb VAULT_SALT key), (str_eqb VAULT_EXISTS key); reflexivity.
Qed.

Lemma getVaultMetadata_cleared store :
  getVaultMetadata (clearSensitiveData store) = None.
Proof.
  unfold getVaultMetadata, vaultExists. rewrite cleared_sensitive.
  unfold LAST_UNLOCK, USER_EMAIL, VAULT_AUTH_HASH, VAULT_SALT, VAULT_EXISTS.
  items. reflexivity.
Qed.

Lemma getUserEmail_cleared store :
  getUserEmail (clearSensitiveData store) = getUserEmail store.
Proof.
  unfold getUserEmail. rewrite cleared_sensitive.
  unfold LAST_UNLOCK, USER_EMAIL, VAULT_AUTH_HASH, VAULT_SALT, VAULT_EXISTS.
  items. reflexivity.
Qed.

(** X21. Clearing.  [clearSensitiveData] removes the vault marker, salt,
    hash and time of the last unlock, so that no vault exists and there are
    no metadata, and keeps the email; [clearVaultData] removes all five
    items; neither touches an item under another key (the encrypted secrets
    among them). *)
Theorem clearing_storage (store : LocalStorage) :
  (vaultExists (clearSensitiveData store) = false /\
   getVaultMetadata (clearSensitiveData store) = None /\
   getUserEmail (clearSensitiveData store) = getUserEmail store /\
   forall key, ~ In key STORAGE_KEYS ->
     getItem (clearSensitiveData store) key = getItem store key) /\
  (forall key, In key STORAGE_KEYS ->
     getItem (clearVaultData store) key = None) /\
  (forall key, ~ In key STORAGE_KEYS ->
     getItem (clearVaultData store) key = getItem store key).
Proof.
  split; [split; [|split; [|split]]|split].
  - unfold vaultExists. rewrite cleared_sensitive.
    unfold LAST_UNLOCK, VAULT_AUTH_HASH, VAULT_SALT, VAULT_EXISTS.
    items. reflexivity.
  - apply getVaultMetadata_cleared.
  - apply getUserEmail_cleared.
  - intros key Hkey. rewrite cleared_sensitive.
    destruct (other_key key Hkey) as (-> & -> & -> & _ & ->). reflexivity.
  - intros key Hkey. unfold clearVaultData, STORAGE_KEYS in *.
    cbn [fold_left]. rewrite !getItem_removeItem.
    cbn [In] in Hkey.
    destruct Hkey as [<-|[<-|[<-|[<-|[<-|[]]]]]];
      unfold LAST_UNLOCK, USER_EMAIL, VAULT_AUTH_HASH, VAULT_SALT, VAULT_EXISTS;
      items; reflexivity.
  - intros key Hkey. unfold clearVaultData, STORAGE_KEYS.
    cbn [fold_left]. rewrite !getItem_removeItem.
    destruct (other_key key Hkey) as (-> & -> & -> & -> & ->). reflexivity.
Qed.

End StorageFacts.

(** ** [VaultProvider]: registration, login, logout *)

Module VaultProviderFacts.

Import Base64 Codec Keys UseCrypto Storage VaultProvider.
Import Basics Base64Facts CodecFacts KeysFacts UseCryptoFacts StorageFacts.
Import CodecMoreFacts VaultCryptoFacts.

Section WithProvider.
Context {provider : WebCrypto}.

(** What a successful [unlock] has checked and installed. *)
Lemma unlock_true pw salt authHash st st' :
  unlock pw salt authHash st = (Ok true, st') ->
  verifyMasterPassword pw salt authHash = Ok true /\
  exists saltBytes,
    base64ToUint8Array salt = Ok saltBytes /\
    st' = set_key (deriveMasterKey pw saltBytes).
Proof.
  unfold unlock.
  destruct (verifyMasterPassword pw salt authHash) as [[|]|] eqn:Ev;
    try (intros H; discriminate H).
  unfold unlockVault.
  destruct (base64ToUint8Array salt) as [saltBytes|] eqn:Es; cbn [bind];
    intros H; [|discriminate H].
  injection H as <-. eauto.
Qed.

Lemma unlock_not_true pw salt authHash st r st' :
  unlock pw salt authHash st = (r, st') -> r <> Ok true -> st' = st.
Proof.
  destruct (unlock_cases pw salt authHash st) as [E|[key E]]; rewrite E;
    intros H Hr; injection H as <- <-; congruence.
Qed.

Lemma initializeVault_value pw g st :
  initializeVault pw g st
  = (let salt := map (entropy g) (seq (used g) 16) in
     (Ok (encode_groups
            (map Byte.to_N
               (pbkdf2 (stringToArrayBuffer pw) salt PBKDF2_ITERATIONS 256)),
          encode_groups (map Byte.to_N salt)),
      {| entropy := entropy g; used := (used g + 16)%nat |},
      set_key (deriveMasterKey pw salt))).
Proof.
  unfold initializeVault. now rewrite initializeMasterPassword_value.
Qed.



(** X24. The outcomes of [login].  It ends with [isLoading] false.  When
    it succeeds, the password has been verified against a salt and hash,
    those of the row the service returned or, without a row, those of the
    local metadata, the session holds the key derived from the password and
    that salt, and the provider is authenticated.  When it fails, for any
    reason, the key cells, the storage, [isAuthenticated], [userEmail] and
    [vaultId] are as before. *)
Theorem login_outcomes (service : VaultService) (now later : N)
  (email masterPassword : jsstring) (w : World) :
  isLoading (snd (login service now later email masterPassword w)) = false /\
  (success (fst (login service now later email masterPassword w)) = true ->
   isAuthenticated (snd (login service now later email masterPassword w))
   = true /\
   exists salt hash saltBytes,
     match getVaultByEmail service email with
     | Some vaultData =>
         salt = vault_salt vaultData /\ hash = vault_auth_hash vaultData
     | None =>
         exists metadata,
           getVaultMetadata (storage w) = Some metadata /\
           salt = Storage.salt metadata /\ hash = authHash metadata
     end /\
     verifyMasterPassword masterPassword salt hash = Ok true /\
     base64ToUint8Array salt = Ok saltBytes /\
     crypto (snd (login service now later email masterPassword w))
     = set_key (deriveMasterKey masterPassword saltBytes)) /\
  (success (fst (login service now later email masterPassword w)) = false ->
   crypto (snd (login service now later email masterPassword w)) = crypto w /\
   storage (snd (login service now later email masterPassword w))
   = storage w /\
   isAuthenticated (snd (login service now later email masterPassword w))
   = isAuthenticated w /\
   userEmail (snd (login service now later email masterPassword w))
   = userEmail w /\
   vaultId (snd (login service now later email masterPassword w))
   = vaultId w).
Proof.
  unfold login.
  destruct (falsy (Some email) || falsy (Some masterPassword)).
  { cbn. repeat split; auto; discriminate. }
  destruct (getVaultByEmail service email) as [vaultData|].
  - destruct (unlock masterPassword (vault_salt vaultData)
                (vault_auth_hash vaultData) (crypto w)) as [[[|]|e] c] eqn:E;
      cbn [fst snd success failed succeeded isLoading isAuthenticated crypto
           storage userEmail vaultId];
      (split; [reflexivity|]); (split; [intros H|intros H]);
      try discriminate H.
    + split; [reflexivity|].
      destruct (unlock_true _ _ _ _ _ E) as (Hv & saltBytes & Hs & ->).
      exists (vault_salt vaultData), (vault_auth_hash vaultData), saltBytes.
      auto.
    + rewrite (unlock_not_true _ _ _ _ _ _ E) by discriminate. auto.
    + rewrite (unlock_not_true _ _ _ _ _ _ E) by discriminate. auto.
  - destruct (getVaultMetadata (storage w)) as [metadata|] eqn:Em.
    2:{ cbn. repeat split; auto; discriminate. }
    destruct (unlock masterPassword (salt metadata) (authHash metadata)
                (crypto w)) as [[[|]|e] c] eqn:E;
      cbn [fst snd success failed succeeded isLoading isAuthenticated crypto
           storage userEmail vaultId];
      (split; [reflexivity|]); (split; [intros H|intros H]);
      try discriminate H.
    + split; [reflexivity|].
      destruct (unlock_true _ _ _ _ _ E) as (Hv & saltBytes & Hs & ->).
      exists (salt metadata), (authHash metadata), saltBytes.
      split; [eauto|]. auto.
    + rewrite (unlock_not_true _ _ _ _ _ _ E) by discriminate. auto.
    + rewrite (unlock_not_true _ _ _ _ _ _ E) by discriminate. auto.
Qed.

Lemma register_validation service now (email pw : jsstring) w :
  vaultExistsInDB service email = true \/ email = [] \/ pw = []
  \/ (List.length pw < 8)%nat ->
  success (fst (register service now email pw w)) = false /\
  snd (register service now email pw w) = finally_loaded w.
Proof.
  intros H. unfold register.
  destruct (vaultExistsInDB service email); [split; reflexivity|].
  destruct (falsy (Some email) || falsy (Some pw)) eqn:Ef; [split; reflexivity|].
  destruct (List.length pw <? 8)%nat eqn:El; [split; reflexivity|].
  apply Nat.ltb_ge in El. apply orb_false_iff in Ef as [Fe Fp].
  destruct H as [H|[->|[->|H]]]; try discriminate. lia.
Qed.

Lemma register_validated service now (email pw : jsstring) w :
  vaultExistsInDB service email = false -> email <> [] ->
  (8 <= List.length pw)%nat ->
  register service now email pw w
  = (let salt := map (entropy (rng w)) (seq (used (rng w)) 16) in
     let metadata :=
       {| salt := encode_groups (map Byte.to_N salt);
          authHash :=
            encode_groups
              (map Byte.to_N
                 (pbkdf2 (stringToArrayBuffer pw) salt PBKDF2_ITERATIONS 256));
          email := email |} in
     let g := {| entropy := entropy (rng w);
                 used := (used (rng w) + 16)%nat |} in
     let c := set_key (deriveMasterKey pw salt) in
     let result := createVault service metadata in
     if negb (created result) then
       ({| success := false; error := created_error result |},
        {| isAuthenticated := isAuthenticated w; isLoading := false;
           userEmail := userEmail w; vaultId := vaultId w;
           hasVault := hasVault w; crypto := c; storage := storage w;
           rng := g |})
     else
       (succeeded,
        {| isAuthenticated := true; isLoading := false;
           userEmail := Some email;
           vaultId := or_null (created_vaultId result);
           hasVault := true; crypto := c;
           storage := saveVaultMetadata metadata now (storage w);
           rng := g |})).
Proof.
  intros He Hm Hp. unfold register. rewrite He.
  destruct email as [|c0 email]; [congruence|].
  destruct pw as [|p0 pw]; [cbn in Hp; lia|].
  cbn [falsy orb].
  rewrite (proj2 (Nat.ltb_ge _ _) Hp).
  rewrite initializeVault_value. reflexivity.
Qed.

(** X25. The outcomes of [register].  It ends with [isLoading] false.  It
    succeeds only for an email the service does not know, non-empty, with a
    password of 8 code units or more; then the provider is authenticated and
    unlocked, the metadata are stored, and 16 bytes of the CSPRNG are used.
    When it fails the storage and [isAuthenticated] are as before; when it
    fails in validation, also the key cells and the CSPRNG. *)
Theorem register_outcomes (service : VaultService) (now : N)
  (email masterPassword : jsstring) (w : World) :
  isLoading (snd (register service now email masterPassword w)) = false /\
  (success (fst (register service now email masterPassword w)) = true ->
   vaultExistsInDB service email = false /\ email <> [] /\
   (8 <= List.length masterPassword)%nat /\
   isAuthenticated (snd (register service now email masterPassword w)) = true /\
   hasVault (snd (register service now email masterPassword w)) = true /\
   userEmail (snd (register service now email masterPassword w)) = Some email /\
   isUnlocked (crypto (snd (register service now email masterPassword w)))
   = true /\
   vaultExists (storage (snd (register service now email masterPassword w)))
   = true /\
   getUserEmail (storage (snd (register service now email masterPassword w)))
   = Some email /\
   used (rng (snd (register service now email masterPassword w)))
   = (used (rng w) + 16)%nat) /\
  (success (fst (register service now email masterPassword w)) = false ->
   storage (snd (register service now email masterPassword w)) = storage w /\
   isAuthenticated (snd (register service now email masterPassword w))
   = isAuthenticated w) /\
  (vaultExistsInDB service email = true \/ email = [] \/ masterPassword = []
   \/ (List.length masterPassword < 8)%nat ->
   success (fst (register service now email masterPassword w)) = false /\
   crypto (snd (register service now email masterPassword w)) = crypto w /\
   rng (snd (register service now email masterPassword w)) = rng w).
Proof.
  assert (vaultExistsInDB service email = true \/ email = []
          \/ masterPassword = [] \/ (List.length masterPassword < 8)%nat
          \/ (vaultExistsInDB service email = false /\ email <> []
              /\ (8 <= List.length masterPassword)%nat)) as Hcases.
  { destruct (vaultExistsInDB service email); auto.
    destruct email; auto. destruct masterPassword; auto.
    destruct (Nat.lt_ge_cases (List.length (n0 :: masterPassword)) 8); auto.
    do 4 right. repeat split; auto; discriminate. }
  assert (vaultExistsInDB service email = true \/ email = []
          \/ masterPassword = [] \/ (List.length masterPassword < 8)%nat
          \/ (vaultExistsInDB service email = false /\ email <> []
              /\ (8 <= List.length masterPassword)%nat)) as Hcases'
    by exact Hcases.
  destruct Hcases as [H|[H|[H|[H|(He & Hm & Hp)]]]];
    try (destruct (register_validation service now email masterPassword w)
           as (Hs & Hw); [tauto|];
         rewrite Hs, Hw; cbn; repeat split; auto; discriminate).
  rewrite (register_validated service now email masterPassword w He Hm Hp).
  cbv zeta. destruct (created _);
    cbn [negb fst snd success succeeded isLoading isAuthenticated hasVault
         userEmail crypto storage rng used];
    (split; [reflexivity|]); (split; [intros H|split; intros H]);
    try discriminate H.
  - rewrite vaultExists_saved, getUserEmail_saved. cbn [Storage.email].
    repeat split; auto.
  - exfalso. destruct H as [H|[H|[H|H]]]; try congruence.
    + subst. cbn in Hp. lia.
    + lia.
  - auto.
  - exfalso. destruct H as [H|[H|[H|H]]]; try congruence.
    + subst. cbn in Hp. lia.
    + lia.
Qed.

(** X26. A registration that the service refuses after validation has
    passed fails and stores nothing, but leaves the session unlocked: the
    key derived for the vault that was not created stays in the hook, while
    [isAuthenticated] is as before. *)
Theorem refused_registration_leaves_key (service : VaultService) (now : N)
  (email masterPassword : jsstring) (w : World) :
  vaultExistsInDB service email = false -> email <> [] ->
  (8 <= List.length masterPassword)%nat ->
  (forall metadata, created (createVault service metadata) = false) ->
  success (fst (register service now email masterPassword w)) = false /\
  isAuthenticated (snd (register service now email masterPassword w))
  = isAuthenticated w /\
  storage (snd (register service now email masterPassword w)) = storage w /\
  isUnlocked (crypto (snd (register service now email masterPassword w)))
  = true /\
  crypto (snd (register service now email masterPassword w))
  = set_key
      (deriveMasterKey masterPassword
         (map (entropy (rng w)) (seq (used (rng w)) 16))).
Proof.
  intros He Hm Hp Hrefused.
  rewrite (register_validated service now email masterPassword w He Hm Hp).
  cbv zeta. rewrite Hrefused. cbn. repeat split.
Qed.

Lemma encode_groups_nonempty l : l <> [] -> encode_groups l <> [].
Proof.
  intros Hl E. apply (f_equal (@List.length _)) in E.
  rewrite encode_groups_length in E. destruct l as [|a l]; [congruence|].
  cbn [List.length] in E.
  assert (1 <= (S (List.length l) + 2) / 3)%nat
    by (apply Nat.div_le_lower_bound; lia).
  lia.
Qed.

(** The salt and hash that [initializeVault] returned open the session. *)
Lemma unlock_initialized pw salt st :
  unlock pw (encode_groups (map Byte.to_N salt))
    (encode_groups
       (map Byte.to_N
          (pbkdf2 (stringToArrayBuffer pw) salt PBKDF2_ITERATIONS 256))) st
  = (Ok true, set_key (deriveMasterKey pw salt)).
Proof.
  unfold unlock.
  rewrite (verifyMasterPassword_value _ _ _ _ (base64ToArrayBuffer_encode _)).
  rewrite str_eqb_refl. unfold unlockVault, base64ToUint8Array.
  now rewrite base64ToArrayBuffer_encode.
Qed.

Lemma register_succeeded service now (email pw : jsstring) w :
  success (fst (register service now email pw w)) = true ->
  vaultExistsInDB service email = false /\ email <> [] /\
  (8 <= List.length pw)%nat.
Proof.
  intros H.
  destruct (vaultExistsInDB service email) eqn:He.
  { destruct (register_validation service now email pw w) as (Hs & _);
      [auto|congruence]. }
  destruct email as [|c0 email].
  { destruct (register_validation service now [] pw w) as (Hs & _);
      [auto|congruence]. }
  destruct (Nat.lt_ge_cases (List.length pw) 8) as [Hp|Hp].
  { destruct (register_validation service now (c0 :: email) pw w) as (Hs & _);
      [auto|congruence]. }
  repeat split; auto. discriminate.
Qed.

(** X27. After a successful registration (PBKDF2 giving at least one
    byte): once locked, a login without a row from the service succeeds
    with the registered password on the local metadata, whatever non-empty
    email is typed, installs the same key again and sets the registered
    email; once logged out, the same login fails with [No vault found],
    while the email is still stored. *)
Theorem login_after_register (service offline : VaultService)
  (now t t' : N) (email typed masterPassword : jsstring) (w : World) :
  success (fst (register service now email masterPassword w)) = true ->
  (forall salt,
      pbkdf2 (stringToArrayBuffer masterPassword) salt PBKDF2_ITERATIONS 256
      <> []) ->
  getVaultByEmail offline typed = None -> typed <> [] ->
  (success
     (fst (login offline t t' typed masterPassword
             (lock (snd (register service now email masterPassword w)))))
   = true /\
   crypto
     (snd (login offline t t' typed masterPassword
             (lock (snd (register service now email masterPassword w)))))
   = crypto (snd (register service now email masterPassword w)) /\
   userEmail
     (snd (login offline t t' typed masterPassword
             (lock (snd (register service now email masterPassword w)))))
   = Some email) /\
  (fst (login offline t t' typed masterPassword
          (logout (snd (register service now email masterPassword w))))
   = failed "No vault found" /\
   isAuthenticated
     (snd (login offline t t' typed masterPassword
             (logout (snd (register service now email masterPassword w)))))
   = false /\
   getUserEmail
     (storage (logout (snd (register service now email masterPassword w))))
   = Some email).
Proof.
  intros Hs Hbits Hoff Htyped.
  destruct (register_succeeded _ _ _ _ _ Hs) as (He & Hm & Hp).
  revert Hs.
  rewrite (register_validated service now email masterPassword w He Hm Hp).
  cbv zeta. destruct (created _); cbn [negb fst snd success]; [|discriminate].
  intros _.
  assert (exists p0 pw', masterPassword = p0 :: pw') as (p0 & pw' & Epw)
    by (destruct masterPassword; [cbn in Hp; lia|eauto]).
  assert (exists c0 typed', typed = c0 :: typed') as (c0 & typed' & Et)
    by (destruct typed; [congruence|eauto]).
  split.
  - unfold login. rewrite Hoff.
    replace (falsy (Some typed) || falsy (Some masterPassword)) with false
      by (rewrite Epw, Et; reflexivity).
    cbn [lock storage crypto].
    rewrite getVaultMetadata_saved. cbn [salt authHash Storage.email].
    match goal with
    | |- context [if ?c then None else Some ?m] =>
        replace c with false
    end.
    2:{ symmetry. apply orb_false_iff. split; [apply orb_false_iff; split|].
        - destruct (encode_groups _) eqn:E; [|reflexivity].
          apply encode_groups_nonempty in E; [contradiction|].
          intros E'. apply (f_equal (@List.length _)) in E'.
          rewrite !length_map, length_seq in E'. discriminate.
        - destruct (encode_groups _) eqn:E; [|reflexivity].
          apply encode_groups_nonempty in E; [contradiction|].
          intros E'. apply map_eq_nil in E'. now apply Hbits in E'.
        - destruct email; [congruence|reflexivity]. }
    cbn [salt authHash]. rewrite unlock_initialized.
    cbn. repeat split.
  - unfold login. rewrite Hoff.
    replace (falsy (Some typed) || falsy (Some masterPassword)) with false
      by (rewrite Epw, Et; reflexivity).
    cbn [logout storage]. rewrite getVaultMetadata_cleared.
    cbn [fst snd isAuthenticated finally_loaded]. split; [reflexivity|].
    split; [reflexivity|].
    now rewrite getUserEmail_cleared, getUserEmail_saved.
Qed.

End WithProvider.


Lemma refused_registration_leaves_key_witness :
  success
    (fst (@register model_provider ProviderSamples.refusing_service
            1700000000000 ProviderSamples.sample_email
            ProviderSamples.sample_password ProviderSamples.fresh_world))
  = false /\
  isUnlocked
    (crypto
       (snd (@register model_provider ProviderSamples.refusing_service
               1700000000000 ProviderSamples.sample_email
               ProviderSamples.sample_password ProviderSamples.fresh_world)))
  = true.
Proof.
  destruct (@refused_registration_leaves_key model_provider
              ProviderSamples.refusing_service 1700000000000
              ProviderSamples.sample_email ProviderSamples.sample_password
              ProviderSamples.fresh_world) as (Hs & _ & _ & Hu & _).
  - reflexivity.
  - discriminate.
  - vm_compute. lia.
  - intros metadata. reflexivity.
  - split; [exact Hs|exact Hu].
Defined.

Lemma login_after_register_witness :
  success
    (fst (@login model_provider ProviderSamples.accepting_service
            1700000100000 1700000100001 (lit "someone") 
            ProviderSamples.sample_password
            (lock
               (snd (register ProviderSamples.accepting_service 1700000000000
                       ProviderSamples.sample_email
                       ProviderSamples.sample_password
                       ProviderSamples.fresh_world)))))
  = true /\
  fst (@login model_provider ProviderSamples.accepting_service
         1700000100000 1700000100001 (lit "someone")
         ProviderSamples.sample_password
         (logout
            (snd (register ProviderSamples.accepting_service 1700000000000
                    ProviderSamples.sample_email
                    ProviderSamples.sample_password
                    ProviderSamples.fresh_world))))
  = failed "No vault found".
Proof.
  destruct (@login_after_register model_provider
              ProviderSamples.accepting_service
              ProviderSamples.accepting_service
              1700000000000 1700000100000 1700000100001
              ProviderSamples.sample_email (lit "someone")
              ProviderSamples.sample_password ProviderSamples.fresh_world)
    as ((Hs & _ & _) & (Hf & _ & _)).
  - vm_compute. reflexivity.
  - intros salt. vm_compute. discriminate.
  - reflexivity.
  - discriminate.
  - split; [exact Hs|exact Hf].
Defined.

End VaultProviderFacts.

(** ** A batch: every record its own nonce *)

Module BatchNonceFacts.

Import Base64 Codec Encryption.
Import Basics CodecFacts EncryptionFacts NonceFacts.

Section WithProvider.
Context {provider : WebCrypto}.

Lemma batch_nonces secrets K : forall g,
  exists encrypted,
    fst (encryptSecretsBatch secrets K g) = Ok encrypted /\
    map enc_iv encrypted
    = map (fun b => encode_groups (map Byte.to_N b))
        (nonces (List.length secrets) g).
Proof.
  unfold encryptSecretsBatch.
  induction secrets as [|[id R] rest IH]; intros g.
  - exists []. split; reflexivity.
  - cbn [Promise_all_map_rng List.length]. unfold encryptSecret at 1.
    rewrite encryptData_value. cbv zeta. cbn [bind].
    destruct (IH {| entropy := entropy g; used := (used g + 12)%nat |})
      as (encrypted & E & Hiv).
    destruct (Promise_all_map_rng _ rest _) as [rs g2]. cbn [fst] in *.
    rewrite E. eexists. split; [reflexivity|].
    cbn [map enc_iv iv]. rewrite nonces_succ. cbn [map]. now rewrite Hiv.
Qed.

(** X7. Within a batch every record has its own nonce:
    [encryptSecretsBatch] gives the records, in order, the successive
    12-byte blocks of the CSPRNG as nonces, so that when those blocks are
    distinct no two records of the batch share an [iv]. *)
Theorem batch_nonces_fresh (secrets : list (jsstring * PlainSecret))
  (K : CryptoKey) (g : Rng) :
  NoDup (nonces (List.length secrets) g) ->
  exists encrypted,
    fst (encryptSecretsBatch secrets K g) = Ok encrypted /\
    List.length encrypted = List.length secrets /\
    map enc_iv encrypted
    = map (fun b => encode_groups (map Byte.to_N b))
        (nonces (List.length secrets) g) /\
    NoDup (map enc_iv encrypted).
Proof.
  intros Hfresh.
  destruct (batch_nonces secrets K g) as (encrypted & E & Hiv).
  exists encrypted. split; [exact E|]. split; [|split; [exact Hiv|]].
  - apply (f_equal (@List.length _)) in Hiv.
    rewrite !length_map in Hiv. rewrite Hiv. unfold nonces.
    now rewrite length_map, length_seq.
  - rewrite Hiv. apply NoDup_map_NoDup_ForallPairs; auto.
    intros b1 b2 _ _. apply encode_buffer_inj.
Qed.

End WithProvider.

Lemma batch_nonces_fresh_witness :
  exists encrypted,
    fst (@encryptSecretsBatch model_provider
           [(lit "1", Samples.sample_secret); (lit "2", Samples.sample_secret);
            (lit "3", Samples.sample_secret)]
           Samples.sample_key Samples.sample_rng) = Ok encrypted /\
    List.length encrypted = 3%nat /\
    NoDup (map enc_iv encrypted).
Proof.
  destruct (@batch_nonces_fresh model_provider
              [(lit "1", Samples.sample_secret); (lit "2", Samples.sample_secret);
               (lit "3", Samples.sample_secret)]
              Samples.sample_key Samples.sample_rng)
    as (encrypted & E & Hlen & _ & Hfresh).
  - vm_compute. distinct_lists.
  - exists encrypted. auto.
Defined.

End BatchNonceFacts.

(** ** The issues of a report, one by one *)

Module IssueFacts.

Import Num PasswordGenerator SecurityAnalyzer Report Groups Basics.
Import SecurityAnalyzerFacts ReportFacts.

Lemma map_push_ids m p i q :
  group_ids (map_push m p i) q
  = if str_eqb p q then group_ids m p ++ [i] else group_ids m q.
Proof.
  induction m as [|[k ids] m IH]; cbn [map_push group_ids].
  - destruct (str_eqb p q); reflexivity.
  - destruct (str_eqb k p) eqn:Ekp; cbn [group_ids].
    + apply str_eqb_eq in Ekp. subst k. now destruct (str_eqb p q).
    + rewrite IH. destruct (str_eqb p q) eqn:Epq; auto.
      apply str_eqb_eq in Epq. subst q. now rewrite Ekp.
Qed.

Lemma build_ids l q : group_ids (build l) q = map id (filter (has_password q) l).
Proof.
  unfold build. induction l as [|s l IH] using rev_ind; [reflexivity|].
  rewrite fold_left_app. cbn [fold_left].
  rewrite map_push_ids, filter_app, map_app. cbn [filter].
  unfold has_password at 2.
  destruct (str_eqb (password s) q) eqn:E.
  - apply str_eqb_eq in E. subst q. now rewrite IH.
  - rewrite IH. cbn [map]. now rewrite app_nil_r.
Qed.

Lemma map_push_keys m p i k :
  In k (map fst (map_push m p i)) <-> k = p \/ In k (map fst m).
Proof.
  induction m as [|[k0 ids] m IH]; cbn [map_push map fst In].
  - intuition auto.
  - destruct (str_eqb k0 p) eqn:E; cbn [map fst In].
    + apply str_eqb_eq in E. subst k0. intuition auto.
    + rewrite IH. intuition auto.
Qed.

Lemma map_push_NoDup m p i :
  NoDup (map fst m) -> NoDup (map fst (map_push m p i)).
Proof.
  induction m as [|[k0 ids] m IH]; cbn [map_push map fst]; intros H.
  - repeat constructor. intros [].
  - inversion H as [|? ? Hk Hm]; subst.
    destruct (str_eqb k0 p) eqn:E; cbn [map fst].
    + now constructor.
    + constructor; [|auto]. rewrite map_push_keys. intros [->|Hin]; auto.
      now rewrite str_eqb_refl in E.
Qed.

Lemma build_NoDup l : NoDup (map fst (build l)).
Proof.
  unfold build. induction l as [|s l IH] using rev_ind; [constructor|].
  rewrite fold_left_app. cbn [fold_left]. now apply map_push_NoDup.
Qed.

Lemma entry_ids m p ids :
  NoDup (map fst m) -> In (p, ids) m -> group_ids m p = ids.
Proof.
  induction m as [|[k0 ids0] m IH]; cbn [map fst In group_ids]; [tauto|].
  intros H Hin. inversion H as [|? ? Hk Hm]; subst.
  destruct Hin as [E|Hin].
  - injection E as -> ->. now rewrite str_eqb_refl.
  - destruct (str_eqb k0 p) eqn:E; [|auto].
    apply str_eqb_eq in E. subst k0. exfalso. apply Hk.
    apply in_map_iff. now exists (p, ids).
Qed.

Lemma ids_entry m p :
  group_ids m p <> [] -> In (p, group_ids m p) m.
Proof.
  induction m as [|[k0 ids0] m IH]; cbn [group_ids In]; [congruence|].
  destruct (str_eqb k0 p) eqn:E; auto.
  apply str_eqb_eq in E. subst k0. auto.
Qed.

Section WithDates.
Context {dates : DateParser}.

Lemma passwordMap_build now secrets :
  passwordMap (first_pass now secrets) = build secrets.
Proof.
  unfold first_pass.
  now destruct (first_pass_fold now secrets
                  {| passwordMap := []; weakCount := 0; oldCount := 0;
                     strongCount := 0 |}) as (_ & _ & _ & ->).
Qed.

(** X13. The reused-password issues are the groups of records
    that share a password: for every password that two or more records
    have there is an issue of severity high whose [secretIds] are the ids
    of exactly those records, in the order of the collection, and whose id
    is [reused-] followed by the first 8 code units of the password; and
    every reused-password issue of the report is such a group. *)
Theorem reused_issue_groups (now : Z) (secrets : list SecretData) :
  (forall p,
      (1 < count (has_password p) secrets)%nat ->
      exists i,
        In i (issues (analyzeSecrets now secrets)) /\
        issue_type i = issue_reused /\ severity i = high /\
        issue_id i = lit "reused-" ++ firstn 8 p /\
        secretIds i = map id (filter (has_password p) secrets)) /\
  (forall i,
      In i (issues (analyzeSecrets now secrets)) ->
      issue_type i = issue_reused ->
      exists p,
        (1 < count (has_password p) secrets)%nat /\ severity i = high /\
        issue_id i = lit "reused-" ++ firstn 8 p /\
        secretIds i = map id (filter (has_password p) secrets)).
Proof.
  split.
  - intros p Hp.
    assert (group_ids (build secrets) p
            = map id (filter (has_password p) secrets)) as Hids
      by apply build_ids.
    assert (List.length (group_ids (build secrets) p)
            = count (has_password p) secrets) as Hlen
      by (rewrite Hids, length_map; reflexivity).
    assert (In (p, group_ids (build secrets) p) (build secrets)) as Hin.
    { apply ids_entry. intros E. rewrite E in Hlen. cbn in Hlen. lia. }
    eexists. split.
    + apply (Permutation_in _ (Permutation_sym (issues_perm now secrets))).
      apply in_or_app. right. apply in_or_app. left.
      rewrite passwordMap_build. apply in_flat_map.
      exists (p, group_ids (build secrets) p). split; [exact Hin|].
      unfold reused_issue. rewrite Hlen.
      rewrite (proj2 (Nat.ltb_lt _ _) Hp). left. reflexivity.
    + cbn [issue_type severity issue_id secretIds]. auto.
  - intros i Hi Ht.
    apply (Permutation_in _ (issues_perm now secrets)) in Hi.
    rewrite !in_app_iff, !in_flat_map in Hi.
    destruct Hi as [(s & _ & Hi)|[([p ids] & Hm & Hi)|(s & _ & Hi)]].
    + unfold weak_issue in Hi. destruct (is_weak _); [|contradiction].
      destruct Hi as [<-|[]]. discriminate.
    + rewrite passwordMap_build in Hm.
      pose proof (entry_ids _ _ _ (build_NoDup secrets) Hm) as Hids.
      rewrite build_ids in Hids. unfold reused_issue in Hi.
      destruct (1 <? List.length ids)%nat eqn:E; [|contradiction].
      destruct Hi as [<-|[]]. exists p.
      cbn [issue_type severity issue_id secretIds].
      apply Nat.ltb_lt in E. rewrite <- Hids in E. rewrite length_map in E.
      auto.
    + unfold old_issue in Hi.
      destruct (Date_getTime (updatedAt s)) as [u|]; [|contradiction].
      destruct (u <? now - 180 * day_ms)%Z; [|contradiction].
      destruct Hi as [<-|[]]. discriminate.
Qed.

(** X14. When a record counts as old.  A record whose
    [updatedAt] is no date is never old.  One updated 180 days ago or less
    gets no issue; one updated more than 180 days ago gets one issue, on
    itself, of at least 6 months of 30 days, of severity low up to 389 days
    and medium from 390 days on (more than 12 such months). *)
Theorem old_issue_by_age (now : Z) (s : SecretData) :
  (Date_getTime (updatedAt s) = None ->
   is_old now s = false /\ old_issue now s = []) /\
  (forall t,
      Date_getTime (updatedAt s) = Some t ->
      (now - t <= 180 * day_ms)%Z ->
      is_old now s = false /\ old_issue now s = []) /\
  (forall t,
      Date_getTime (updatedAt s) = Some t ->
      (180 * day_ms < now - t)%Z ->
      is_old now s = true /\
      exists i,
        old_issue now s = [i] /\
        issue_id i = lit "old-" ++ id s /\ secretIds i = [id s] /\
        severity i
        = (if (390 * day_ms <=? now - t)%Z then severity_medium else low) /\
        (6 <= (now - t) / (30 * day_ms))%Z).
Proof.
  unfold is_old, old_issue. split; [|split].
  - intros ->. split; reflexivity.
  - intros t -> H. replace (t <? now - 180 * day_ms)%Z with false; [auto|].
    symmetry. apply Z.ltb_ge. lia.
  - intros t -> H. replace (t <? now - 180 * day_ms)%Z with true.
    2:{ symmetry. apply Z.ltb_lt. lia. }
    split; [reflexivity|]. eexists. split; [reflexivity|].
    cbn [issue_id secretIds severity]. repeat split.
    + unfold day_ms in *.
      destruct (Z.leb_spec (390 * (24 * 60 * 60 * 1000)) (now - t));
        destruct (Z.ltb_spec 12 ((now - t) / (30 * (24 * 60 * 60 * 1000))));
        auto; lia.
    + unfold day_ms in *. lia.
Qed.

End WithDates.

End IssueFacts.

(** ** lib/storage.ts: the time of the last unlock, read back *)

Module LastUnlockFacts.

Import Storage LastUnlock Basics StorageFacts.

Lemma of_uint_acc_value d : forall acc,
  N.pos (Pos.of_uint_acc d acc) = uint_value d (N.pos acc).
Proof.
  induction d; intros acc; cbn [Pos.of_uint_acc uint_value]; auto;
    rewrite IHd; f_equal; lia.
Qed.

Lemma of_uint_value d : Pos.of_uint d = uint_value d 0.
Proof.
  induction d; cbn [Pos.of_uint uint_value]; auto;
    rewrite of_uint_acc_value; reflexivity.
Qed.

Lemma lit_cons c s : lit (String c s) = N_of_ascii c :: lit s.
Proof. reflexivity. Qed.

Lemma leading_digit c rest :
  48 <= c <= 57 ->
  leading_digits (c :: rest) = (c - 48) :: leading_digits rest.
Proof.
  intros H. cbn [leading_digits].
  destruct (N.leb_spec 48 c); [|lia]. destruct (N.leb_spec c 57); [|lia].
  reflexivity.
Qed.

Ltac read_digit :=
  cbn [NilEmpty.string_of_uint]; rewrite lit_cons;
  match goal with
  | |- context [N_of_ascii ?c] =>
      let v := eval vm_compute in (N_of_ascii c) in
      change (N_of_ascii c) with v
  end;
  rewrite leading_digit by lia.

Lemma value_of_uint d : forall acc,
  fold_left (fun a x => a * 10 + x)
    (leading_digits (lit (NilEmpty.string_of_uint d))) acc
  = uint_value d acc.
Proof.
  induction d; intros acc; cbn [uint_value]; [reflexivity|..];
    read_digit; cbn [fold_left]; rewrite IHd; f_equal; lia.
Qed.

Lemma digits_of_uint d :
  d <> Decimal.Nil ->
  leading_digits (lit (NilEmpty.string_of_uint d)) <> [].
Proof. destruct d; [congruence|..]; intros _; read_digit; discriminate. Qed.

Lemma to_uint_not_nil n : N.to_uint n <> Decimal.Nil.
Proof.
  destruct n as [|p]; [discriminate|].
  exact (DecimalPos.Unsigned.to_uint_nonnil p).
Qed.

Lemma trim_digits s :
  leading_digits s <> [] -> trim_start s = s.
Proof.
  destruct s as [|c rest]; [reflexivity|]. cbn [leading_digits trim_start].
  destruct (N.leb_spec 48 c); cbn [andb]; [|congruence].
  destruct (N.leb_spec c 57); [|congruence]. intros _.
  unfold str_whitespace.
  repeat match goal with
         | |- context [c =? ?k] => destruct (N.eqb_spec c k); [lia|]
         end.
  destruct (N.leb_spec 8192 c); [lia|]. reflexivity.
Qed.

Lemma parseInt_toString n : parseInt10 (Number_toString n) = Some (Z.of_N n).
Proof.
  unfold Number_toString, NilZero.string_of_uint.
  pose proof (to_uint_not_nil n) as Hn.
  pose proof (digits_of_uint _ Hn) as Hd.
  pose proof (value_of_uint (N.to_uint n) 0) as Hv.
  rewrite <- of_uint_value in Hv.
  change (Pos.of_uint (N.to_uint n)) with (N.of_uint (N.to_uint n)) in Hv.
  rewrite DecimalN.Unsigned.of_to in Hv.
  destruct (N.to_uint n) eqn:E; [congruence|..];
    unfold parseInt10; rewrite (trim_digits _ Hd);
    revert Hd Hv; cbn [NilEmpty.string_of_uint]; rewrite lit_cons;
    match goal with
    | |- context [N_of_ascii ?c] =>
        let v := eval vm_compute in (N_of_ascii c) in
        change (N_of_ascii c) with v
    end;
    cbv beta iota zeta; rewrite leading_digit by lia; intros Hd Hv;
    cbv beta iota zeta; unfold digits_value; rewrite Hv; reflexivity.
Qed.

Lemma toString_nonempty n : Number_toString n <> [].
Proof.
  unfold Number_toString, NilZero.string_of_uint.
  pose proof (to_uint_not_nil n) as Hn.
  destruct (N.to_uint n); [congruence|..];
    cbn [NilEmpty.string_of_uint]; rewrite lit_cons; discriminate.
Qed.

Lemma getLastUnlock_item store n :
  getItem store LAST_UNLOCK = Some (Number_toString n) ->
  getLastUnlock store = timestamp (Some (Z.of_N n)).
Proof.
  intros E. unfold getLastUnlock. rewrite E.
  pose proof (toString_nonempty n) as Hn.
  destruct (Number_toString n) as [|c rest] eqn:Es; [congruence|].
  cbv beta iota. rewrite <- Es. now rewrite parseInt_toString.
Qed.

(** X22. The time of the last unlock, for times below
    2^53: after [updateLastUnlock] and after [saveVaultMetadata],
    [getLastUnlock] returns the time that was written, as a number parsed
    from its decimal digits; after [clearSensitiveData] or [clearVaultData]
    it returns [null]; [updateLastUnlock] leaves all other items as they
    were. *)
Theorem last_unlock_round_trip (now : N) (metadata : VaultMetadata)
  (store : LocalStorage) :
  now < 2 ^ 53 ->
  getLastUnlock (updateLastUnlock now store) = timestamp (Some (Z.of_N now)) /\
  getLastUnlock (saveVaultMetadata metadata now store)
  = timestamp (Some (Z.of_N now)) /\
  getLastUnlock (clearSensitiveData store) = no_timestamp /\
  getLastUnlock (clearVaultData store) = no_timestamp /\
  (forall key, key <> LAST_UNLOCK ->
     getItem (updateLastUnlock now store) key = getItem store key).
Proof.
  intros _. split; [|split; [|split; [|split]]].
  - apply getLastUnlock_item. unfold updateLastUnlock.
    now rewrite getItem_setItem, str_eqb_refl.
  - apply getLastUnlock_item. rewrite saved_items. now rewrite str_eqb_refl.
  - unfold getLastUnlock. rewrite cleared_sensitive.
    now rewrite str_eqb_refl.
  - unfold getLastUnlock, clearVaultData, STORAGE_KEYS. cbn [fold_left].
    rewrite !getItem_removeItem. now rewrite str_eqb_refl.
  - intros key Hkey. unfold updateLastUnlock. rewrite getItem_setItem.
    now rewrite (proj2 (str_eqb_neq _ _) (not_eq_sym Hkey)).
Qed.

Lemma last_unlock_round_trip_witness :
  getLastUnlock (updateLastUnlock 1700000000000 [])
  = timestamp (Some 1700000000000%Z).
Proof.
  apply (last_unlock_round_trip 1700000000000
           {| salt := []; authHash := []; email := [] |} []).
  reflexivity.
Defined.

End LastUnlockFacts.

(** ** [VaultProvider]: mounting again *)

Module RemountFacts.

Import Base64 Codec Keys UseCrypto Storage VaultProvider.
Import Basics StorageFacts VaultProviderFacts.

Section WithProvider.
Context {provider : WebCrypto}.

Lemma checkVault_with_email service w c rest :
  getUserEmail (storage w) = Some (c :: rest) ->
  userEmail (checkVault service w) = Some (c :: rest) /\
  hasVault (checkVault service w) = vaultExistsInDB service (c :: rest).
Proof. intros E. unfold checkVault. rewrite E. split; reflexivity. Qed.

(** X28. Logging out keeps the email for the next mount:
    after a successful registration and a logout no vault exists locally,
    and a provider mounted on that storage finds the registered email, asks
    the service whether a vault exists for it and takes the answer as
    [hasVault]; it ends loading, locked and not authenticated. *)
Theorem remount_after_logout (service remote : VaultService) (now : N)
  (email masterPassword : jsstring) (w : World) (g : Rng) :
  success (fst (register service now email masterPassword w)) = true ->
  userEmail
    (checkVault remote
       (mounted
          (storage (logout (snd (register service now email masterPassword w))))
          g))
  = Some email /\
  hasVault
    (checkVault remote
       (mounted
          (storage (logout (snd (register service now email masterPassword w))))
          g))
  = vaultExistsInDB remote email /\
  vaultExists
    (storage (logout (snd (register service now email masterPassword w))))
  = false /\
  isAuthenticated
    (checkVault remote
       (mounted
          (storage (logout (snd (register service now email masterPassword w))))
          g))
  = false /\
  isLoading
    (checkVault remote
       (mounted
          (storage (logout (snd (register service now email masterPassword w))))
          g))
  = false /\
  crypto
    (checkVault remote
       (mounted
          (storage (logout (snd (register service now email masterPassword w))))
          g))
  = initial.
Proof.
  intros Hs.
  destruct (register_succeeded _ _ _ _ _ Hs) as (He & Hm & Hp).
  revert Hs.
  rewrite (register_validated service now email masterPassword w He Hm Hp).
  cbv zeta. destruct (created _); cbn [negb fst snd success]; [|discriminate].
  intros _. cbn [logout storage].
  match goal with
  | |- context [saveVaultMetadata ?m now (storage w)] => set (metadata := m)
  end.
  assert (getUserEmail (clearSensitiveData
                          (saveVaultMetadata metadata now (storage w)))
          = Some email) as Hu
    by (now rewrite getUserEmail_cleared, getUserEmail_saved).
  destruct email as [|c rest]; [congruence|].
  destruct (checkVault_with_email remote
              (mounted (clearSensitiveData
                          (saveVaultMetadata metadata now (storage w))) g)
              c rest Hu) as (H1 & H2).
  split; [exact H1|]. split; [exact H2|]. split.
  - unfold vaultExists. rewrite cleared_sensitive.
    unfold LAST_UNLOCK, VAULT_AUTH_HASH, VAULT_SALT, VAULT_EXISTS.
    items. reflexivity.
  - unfold checkVault. cbn [mounted storage]. rewrite Hu. repeat split.
Qed.

End WithProvider.

Lemma remount_after_logout_witness :
  userEmail
    (@checkVault model_provider ProviderSamples.accepting_service
       (mounted
          (storage
             (logout
                (snd (register ProviderSamples.accepting_service 1700000000000
                        ProviderSamples.sample_email
                        ProviderSamples.sample_password
                        ProviderSamples.fresh_world))))
          Samples.sample_rng))
  = Some ProviderSamples.sample_email.
Proof.
  apply (@remount_after_logout model_provider).
  vm_compute. reflexivity.
Defined.

End RemountFacts.

(** ** [useAutoLock]: the timers *)

Module UseAutoLockFacts.

Import UseAutoLock.
#[local] Open Scope Z_scope.














End UseAutoLockFacts.

(** ** [generatePassword]: what it returns *)

Module GeneratorFacts.

Import PasswordGenerator Generator.

Lemma choices_checked : forallb choice_checked all_choices = true.
Proof. vm_compute. reflexivity. Qed.

Lemma choice_of options :
  charset_of options
  = charset_of {| length := 0; uppercase := uppercase options;
                  lowercase := lowercase options; numbers := numbers options;
                  symbols := symbols options;
                  excludeAmbiguous := excludeAmbiguous options |} /\
  required_sets options
  = required_sets {| length := 0; uppercase := uppercase options;
                     lowercase := lowercase options;
                     numbers := numbers options; symbols := symbols options;
                     excludeAmbiguous := excludeAmbiguous options |} /\
  In {| length := 0; uppercase := uppercase options;
        lowercase := lowercase options; numbers := numbers options;
        symbols := symbols options;
        excludeAmbiguous := excludeAmbiguous options |} all_choices.
Proof.
  split; [reflexivity|]. split; [reflexivity|].
  destruct (uppercase options), (lowercase options), (numbers options),
    (symbols options), (excludeAmbiguous options); cbn; auto 40.
Qed.

Lemma includes_In s c : includes s c = true <-> In c s.
Proof.
  unfold includes. rewrite existsb_exists. split.
  - intros (x & Hx & E). apply N.eqb_eq in E. now subst.
  - intros H. exists c. split; [assumption|apply N.eqb_refl].
Qed.

Lemma choice_facts options :
  charset_of options <> [] /\
  (forall req, In req (required_sets options) ->
     replacements options req <> [] /\
     incl (replacements options req) (charset_of options)) /\
  (excludeAmbiguous options = true ->
   Forall (fun c => includes CHARS_ambiguous c = false) (charset_of options)).
Proof.
  destruct (choice_of options) as (Ec & Er & Hin).
  pose proof (proj1 (forallb_forall _ _) choices_checked _ Hin) as H.
  unfold choice_checked in H.
  apply andb_true_iff in H as [H Hamb]. apply andb_true_iff in H as [Hne Hreq].
  rewrite <- Ec, <- Er in *. cbn [excludeAmbiguous] in Hamb.
  split; [|split].
  - intros E. rewrite E in Hne. discriminate.
  - intros req Hr.
    pose proof (proj1 (forallb_forall _ _) Hreq req Hr) as H.
    apply andb_true_iff in H as [H1 H2].
    assert (replacements options req
            = replacements
                {| length := 0; uppercase := uppercase options;
                   lowercase := lowercase options; numbers := numbers options;
                   symbols := symbols options;
                   excludeAmbiguous := excludeAmbiguous options |} req) as E
      by reflexivity.
    rewrite <- E in *. split.
    + intros E'. rewrite E' in H1. discriminate.
    + intros c Hc. apply includes_In.
      exact (proj1 (forallb_forall _ _) H2 c Hc).
  - intros He. rewrite He in Hamb. cbn [negb orb] in Hamb.
    apply Forall_forall. intros c Hc.
    pose proof (proj1 (forallb_forall _ _) Hamb c Hc) as H.
    now apply negb_true_iff in H.
Qed.

Lemma uint32s_length n : forall b,
  List.length b = (4 * n)%nat -> List.length (uint32s b) = n.
Proof.
  induction n as [|n IH]; intros b Hb.
  - destruct b; [reflexivity|discriminate].
  - destruct b as [|b0 [|b1 [|b2 [|b3 rest]]]]; cbn [List.length] in Hb; try lia.
    cbn [uint32s List.length]. rewrite IH; [reflexivity|]. lia.
Qed.

Lemma assign_at_drawn charset c x : forall i chars,
  c = Some x -> In x charset -> (i < List.length chars)%nat ->
  drawn_from charset chars ->
  drawn_from charset (assign_at i c chars) /\
  List.length (assign_at i c chars) = List.length chars.
Proof.
  intros i chars Hc Hx. revert i.
  induction chars as [|y chars IH]; intros i Hi Hd; [cbn in Hi; lia|].
  inversion Hd as [|? ? Hy Hrest]; subst.
  destruct i as [|i]; cbn [assign_at List.length].
  - split; [|reflexivity]. constructor; eauto.
  - destruct (IH i) as (H1 & H2); [cbn in Hi; lia|assumption|].
    split; [constructor; assumption|now rewrite H2].
Qed.

Lemma join_drawn charset chars :
  drawn_from charset chars ->
  List.length (join_chars chars) = List.length chars /\
  Forall (fun c => In c charset) (join_chars chars).
Proof.
  unfold join_chars.
  induction 1 as [|c chars (x & -> & Hx) Hrest [IH1 IH2]];
    cbn [flat_map app List.length].
  - split; [reflexivity|constructor].
  - split; [now rewrite IH1|constructor; assumption].
Qed.

Lemma ensure_one_drawn password options req chars modified random :
  In req (required_sets options) -> in_range random ->
  (0 < List.length chars)%nat ->
  drawn_from (charset_of options) chars ->
  drawn_from (charset_of options)
    (fst (fst (ensure_one password options (chars, modified, random) req))) /\
  List.length
    (fst (fst (ensure_one password options (chars, modified, random) req)))
  = List.length chars /\
  in_range (snd (ensure_one password options (chars, modified, random) req)).
Proof.
  intros Hreq Hrange Hlen Hd. unfold ensure_one.
  destruct (fst req password); [cbn; auto|].
  unfold next_index. cbn [fst snd scaled calls].
  destruct (choice_facts options) as (_ & Hsets & _).
  destruct (Hsets req Hreq) as (Hne & Hincl).
  fold (replacements options req).
  assert (0 < List.length (replacements options req))%nat as Hpos
    by (destruct (replacements options req); [congruence|cbn; lia]).
  pose proof (Hrange (S (calls random)) _ Hpos) as Hidx.
  destruct (nth_error (replacements options req)
              (scaled random (S (calls random))
                 (List.length (replacements options req)))) as [x|] eqn:Ex.
  2:{ apply nth_error_None in Ex. lia. }
  apply nth_error_In in Ex.
  destruct (assign_at_drawn (charset_of options) (Some x) x
              (scaled random (calls random) (List.length chars)) chars)
    as (H1 & H2); auto.
Qed.

Lemma ensure_all_drawn password options : forall reqs chars modified random,
  incl reqs (required_sets options) -> in_range random ->
  (0 < List.length chars)%nat ->
  drawn_from (charset_of options) chars ->
  drawn_from (charset_of options)
    (fst (fst (fold_left (ensure_one password options) reqs
                 (chars, modified, random)))) /\
  List.length
    (fst (fst (fold_left (ensure_one password options) reqs
                 (chars, modified, random))))
  = List.length chars.
Proof.
  induction reqs as [|req reqs IH]; intros chars modified random Hi Hr Hl Hd;
    [cbn; auto|].
  cbn [fold_left].
  destruct (ensure_one_drawn password options req chars modified random)
    as (H1 & H2 & H3); auto.
  { apply Hi. now left. }
  destruct (ensure_one password options (chars, modified, random) req)
    as [[chars' modified'] random'].
  cbn [fst snd] in *.
  destruct (IH chars' modified' random') as (H4 & H5); auto.
  { intros r Hr'. apply Hi. now right. }
  { lia. }
  split; [exact H4|lia].
Qed.

(** X18. What [generatePassword] returns, for a length
    from 1 to 16384 and a [Math.random] below 1: a password of exactly the
    requested length, every character of it from the character set of the
    options, none of the ambiguous characters when they are excluded; it
    takes 4 bytes of the CSPRNG per character. *)
Theorem generated_password_shape (options : PasswordOptions) (g : Rng)
  (random : MathRandom) :
  in_range random ->
  (1 <= length options)%nat -> N.of_nat (length options) <= 16384 ->
  exists password,
    fst (fst (generatePassword options g random)) = Some password /\
    List.length password = length options /\
    Forall (fun c => In c (charset_of options)) password /\
    (excludeAmbiguous options = true ->
     Forall (fun c => includes CHARS_ambiguous c = false) password) /\
    used (snd (fst (generatePassword options g random)))
    = (used g + 4 * length options)%nat.
Proof.
  intros Hrange Hlen Hmax. unfold generatePassword.
  replace (65536 <? 4 * N.of_nat (length options)) with false
    by (symmetry; apply N.ltb_ge; lia).
  unfold getRandomValues.
  set (charset := charset_of options).
  set (values := uint32s _).
  set (picked := map _ values).
  destruct (choice_facts options) as (Hne & _ & Hamb).
  assert (List.length values = length options) as Hvalues.
  { apply uint32s_length. now rewrite length_map, length_seq. }
  assert (drawn_from charset picked) as Hpicked.
  { apply Forall_forall. intros c Hc. apply in_map_iff in Hc as (v & <- & _).
    assert (0 < List.length charset)%nat as Hpos
      by (subst charset; destruct (charset_of options); [congruence|cbn; lia]).
    destruct (nth_error charset
                (N.to_nat (v mod N.of_nat (List.length charset))))
      as [x|] eqn:Ex.
    - apply nth_error_In in Ex. eauto.
    - apply nth_error_None in Ex.
      assert (v mod N.of_nat (List.length charset)
              < N.of_nat (List.length charset)) by (apply N.mod_lt; lia).
      lia. }
  destruct (join_drawn charset picked Hpicked) as (Hjl & Hjin).
  assert (List.length (join_chars picked) = length options) as Hjoined
    by (rewrite Hjl; subst picked; now rewrite length_map).
  unfold ensureRequiredChars.
  destruct (ensure_all_drawn (join_chars picked) options
              (required_sets options) (map Some (join_chars picked)) false
              random) as (Hd & Hl); auto.
  { apply incl_refl. }
  { rewrite length_map. lia. }
  { apply Forall_forall. intros c Hc. apply in_map_iff in Hc as (x & <- & Hx).
    exists x. split; [reflexivity|].
    exact (proj1 (Forall_forall _ _) Hjin x Hx). }
  destruct (fold_left _ _ _) as [[chars modified] random'].
  cbn [fst snd] in *. rewrite length_map in Hl.
  destruct (join_drawn charset chars Hd) as (Hcl & Hcin).
  assert (forall p, Forall (fun c => In c charset) p ->
                    excludeAmbiguous options = true ->
                    Forall (fun c => includes CHARS_ambiguous c = false) p)
    as Hclean.
  { intros p Hp He. apply Forall_forall. intros c Hc.
    apply (proj1 (Forall_forall _ _) (Hamb He)).
    exact (proj1 (Forall_forall _ _) Hp c Hc). }
  destruct modified; eexists; (split; [reflexivity|]);
    cbn [used]; repeat split; auto; lia.
Qed.

Lemma uint32s_zero n : forall k,
  uint32s (map (fun _ => x00) (seq k (4 * n))) = repeat 0 n.
Proof.
  induction n as [|n IH]; intros k; [reflexivity|].
  replace (4 * S n)%nat with (S (S (S (S (4 * n))))) by lia.
  cbn [seq map uint32s repeat]. rewrite IH. reflexivity.
Qed.

Lemma existsb_repeat {A} (p : A -> bool) x n :
  existsb p (repeat x n) = match n with O => false | S _ => p x end.
Proof.
  induction n as [|n IH]; [reflexivity|]. cbn [repeat existsb]. rewrite IH.
  destruct n; destruct (p x); reflexivity.
Qed.

Lemma join_some s : join_chars (map Some s) = s.
Proof.
  unfold join_chars. induction s as [|c s IH]; [reflexivity|].
  cbn [map flat_map app]. now rewrite IH.
Qed.

Lemma join_repeat c n : join_chars (repeat (Some c) n) = repeat c n.
Proof.
  unfold join_chars. induction n as [|n IH]; [reflexivity|].
  cbn [repeat flat_map app]. now rewrite IH.
Qed.

Lemma ensure_one_pass password options state req :
  fst req password = true -> ensure_one password options state req = state.
Proof.
  intros H. unfold ensure_one. destruct state as [[chars modified] random].
  now rewrite H.
Qed.

Lemma ensure_one_replace password options chars modified random req :
  fst req password = false ->
  ensure_one password options (chars, modified, random) req
  = (assign_at (scaled random (calls random) (List.length chars))
       (nth_error (replacements options req)
          (scaled random (S (calls random))
             (List.length (replacements options req))))
       chars,
     true,
     {| scaled := scaled random; calls := S (S (calls random)) |}).
Proof. intros H. unfold ensure_one. now rewrite H. Qed.

Lemma letters_A m :
  has_uppercase (repeat 65 (S m)) = true /\
  has_lowercase (repeat 65 (S m)) = false /\
  has_digit (repeat 65 (S m)) = false.
Proof.
  unfold has_uppercase, has_lowercase, has_digit.
  rewrite !existsb_repeat. repeat split.
Qed.

(** X19. [ensureRequiredChars] does not ensure what
    its name says.  For every length from 1 to 16384 there are draws of the
    CSPRNG and of [Math.random] for which [generatePassword], asked for
    upper case, lower case and digits, returns a password without a
    lower-case letter: both replacements fall on the same position and the
    digit overwrites the letter. *)
Theorem required_class_can_be_missing (n : nat) :
  (1 <= n)%nat -> N.of_nat n <= 16384 ->
  exists g random password,
    in_range random /\
    fst (fst (generatePassword (GeneratorSamples.three_classes n) g random))
    = Some password /\
    lowercase (GeneratorSamples.three_classes n) = true /\
    has_lowercase password = false /\
    password = 48 :: repeat 65 (n - 1).
Proof.
  intros Hn Hmax.
  exists GeneratorSamples.zero_rng, GeneratorSamples.zero_random.
  exists (48 :: repeat 65 (n - 1)).
  split; [intros k m Hm; exact Hm|].
  split; [|split; [reflexivity|split; [|reflexivity]]].
  - unfold generatePassword.
    change (length (GeneratorSamples.three_classes n)) with n.
    replace (65536 <? 4 * N.of_nat n) with false
      by (symmetry; apply N.ltb_ge; lia).
    unfold getRandomValues, GeneratorSamples.zero_rng. cbn [entropy used length].
    rewrite uint32s_zero.
    destruct n as [|m]; [lia|].
    replace (S m - 1)%nat with m by lia.
    rewrite map_repeat.
    change (nth_error (charset_of (GeneratorSamples.three_classes (S m)))
              (N.to_nat
                 (0 mod N.of_nat
                          (List.length
                             (charset_of
                                (GeneratorSamples.three_classes (S m)))))))
      with (Some 65).
    rewrite join_repeat.
    destruct (letters_A m) as (HU & HL & HD).
    unfold ensureRequiredChars.
    change (required_sets (GeneratorSamples.three_classes (S m)))
      with [(has_uppercase, CHARS_uppercase); (has_lowercase, CHARS_lowercase);
            (has_digit, CHARS_numbers)].
    cbn [fold_left].
    rewrite (ensure_one_pass _ _ _ (has_uppercase, CHARS_uppercase))
      by exact HU.
    rewrite (ensure_one_replace _ _ _ _ _ (has_lowercase, CHARS_lowercase))
      by exact HL.
    rewrite (ensure_one_replace _ _ _ _ _ (has_digit, CHARS_numbers))
      by exact HD.
    cbn [GeneratorSamples.zero_random scaled calls].
    change (nth_error
              (replacements (GeneratorSamples.three_classes (S m))
                 (has_lowercase, CHARS_lowercase)) 0) with (Some 97).
    change (nth_error
              (replacements (GeneratorSamples.three_classes (S m))
                 (has_digit, CHARS_numbers)) 0) with (Some 48).
    cbn [repeat map assign_at fst snd]. unfold join_chars at 1.
    cbn [flat_map app]. fold (join_chars (map Some (repeat 65 m))).
    now rewrite join_some.
  - unfold has_lowercase. cbn [existsb]. rewrite existsb_repeat.
    change ((97 <=? 48) && (48 <=? 122)) with false.
    change ((97 <=? 65) && (65 <=? 122)) with false.
    now destruct (n - 1)%nat.
Qed.

Lemma generated_password_shape_witness :
  exists password,
    fst (fst (generatePassword (GeneratorSamples.three_classes 12)
                Samples.sample_rng GeneratorSamples.zero_random))
    = Some password /\
    List.length password = 12%nat.
Proof.
  destruct (generated_password_shape (GeneratorSamples.three_classes 12)
              Samples.sample_rng GeneratorSamples.zero_random)
    as (password & E & Hlen & _).
  - intros k m Hm. exact Hm.
  - cbn. lia.
  - cbn. lia.
  - exists password. split; [exact E|exact Hlen].
Defined.

Lemma required_class_can_be_missing_witness :
  exists g random password,
    fst (fst (generatePassword (GeneratorSamples.three_classes 12) g random))
    = Some password /\
    has_lowercase password = false.
Proof.
  destruct (required_class_can_be_missing 12)
    as (g & random & password & _ & E & _ & Hlow & _).
  - lia.
  - cbn. lia.
  - exists g, random, password. split; [exact E|exact Hlow].
Defined.

End GeneratorFacts.
